(** * ConnectionManagerWithHealth: the health-monitoring multiplexer

    A shallow embedding of
    [projects/extension/src/background/ConnectionManagerWithHealth.ts]
    together with the fragment of the JavaScript run time the class relies on
    (strings as sequences of UTF-16 code units, [JSON.parse],
    [JSON.stringify], property access, [Map]), followed by the theorems that
    settle the claims of the specification. *)

From Stdlib Require Import String Ascii List NArith ZArith Lia Bool Sorted.
Import ListNotations.

Set Implicit Arguments.
Local Set Warnings "-register-all".

(** ** JavaScript strings *)

(** A JavaScript string is a finite sequence of UTF-16 code units. *)
Definition jstring := list N.

(** String literals of the source, written as Rocq strings. *)
Definition lit (s : string) : jstring :=
  map N_of_ascii (list_ascii_of_string s).

Arguments lit s%_string.

Fixpoint str_eqb (a b : jstring) : bool :=
  match a, b with
  | [], [] => true
  | x :: a', y :: b' => N.eqb x y && str_eqb a' b'
  | _, _ => false
  end.

(** [String.prototype.startsWith]. *)
Fixpoint startsWith (s p : jstring) {struct p} : bool :=
  match p with
  | [] => true
  | c :: p' =>
      match s with
      | d :: s' => N.eqb c d && startsWith s' p'
      | [] => false
      end
  end.

(** [String.prototype.slice] with one non-negative argument. *)
Definition slice (s : jstring) (n : nat) : jstring := skipn n s.

(** Joins the pieces with a separator, as [Array.prototype.join] does. *)
Fixpoint join (sep : jstring) (l : list jstring) : jstring :=
  match l with
  | [] => []
  | [x] => x
  | x :: rest => x ++ sep ++ join sep rest
  end.

(** ** Decimal digits *)

Definition digit_char (d : N) : N := (48 + d)%N.

Definition is_digit (c : N) : bool := (48 <=? c)%N && (c <=? 57)%N.

Definition digit_val (c : N) : N := (c - 48)%N.

(** Horner evaluation of a list of digit values, most significant first. *)
Definition digits_value (ds : list N) : N :=
  fold_left (fun acc d => (10 * acc + d)%N) ds 0%N.

Fixpoint N_digits_aux (fuel : nat) (n : N) (acc : list N) : list N :=
  match fuel with
  | O => n :: acc
  | S fuel' =>
      if (n <? 10)%N then n :: acc
      else N_digits_aux fuel' (n / 10)%N ((n mod 10)%N :: acc)
  end.

(** The decimal digits of a natural number, most significant first. *)
Definition N_digits (n : N) : list N :=
  N_digits_aux (N.to_nat (N.size n)) n [].

(** [Number::toString] on a non-negative integer below 10^21, the form every
    value of the request counter has. *)
Definition N_to_string (n : N) : jstring := map digit_char (N_digits n).

(** ** Numbers *)

(** The Number values [JSON.parse] can produce.  A finite non-zero Number is
    represented by the decimal [ds * 10^e] that [Number::toString] prints for
    it: [ds] are its significant digits, most significant first, without
    leading or trailing zero.  The model covers the Numbers whose decimal is
    known exactly without binary rounding: decimals of at most 15 significant
    digits in the normal range of a double, and the integers up to 2^53;
    [JSON_parse] reports any other numeral as outside the model (see
    [classify_number]). *)
Inductive number : Type :=
| NZero (neg : bool)
| NFin (neg : bool) (ds : list N) (e : Z)
| NInf (neg : bool).

Fixpoint nzeros (n : nat) : list N :=
  match n with
  | O => []
  | S n' => 0%N :: nzeros n'
  end.

(** [Number::toString] (radix 10) of the positive finite Number
    [ds * 10^e], following the case analysis of ECMA-262 on [k] (the number
    of digits) and [n] (the position of the decimal point). *)
Definition positive_to_string (ds : list N) (e : Z) : jstring :=
  let k := Z.of_nat (length ds) in
  let n := (k + e)%Z in
  let digits := map digit_char ds in
  if ((k <=? n) && (n <=? 21))%Z then
    digits ++ map digit_char (nzeros (Z.to_nat (n - k)))
  else if ((0 <? n) && (n <=? 21))%Z then
    firstn (Z.to_nat n) digits ++ lit "." ++ skipn (Z.to_nat n) digits
  else if ((-6 <? n) && (n <=? 0))%Z then
    lit "0." ++ map digit_char (nzeros (Z.to_nat (- n))) ++ digits
  else
    let exponent :=
      (if (0 <=? n - 1)%Z then lit "+" else lit "-")
        ++ N_to_string (Z.abs_N (n - 1)) in
    match digits with
    | [d] => d :: lit "e" ++ exponent
    | d :: rest => d :: lit "." ++ rest ++ lit "e" ++ exponent
    | [] => lit "e" ++ exponent
    end.

(** [Number::toString]. *)
Definition Number_toString (x : number) : jstring :=
  match x with
  | NZero _ => lit "0"
  | NFin neg ds e =>
      (if neg then lit "-" else []) ++ positive_to_string ds e
  | NInf neg => (if neg then lit "-" else []) ++ lit "Infinity"
  end.

(** ** JSON values *)

(** The values [JSON.parse] returns.  An object is the list of its own
    properties in the order [JSON.stringify] and [for-in] enumerate them. *)
Inductive value : Type :=
| VNull
| VBool (b : bool)
| VNum (x : number)
| VStr (s : jstring)
| VArr (items : list value)
| VObj (props : list (jstring * value)).

(** A JavaScript value as far as this class handles one: a JSON value or
    [undefined]. *)
Definition jsval := option value.

Definition undefined : jsval := None.

(** *** Objects *)

(** An array index is the canonical decimal spelling of an integer below
    2^32 - 1; such property names are enumerated first, in ascending order. *)
Definition array_index (k : jstring) : option N :=
  match k with
  | [] => None
  | c :: rest =>
      if forallb is_digit k
         && (negb (N.eqb c 48) || match rest with [] => true | _ => false end)
         && (length k <=? 10)%nat
         && (digits_value (map digit_val k) <=? 4294967294)%N
      then Some (digits_value (map digit_val k))
      else None
  end.

Fixpoint obj_get (props : list (jstring * value)) (k : jstring) : jsval :=
  match props with
  | [] => None
  | (k', v) :: rest => if str_eqb k' k then Some v else obj_get rest k
  end.

Fixpoint obj_replace (props : list (jstring * value)) (k : jstring) (v : value)
  : list (jstring * value) :=
  match props with
  | [] => []
  | (k', v') :: rest =>
      if str_eqb k' k then (k', v) :: rest
      else (k', v') :: obj_replace rest k v
  end.

(** Inserts a new array-index property at its place among the indices. *)
Fixpoint obj_insert_index (props : list (jstring * value)) (i : N)
  (k : jstring) (v : value) : list (jstring * value) :=
  match props with
  | [] => [(k, v)]
  | (k', v') :: rest =>
      match array_index k' with
      | Some j =>
          if (j <? i)%N then (k', v') :: obj_insert_index rest i k v
          else (k, v) :: props
      | None => (k, v) :: props
      end
  end.

(** Creating or overwriting an own data property ([obj[k] = v] on an
    ordinary object without setters): an existing property keeps its place,
    a new one goes after the existing ones, array indices first. *)
Definition obj_set (props : list (jstring * value)) (k : jstring) (v : value)
  : list (jstring * value) :=
  match obj_get props k with
  | Some _ => obj_replace props k v
  | None =>
      match array_index k with
      | Some i => obj_insert_index props i k v
      | None => props ++ [(k, v)]
      end
  end.

(** ** JSON.stringify *)

Definition hex_char (d : N) : N :=
  if (d <? 10)%N then (48 + d)%N else (87 + d)%N.

(** [UnicodeEscape]: a backslash, [u] and four lower-case hexadecimal
    digits. *)
Definition unicode_escape (c : N) : jstring :=
  [92; 117; hex_char (c / 4096 mod 16); hex_char (c / 256 mod 16);
   hex_char (c / 16 mod 16); hex_char (c mod 16)]%N.

Definition is_lead_surrogate (c : N) : bool :=
  (55296 <=? c)%N && (c <=? 56319)%N.

Definition is_trail_surrogate (c : N) : bool :=
  (56320 <=? c)%N && (c <=? 57343)%N.

(** The escape of one code unit that is not part of a surrogate pair. *)
Definition quote_unit (c : N) : jstring :=
  if (c =? 8)%N then lit "\b"
  else if (c =? 9)%N then lit "\t"
  else if (c =? 10)%N then lit "\n"
  else if (c =? 12)%N then lit "\f"
  else if (c =? 13)%N then lit "\r"
  else if (c =? 34)%N then [92; 34]%N
  else if (c =? 92)%N then [92; 92]%N
  else if (c <? 32)%N || is_lead_surrogate c || is_trail_surrogate c
  then unicode_escape c
  else [c].

(** The body of [QuoteJSONString]: a well-formed surrogate pair is copied,
    any other code unit goes through [quote_unit]. *)
Fixpoint quote_body (s : jstring) : jstring :=
  match s with
  | [] => []
  | c :: rest =>
      match rest with
      | d :: rest' =>
          if is_lead_surrogate c && is_trail_surrogate d
          then c :: d :: quote_body rest'
          else quote_unit c ++ quote_body rest
      | [] => quote_unit c
      end
  end.

Definition QuoteJSONString (s : jstring) : jstring :=
  34%N :: quote_body s ++ [34%N].

(** [JSON.stringify] of a JSON value, without indentation. *)
Fixpoint JSON_stringify (v : value) : jstring :=
  match v with
  | VNull => lit "null"
  | VBool true => lit "true"
  | VBool false => lit "false"
  | VNum (NInf _) => lit "null"
  | VNum x => Number_toString x
  | VStr s => QuoteJSONString s
  | VArr items =>
      lit "[" ++ join (lit ",") (map JSON_stringify items) ++ lit "]"
  | VObj props =>
      lit "{"
        ++ join (lit ",")
             (map (fun kv => QuoteJSONString (fst kv) ++ lit ":"
                               ++ JSON_stringify (snd kv)) props)
        ++ lit "}"
  end.

(** The nesting of arrays and objects in a value: the depth to which
    [JSON.stringify] recurses on it. *)
Fixpoint depth (v : value) : nat :=
  match v with
  | VArr items => S (fold_right (fun x d => Nat.max (depth x) d) 0%nat items)
  | VObj props =>
      S (fold_right (fun kv d => Nat.max (depth (snd kv)) d) 0%nat props)
  | _ => 0%nat
  end.

(** String concatenation [s + x] where [x] is a string or [undefined]. *)
Definition concat_js (s : jstring) (x : option jstring) : jstring :=
  match x with
  | Some t => s ++ t
  | None => s ++ lit "undefined"
  end.

(** ** JSON.parse *)

(** The outcome of [JSON.parse] in the model. *)
Inductive parsed (A : Type) : Type :=
| Parsed (a : A)
| SyntaxError   (* JSON.parse throws a SyntaxError *)
| Unsupported   (* the text has a numeral outside the modelled Numbers *)
| OutOfFuel.    (* never the result of [JSON_parse], see [JSON_parse_fuel] *)

Arguments Parsed {A} a.
Arguments SyntaxError {A}.
Arguments Unsupported {A}.
Arguments OutOfFuel {A}.

Definition parsed_map {A B : Type} (f : A -> B) (p : parsed A) : parsed B :=
  match p with
  | Parsed a => Parsed (f a)
  | SyntaxError => SyntaxError
  | Unsupported => Unsupported
  | OutOfFuel => OutOfFuel
  end.

Definition is_ws (c : N) : bool :=
  (c =? 9)%N || (c =? 10)%N || (c =? 13)%N || (c =? 32)%N.

Fixpoint skip_ws (s : jstring) : jstring :=
  match s with
  | c :: r => if is_ws c then skip_ws r else s
  | [] => []
  end.

(** *** String literals *)

Definition hex_val (c : N) : option N :=
  if is_digit c then Some (c - 48)%N
  else if (97 <=? c)%N && (c <=? 102)%N then Some (c - 87)%N
  else if (65 <=? c)%N && (c <=? 70)%N then Some (c - 55)%N
  else None.

(** The code unit an escape letter stands for. *)
Definition escape_char (c : N) : option N :=
  if (c =? 34)%N then Some 34%N
  else if (c =? 92)%N then Some 92%N
  else if (c =? 47)%N then Some 47%N
  else if (c =? 98)%N then Some 8%N
  else if (c =? 102)%N then Some 12%N
  else if (c =? 110)%N then Some 10%N
  else if (c =? 114)%N then Some 13%N
  else if (c =? 116)%N then Some 9%N
  else None.

Definition cons_fst (c : N) (p : parsed (jstring * jstring))
  : parsed (jstring * jstring) :=
  parsed_map (fun sr => (c :: fst sr, snd sr)) p.

(** Reads a string literal after its opening quote; returns the string and
    the text after the closing quote. *)
Fixpoint parse_string_body (s : jstring) : parsed (jstring * jstring) :=
  match s with
  | [] => SyntaxError
  | c :: r =>
      if (c =? 34)%N then Parsed ([], r)
      else if (c =? 92)%N then
        match r with
        | [] => SyntaxError
        | e :: r1 =>
            if (e =? 117)%N then
              match r1 with
              | h1 :: h2 :: h3 :: h4 :: r2 =>
                  match hex_val h1, hex_val h2, hex_val h3, hex_val h4 with
                  | Some a, Some b, Some c', Some d =>
                      cons_fst (4096 * a + 256 * b + 16 * c' + d)%N
                        (parse_string_body r2)
                  | _, _, _, _ => SyntaxError
                  end
              | _ => SyntaxError
              end
            else
              match escape_char e with
              | Some x => cons_fst x (parse_string_body r1)
              | None => SyntaxError
              end
        end
      else if (c <? 32)%N then SyntaxError
      else cons_fst c (parse_string_body r)
  end.

(** *** Numerals *)

(** The longest run of decimal digits at the head of the text, as digit
    values, and the text after it. *)
Fixpoint span_digits (s : jstring) : list N * jstring :=
  match s with
  | c :: r =>
      if is_digit c
      then let (ds, rest) := span_digits r in (digit_val c :: ds, rest)
      else ([], s)
  | [] => ([], [])
  end.

(** The integer part: a single [0], or a non-zero digit and more digits. *)
Definition parse_int_part (s : jstring) : parsed (list N * jstring) :=
  match s with
  | c :: r =>
      if (c =? 48)%N then Parsed ([0%N], r)
      else if is_digit c
      then let (ds, rest) := span_digits r in Parsed (digit_val c :: ds, rest)
      else SyntaxError
  | [] => SyntaxError
  end.

(** The optional fraction: a point and at least one digit. *)
Definition parse_frac (s : jstring) : parsed (list N * jstring) :=
  match s with
  | c :: r =>
      if (c =? 46)%N then
        match span_digits r with
        | ([], _) => SyntaxError
        | (ds, rest) => Parsed (ds, rest)
        end
      else Parsed ([], s)
  | [] => Parsed ([], [])
  end.

(** The digits of an exponent, at least one. *)
Definition parse_exp_digits (minus : bool) (s : jstring) : parsed (Z * jstring) :=
  match span_digits s with
  | ([], _) => SyntaxError
  | (ds, rest) =>
      let x := Z.of_N (digits_value ds) in
      Parsed (if minus then (- x)%Z else x, rest)
  end.

(** The optional exponent: [e] or [E], an optional sign, at least one
    digit. *)
Definition parse_exp (s : jstring) : parsed (Z * jstring) :=
  match s with
  | c :: r =>
      if (c =? 101)%N || (c =? 69)%N then
        match r with
        | d :: r' =>
            if (d =? 43)%N then parse_exp_digits false r'
            else if (d =? 45)%N then parse_exp_digits true r'
            else parse_exp_digits false r
        | [] => SyntaxError
        end
      else Parsed (0%Z, s)
  | [] => Parsed (0%Z, [])
  end.

Fixpoint strip_zeros (ds : list N) : list N :=
  match ds with
  | d :: r => if (d =? 0)%N then strip_zeros r else ds
  | [] => []
  end.

(** Numerals at or above 2^1024 - 2^970 round to Infinity. *)
Definition overflow_threshold : N := (2 ^ 1024 - 2 ^ 970)%N.

(** The integer [ds * 10^e] is at most 2^53. *)
Definition safe_integer (ds : list N) (e : Z) : bool :=
  if (0 <=? e)%Z then
    if (Z.of_nat (length ds) + e <=? 16)%Z
    then (digits_value ds * 10 ^ Z.to_N e <=? 2 ^ 53)%N
    else false
  else false.

(** The Number a numeral with significant digits [ds] (no leading or
    trailing zero) and exponent [e] denotes.  With [n] the position of the
    decimal point: numerals of 10^309 and more and those from
    2^1024 - 2^970 on overflow to Infinity, numerals below 10^-324 underflow
    to zero; a numeral of at most 15 significant digits in the normal range,
    or an integer up to 2^53, is the decimal of the double nearest to it;
    what remains needs binary rounding and is outside the model. *)
Definition classify_number (neg : bool) (ds : list N) (e : Z) : parsed number :=
  let k := Z.of_nat (length ds) in
  let n := (k + e)%Z in
  if (310 <=? n)%Z then Parsed (NInf neg)
  else if (n =? 309)%Z then
    if (overflow_threshold <=? digits_value (firstn 309 (ds ++ nzeros 309)))%N
    then Parsed (NInf neg)
    else if (k <=? 15)%Z then Parsed (NFin neg ds e) else Unsupported
  else if (n <=? -324)%Z then Parsed (NZero neg)
  else if (-306 <=? n)%Z then
    if (k <=? 15)%Z then Parsed (NFin neg ds e)
    else if safe_integer ds e then Parsed (NFin neg ds e)
    else Unsupported
  else Unsupported.

(** The Number of a numeral given by its sign, the digits of its integer
    part and of its fraction, and its exponent. *)
Definition number_of_literal (neg : bool) (ip fp : list N) (ex : Z)
  : parsed number :=
  match strip_zeros (ip ++ fp) with
  | [] => Parsed (NZero neg)
  | ds0 =>
      let ds := rev (strip_zeros (rev ds0)) in
      let trailing := (length ds0 - length ds)%nat in
      classify_number neg ds (ex - Z.of_nat (length fp) + Z.of_nat trailing)
  end.

(** A numeral after its optional sign. *)
Definition parse_unsigned (neg : bool) (s1 : jstring)
  : parsed (number * jstring) :=
  match parse_int_part s1 with
  | Parsed (ip, s2) =>
      match parse_frac s2 with
      | Parsed (fp, s3) =>
          match parse_exp s3 with
          | Parsed (ex, s4) =>
              parsed_map (fun x => (x, s4)) (number_of_literal neg ip fp ex)
          | SyntaxError => SyntaxError
          | Unsupported => Unsupported
          | OutOfFuel => OutOfFuel
          end
      | SyntaxError => SyntaxError
      | Unsupported => Unsupported
      | OutOfFuel => OutOfFuel
      end
  | SyntaxError => SyntaxError
  | Unsupported => Unsupported
  | OutOfFuel => OutOfFuel
  end.

Definition parse_number (s : jstring) : parsed (number * jstring) :=
  match s with
  | c :: r => if (c =? 45)%N then parse_unsigned true r else parse_unsigned false s
  | [] => parse_unsigned false []
  end.

(** The digit lists [JSON_parse] produces: decimal digits, the first and the
    last of them not zero. *)
Definition canonicalb (ds : list N) : bool :=
  forallb (fun d => (d <? 10)%N) ds
  && negb (hd 0%N ds =? 0)%N && negb (last ds 0%N =? 0)%N.

(** The Numbers of the model. *)
Definition number_ok (x : number) : Prop :=
  match x with
  | NFin neg ds e =>
      canonicalb ds = true /\ classify_number neg ds e = Parsed x
  | _ => True
  end.

(** *** Values *)

Definition with_rest {A B : Type} (f : A -> B) (p : parsed (A * jstring))
  : parsed (B * jstring) :=
  parsed_map (fun ar => (f (fst ar), snd ar)) p.

(** The recursive-descent parser.  [fuel] bounds the depth of the calls;
    [parse_elements] reads the elements of an array after its bracket,
    [parse_members] the members of an object after its brace.  Members are
    added with [obj_set], so that a repeated key overwrites. *)
Fixpoint parse_value (fuel : nat) (s : jstring) : parsed (value * jstring) :=
  match fuel with
  | O => OutOfFuel
  | S fuel' =>
      match skip_ws s with
      | [] => SyntaxError
      | c :: r =>
          if (c =? 123)%N then
            match skip_ws r with
            | d :: r' =>
                if (d =? 125)%N then Parsed (VObj [], r')
                else parse_members fuel' (d :: r') []
            | [] => SyntaxError
            end
          else if (c =? 91)%N then
            match skip_ws r with
            | d :: r' =>
                if (d =? 93)%N then Parsed (VArr [], r')
                else parse_elements fuel' (d :: r') []
            | [] => SyntaxError
            end
          else if (c =? 34)%N then with_rest VStr (parse_string_body r)
          else if (c =? 45)%N || is_digit c
          then with_rest VNum (parse_number (c :: r))
          else if startsWith (c :: r) (lit "true")
          then Parsed (VBool true, skipn 4 (c :: r))
          else if startsWith (c :: r) (lit "false")
          then Parsed (VBool false, skipn 5 (c :: r))
          else if startsWith (c :: r) (lit "null")
          then Parsed (VNull, skipn 4 (c :: r))
          else SyntaxError
      end
  end

with parse_elements (fuel : nat) (s : jstring) (acc : list value)
  : parsed (value * jstring) :=
  match fuel with
  | O => OutOfFuel
  | S fuel' =>
      match parse_value fuel' s with
      | Parsed (v, rest) =>
          match skip_ws rest with
          | d :: r' =>
              if (d =? 44)%N then parse_elements fuel' r' (acc ++ [v])
              else if (d =? 93)%N then Parsed (VArr (acc ++ [v]), r')
              else SyntaxError
          | [] => SyntaxError
          end
      | SyntaxError => SyntaxError
      | Unsupported => Unsupported
      | OutOfFuel => OutOfFuel
      end
  end

with parse_members (fuel : nat) (s : jstring) (acc : list (jstring * value))
  : parsed (value * jstring) :=
  match fuel with
  | O => OutOfFuel
  | S fuel' =>
      match skip_ws s with
      | q :: r =>
          if (q =? 34)%N then
            match parse_string_body r with
            | Parsed (k, rest) =>
                match skip_ws rest with
                | colon :: r1 =>
                    if (colon =? 58)%N then
                      match parse_value fuel' r1 with
                      | Parsed (v, rest2) =>
                          match skip_ws rest2 with
                          | d :: r2 =>
                              if (d =? 44)%N
                              then parse_members fuel' r2 (obj_set acc k v)
                              else if (d =? 125)%N
                              then Parsed (VObj (obj_set acc k v), r2)
                              else SyntaxError
                          | [] => SyntaxError
                          end
                      | SyntaxError => SyntaxError
                      | Unsupported => Unsupported
                      | OutOfFuel => OutOfFuel
                      end
                    else SyntaxError
                | [] => SyntaxError
                end
            | SyntaxError => SyntaxError
            | Unsupported => Unsupported
            | OutOfFuel => OutOfFuel
            end
          else SyntaxError
      | [] => SyntaxError
      end
  end.

(** [JSON.parse]: one value, surrounded by optional white space. *)
Definition JSON_parse (text : jstring) : parsed value :=
  match parse_value (2 * length text + 2) text with
  | Parsed (v, rest) =>
      match skip_ws rest with
      | [] => Parsed v
      | _ :: _ => SyntaxError
      end
  | SyntaxError => SyntaxError
  | Unsupported => Unsupported
  | OutOfFuel => OutOfFuel
  end.

(** ** Values at run time *)

(** [ToBoolean]. *)
Definition truthy (v : jsval) : bool :=
  match v with
  | None => false
  | Some VNull => false
  | Some (VBool b) => b
  | Some (VNum (NZero _)) => false
  | Some (VNum _) => true
  | Some (VStr []) => false
  | Some (VStr (_ :: _)) => true
  | Some (VArr _) => true
  | Some (VObj _) => true
  end.

Fixpoint digits_eqb (a b : list N) : bool :=
  match a, b with
  | [], [] => true
  | x :: a', y :: b' => N.eqb x y && digits_eqb a' b'
  | _, _ => false
  end.

Definition number_eqb (x y : number) : bool :=
  match x, y with
  | NZero _, NZero _ => true
  | NFin n1 d1 e1, NFin n2 d2 e2 =>
      Bool.eqb n1 n2 && digits_eqb d1 d2 && Z.eqb e1 e2
  | NInf n1, NInf n2 => Bool.eqb n1 n2
  | _, _ => false
  end.

(** The strict equality [===] between two values that were obtained from
    different calls of [JSON.parse] (or are [undefined]): primitives are
    compared by value, and two objects or arrays are never the same
    object. *)
Definition strict_eq (a b : jsval) : bool :=
  match a, b with
  | None, None => true
  | Some VNull, Some VNull => true
  | Some (VBool x), Some (VBool y) => Bool.eqb x y
  | Some (VNum x), Some (VNum y) => number_eqb x y
  | Some (VStr x), Some (VStr y) => str_eqb x y
  | _, _ => false
  end.

(** ** Exceptions and the state monad of the class *)

Inductive exn : Type :=
| TypeError          (* a property of undefined or null, a call of a non-function *)
| JSONSyntaxError    (* thrown by JSON.parse *)
| RangeError         (* thrown by JSON.stringify when the stack is exhausted *)
| InvariantError     (* the [throw new Error()] of nextSandboxMessage *)
| UnknownSandbox     (* thrown by the inner manager *)
| DuplicateSandbox.  (* thrown by the inner manager *)

(** How a piece of code completes: normally, with a thrown exception, or
    outside the model (a JSON numeral the model has no Number for). *)
Inductive completion (A : Type) : Type :=
| Normal (a : A)
| Abrupt (e : exn)
| NotModelled.

Arguments Normal {A} a.
Arguments Abrupt {A} e.
Arguments NotModelled {A}.

Definition completion_bind {A B : Type} (c : completion A)
  (f : A -> completion B) : completion B :=
  match c with
  | Normal a => f a
  | Abrupt e => Abrupt e
  | NotModelled => NotModelled
  end.

(** [JSON.parse] as the source calls it. *)
Definition JSON_parse_js (text : jstring) : completion value :=
  match JSON_parse text with
  | Parsed v => Normal v
  | SyntaxError => Abrupt JSONSyntaxError
  | Unsupported => NotModelled
  | OutOfFuel => NotModelled
  end.

(** [JSON.stringify] recurses once for every level of nesting of its
    argument, and the engine throws a RangeError when the recursion exhausts
    the stack.  How deep a value may be is a matter of the engine, not of
    the language: [stack_limit] is the deepest nesting the engine
    serialises.  The requests of the class, which are nested two deep, are
    within it. *)
Class Engine : Type := {
  stack_limit : nat;
  stack_limit_own : (2 <= stack_limit)%nat
}.

(** Whether [JSON.stringify] completes on a value that may be [undefined]. *)
Definition within_stack `{Engine} (v : jsval) : bool :=
  match v with
  | Some x => (depth x <=? stack_limit)%nat
  | None => true
  end.

(** [JSON.stringify] as the source calls it, on a value that may be
    [undefined]: the result is then [undefined] as well. *)
Definition JSON_stringify_js `{Engine} (v : jsval)
  : completion (option jstring) :=
  if within_stack v then Normal (option_map JSON_stringify v)
  else Abrupt RangeError.

(** [JSON.stringify] of an object or an array, which gives a string. *)
Definition JSON_stringify_object `{Engine} (v : value) : completion jstring :=
  if within_stack (Some v) then Normal (JSON_stringify v)
  else Abrupt RangeError.

(** Reading one of the properties [id], [method], [params], [result],
    [subscription], [event] or [peers] of a value.  None of them is a
    property of a prototype or of a primitive, so only an object can have
    it. *)
Definition get_prop (base : jsval) (k : jstring) : completion jsval :=
  match base with
  | None => Abrupt TypeError
  | Some VNull => Abrupt TypeError
  | Some (VObj props) => Normal (obj_get props k)
  | Some _ => Normal undefined
  end.

(** The assignment [base.id = v] in strict mode, on a value returned by
    [JSON.parse].  On an array the new property is not an element, and
    [JSON.stringify] does not print it. *)
Definition set_prop (base : value) (k : jstring) (v : value)
  : completion value :=
  match base with
  | VObj props => Normal (VObj (obj_set props k v))
  | VArr items => Normal (VArr items)
  | _ => Abrupt TypeError
  end.

(** *** JavaScript [Map] *)

(** A [Map] is the list of its entries in insertion order. *)
Section JSMap.
Variables K V : Type.
Variable eqb : K -> K -> bool.

Fixpoint map_get (m : list (K * V)) (k : K) : option V :=
  match m with
  | [] => None
  | (k', v) :: rest => if eqb k' k then Some v else map_get rest k
  end.

(** [Map.prototype.set]: an existing key keeps its position. *)
Fixpoint map_set (m : list (K * V)) (k : K) (v : V) : list (K * V) :=
  match m with
  | [] => [(k, v)]
  | (k', v') :: rest =>
      if eqb k' k then (k', v) :: rest else (k', v') :: map_set rest k v
  end.

(** [Map.prototype.delete]: drops the entry of the key (a [Map] has at
    most one). *)
Fixpoint map_delete (m : list (K * V)) (k : K) : list (K * V) :=
  match m with
  | [] => []
  | (k', v') :: rest =>
      if eqb k' k then map_delete rest k else (k', v') :: map_delete rest k
  end.

Definition map_keys (m : list (K * V)) : list K := map fst m.
End JSMap.

(** Keys compared by a boolean equality that decides [=]. *)
Class EqKey (A : Type) : Type := {
  key_eqb : A -> A -> bool;
  key_eqb_eq : forall a b, key_eqb a b = true <-> a = b
}.

(** *** Messages *)

(** Modelled from the spec: the message envelopes of
    [@substrate/connect-extension-protocol], whose declarations are not part
    of the sources at hand.  The spec names the kinds [chain-ready], [rpc],
    [error] and [remove-chain]; [AppOther] and [ExtOther] stand for a message
    of any other type, which the code sends through its [default] branches. *)
Inductive ToApplication : Type :=
| AppChainReady (chainId : jstring)
| AppRpc (chainId : jstring) (jsonRpcMessage : jstring)
| AppError (chainId : jstring) (errorMessage : jstring)
| AppOther (type : jstring).

Inductive ToExtension : Type :=
| ExtRpc (chainId : jstring) (jsonRpcMessage : jstring)
| ExtRemoveChain (chainId : jstring)
| ExtOther (type : jstring).

(** What [nextSandboxMessage] resolves to: a message of the inner manager
    or the [chains-status-changed] message of interface [ChainsStatusChanged]. *)
Inductive Output : Type :=
| FromInner (m : ToApplication)
| ChainsStatusChanged.

(** Interface [Chain].  At run time [peers] holds whatever the response
    carried, and [readySubscriptionId] is absent ([undefined]) until a
    response stores the subscription. *)
Record Chain : Type := {
  readySubscriptionId : jsval;
  isSyncing : bool;
  peers : jsval
}.

Definition number_zero : value := VNum (NZero false).

(** The object literal [{ isSyncing: true, peers: 0 }]. *)
Definition new_chain : Chain :=
  {| readySubscriptionId := undefined; isSyncing := true;
     peers := Some number_zero |}.

(** The object literal [{ jsonrpc: "2.0", id, method, params }]. *)
Definition json_rpc_request (id method : jstring) (params : list value)
  : value :=
  VObj [(lit "jsonrpc", VStr (lit "2.0")); (lit "id", VStr id);
        (lit "method", VStr method); (lit "params", VArr params)].

(** [n += 1] on a Number holding a non-negative integer: exact below 2^53,
    where the sum rounds back to 2^53. *)
Definition js_succ (n : N) : N :=
  if (n <? 2 ^ 53)%N then (n + 1)%N else n.

(** ["ready-sub:" + n] and ["health-check:" + n] for the value [n] of the
    counter [#nextHealthCheckRqId]. *)
Definition ready_sub_id (n : N) : jstring := lit "ready-sub:" ++ N_to_string n.

Definition health_check_id (n : N) : jstring :=
  lit "health-check:" ++ N_to_string n.

(** The [chainHead_unstable_follow] request and the [system_health] request
    as the class sends them. *)
Definition follow_request (n : N) : jstring :=
  JSON_stringify
    (json_rpc_request (ready_sub_id n) (lit "chainHead_unstable_follow")
       [VBool true]).

Definition health_request (n : N) : jstring :=
  JSON_stringify
    (json_rpc_request (health_check_id n) (lit "system_health") []).

(** ** The class ConnectionManagerWithHealth *)

Section Manager.
Context {SandboxId : Type} `{EqKey SandboxId} `{Engine}.

(** Modelled from the spec: the inner [ConnectionManager], whose source is
    not at hand.  Of its contract the model keeps what the spec states:
    [addSandbox] fails on a duplicate identifier, [deleteSandbox],
    [sandboxMessage] and [nextSandboxMessage] fail on an unknown one, and
    [nextSandboxMessage] delivers the messages of a sandbox in order.
    [queues] holds, per sandbox, the messages generated and not yet pulled;
    [sent] records the messages received through [sandboxMessage]. *)
Record ConnectionManager : Type := {
  queues : list (SandboxId * list ToApplication);
  sent : list (SandboxId * ToExtension)
}.

(** The private fields of the class.  The timer [#pingInterval] is not a
    field of the model: its firing is the operation [sendPings]. *)
Record state : Type := {
  inner : ConnectionManager;
  sandboxesChains : list (SandboxId * list (jstring * Chain));
  nextHealthCheckRqId : N
}.

(** A method runs on a state and completes normally or by throwing; the
    mutations made before a [throw] stay. *)
Inductive result (A : Type) : Type :=
| Ok (a : A) (st : state)
| Throw (e : exn) (st : state)
| OutsideModel.

Arguments Ok {A} a st.
Arguments Throw {A} e st.
Arguments OutsideModel {A}.

Definition M (A : Type) : Type := state -> result A.

Definition ret {A : Type} (a : A) : M A := fun st => Ok a st.

Definition bind {A B : Type} (c : M A) (f : A -> M B) : M B :=
  fun st =>
    match c st with
    | Ok a st' => f a st'
    | Throw e st' => Throw e st'
    | OutsideModel => OutsideModel
    end.

Definition throw {A : Type} (e : exn) : M A := fun st => Throw e st.

Definition lift {A : Type} (c : completion A) : M A :=
  fun st =>
    match c with
    | Normal a => Ok a st
    | Abrupt e => Throw e st
    | NotModelled => OutsideModel
    end.

Notation "x <- c ;; k" := (bind c (fun x => k))
  (at level 61, c at next level, right associativity).
Notation "c ;; k" := (bind c (fun _ => k))
  (at level 61, right associativity).

Definition get_counter : M N := fun st => Ok (nextHealthCheckRqId st) st.

Definition set_counter (n : N) : M unit :=
  fun st =>
    Ok tt {| inner := inner st; sandboxesChains := sandboxesChains st;
             nextHealthCheckRqId := n |}.

Definition get_sandboxesChains : M (list (SandboxId * list (jstring * Chain))) :=
  fun st => Ok (sandboxesChains st) st.

Definition set_sandboxesChains (m : list (SandboxId * list (jstring * Chain)))
  : M unit :=
  fun st =>
    Ok tt {| inner := inner st; sandboxesChains := m;
             nextHealthCheckRqId := nextHealthCheckRqId st |}.

Definition set_inner (i : ConnectionManager) : M unit :=
  fun st =>
    Ok tt {| inner := i; sandboxesChains := sandboxesChains st;
             nextHealthCheckRqId := nextHealthCheckRqId st |}.

(** A mutation of the [Map] of chains of a sandbox, which is an entry of
    [#sandboxesChains]; [missing] is what happens when the sandbox has no
    entry. *)
Definition update_chains (sandboxId : SandboxId)
  (f : list (jstring * Chain) -> list (jstring * Chain)) (missing : M unit)
  : M unit :=
  m <- get_sandboxesChains ;;
  match map_get key_eqb m sandboxId with
  | Some chains => set_sandboxesChains (map_set key_eqb m sandboxId (f chains))
  | None => missing
  end.

(** *** The inner manager *)

Definition inner_has (i : ConnectionManager) (sandboxId : SandboxId) : bool :=
  match map_get key_eqb (queues i) sandboxId with
  | Some _ => true
  | None => false
  end.

Definition inner_addSandbox (sandboxId : SandboxId) : M unit :=
  fun st =>
    if inner_has (inner st) sandboxId then Throw DuplicateSandbox st
    else set_inner {| queues := queues (inner st) ++ [(sandboxId, [])];
                      sent := sent (inner st) |} st.

Definition inner_deleteSandbox (sandboxId : SandboxId) : M unit :=
  fun st =>
    if inner_has (inner st) sandboxId
    then set_inner {| queues := map_delete key_eqb (queues (inner st)) sandboxId;
                      sent := sent (inner st) |} st
    else Throw UnknownSandbox st.

Definition inner_sandboxMessage (sandboxId : SandboxId) (message : ToExtension)
  : M unit :=
  fun st =>
    if inner_has (inner st) sandboxId
    then set_inner {| queues := queues (inner st);
                      sent := sent (inner st) ++ [(sandboxId, message)] |} st
    else Throw UnknownSandbox st.

(** The inner manager generates a message for a sandbox (the doing of the
    chain engine, not of this class). *)
Definition inner_generates (sandboxId : SandboxId) (item : ToApplication)
  : M unit :=
  fun st =>
    match map_get key_eqb (queues (inner st)) sandboxId with
    | Some q =>
        set_inner {| queues := map_set key_eqb (queues (inner st)) sandboxId
                                 (q ++ [item]);
                     sent := sent (inner st) |} st
    | None => Ok tt st
    end.

(** *** nextSandboxMessage *)

(** One turn of the [while (true)] loop either returns or goes on to the
    next message of the inner manager. *)
Inductive step : Type :=
| Return (m : Output)
| Continue.

(** [const chain = this.#sandboxesChains.get(sandboxId)!.get(chainId)!]:
    the second [get] may give [undefined]. *)
Definition lookup_chain (sandboxId : SandboxId) (chainId : jstring)
  : M (option Chain) :=
  m <- get_sandboxesChains ;;
  match map_get key_eqb m sandboxId with
  | Some chains => ret (map_get str_eqb chains chainId)
  | None => throw TypeError
  end.

(** A write to a field of the [chain] object, which lives in the map. *)
Definition store_chain (sandboxId : SandboxId) (chainId : jstring) (c : Chain)
  : M unit :=
  update_chains sandboxId (fun chains => map_set str_eqb chains chainId c)
    (throw TypeError).


(** The body of the loop of [nextSandboxMessage], run on the message
    [toApplication] that the inner manager delivered. *)
Definition handle (sandboxId : SandboxId) (toApplication : ToApplication)
  : M step :=
  match toApplication with
  | AppChainReady chainId =>
      update_chains sandboxId
        (fun chains => map_set str_eqb chains chainId new_chain) (ret tt) ;;
      n <- get_counter ;;
      inner_sandboxMessage sandboxId (ExtRpc chainId (follow_request n)) ;;
      set_counter (js_succ n) ;;
      ret (Return (FromInner toApplication))

  | AppRpc chainId text =>
      chain <- lookup_chain sandboxId chainId ;;
      jsonRpcMessage <- lift (JSON_parse_js text) ;;
      id <- lift (get_prop (Some jsonRpcMessage) (lit "id")) ;;
      if truthy id then
        match id with
        | Some (VStr jsonRpcMessageId) =>
            if startsWith jsonRpcMessageId (lit "extern:") then
              newId <- lift (JSON_parse_js (slice jsonRpcMessageId 7)) ;;
              restored <- lift (set_prop jsonRpcMessage (lit "id") newId) ;;
              text' <- lift (JSON_stringify_object restored) ;;
              ret (Return (FromInner (AppRpc chainId text')))
            else if startsWith jsonRpcMessageId (lit "health-check:") then
              result <- lift (get_prop (Some jsonRpcMessage) (lit "result")) ;;
              match chain with
              | Some c =>
                  p <- lift (get_prop result (lit "peers")) ;;
                  store_chain sandboxId chainId
                    {| readySubscriptionId := readySubscriptionId c;
                       isSyncing := isSyncing c; peers := p |} ;;
                  ret (Return ChainsStatusChanged)
              | None => throw TypeError
              end
            else if startsWith jsonRpcMessageId (lit "ready-sub:") then
              result <- lift (get_prop (Some jsonRpcMessage) (lit "result")) ;;
              match chain with
              | Some c =>
                  store_chain sandboxId chainId
                    {| readySubscriptionId := result;
                       isSyncing := isSyncing c; peers := peers c |} ;;
                  ret Continue
              | None => throw TypeError
              end
            else throw InvariantError
        | _ => throw TypeError
        end
      else
        method <- lift (get_prop (Some jsonRpcMessage) (lit "method")) ;;
        if strict_eq method (Some (VStr (lit "chainHead_unstable_followEvent")))
        then
          params <- lift (get_prop (Some jsonRpcMessage) (lit "params")) ;;
          subscription <- lift (get_prop params (lit "subscription")) ;;
          match chain with
          | Some c =>
              if strict_eq subscription (readySubscriptionId c) then
                result <- lift (get_prop params (lit "result")) ;;
                event <- lift (get_prop result (lit "event")) ;;
                if strict_eq event (Some (VStr (lit "initialized"))) then
                  store_chain sandboxId chainId
                    {| readySubscriptionId := readySubscriptionId c;
                       isSyncing := false; peers := peers c |} ;;
                  n <- get_counter ;;
                  inner_sandboxMessage sandboxId
                    (ExtRpc chainId (health_request n)) ;;
                  set_counter (js_succ n) ;;
                  ret (Return ChainsStatusChanged)
                else if strict_eq event (Some (VStr (lit "stop"))) then
                  store_chain sandboxId chainId
                    {| readySubscriptionId := undefined;
                       isSyncing := isSyncing c; peers := peers c |} ;;
                  n <- get_counter ;;
                  inner_sandboxMessage sandboxId
                    (ExtRpc chainId (follow_request n)) ;;
                  ret Continue
                else ret Continue
              else ret (Return (FromInner toApplication))
          | None => throw TypeError
          end
        else ret (Return (FromInner toApplication))

  | AppError chainId _ =>
      update_chains sandboxId
        (fun chains => map_delete str_eqb chains chainId) (ret tt) ;;
      ret (Return (FromInner toApplication))

  | AppOther _ => ret (Return (FromInner toApplication))
  end.

Definition set_queue (sandboxId : SandboxId) (q : list ToApplication) : M unit :=
  fun st =>
    set_inner {| queues := map_set key_eqb (queues (inner st)) sandboxId q;
                 sent := sent (inner st) |} st.

(** The loop over the messages [items] the inner manager holds for the
    sandbox: each turn takes the first one off the queue and handles it.
    When the queue is used up the promise stays pending ([None]). *)
Fixpoint pull (sandboxId : SandboxId) (items : list ToApplication)
  : M (option Output) :=
  match items with
  | [] => ret None
  | toApplication :: rest =>
      set_queue sandboxId rest ;;
      s <- handle sandboxId toApplication ;;
      match s with
      | Return m => ret (Some m)
      | Continue => pull sandboxId rest
      end
  end.

Definition nextSandboxMessage (sandboxId : SandboxId) : M (option Output) :=
  fun st =>
    match map_get key_eqb (queues (inner st)) sandboxId with
    | Some items => pull sandboxId items st
    | None => Throw UnknownSandbox st
    end.

(** *** sandboxMessage *)

(** The [try] block of the [rpc] case, which touches no field of the
    class: it computes the new [message.jsonRpcMessage]. *)
Definition wrap_id (text : jstring) : completion jstring :=
  completion_bind (JSON_parse_js text) (fun parsedJsonRpcMessage =>
  completion_bind (get_prop (Some parsedJsonRpcMessage) (lit "id")) (fun id =>
  completion_bind (JSON_stringify_js id) (fun idText =>
  completion_bind
    (set_prop parsedJsonRpcMessage (lit "id")
       (VStr (concat_js (lit "extern:") idText)))
    JSON_stringify_object))).

(** [try { body } finally { handler }] without [catch]: the handler runs in
    either case; an exception of the body is thrown again after it, unless
    the handler throws one itself. *)
Definition try_finally {A : Type} (body : completion A) (handler : M unit)
  : M A :=
  fun st =>
    match body with
    | Normal a =>
        match handler st with
        | Ok _ st' => Ok a st'
        | Throw e st' => Throw e st'
        | OutsideModel => OutsideModel
        end
    | Abrupt e =>
        match handler st with
        | Ok _ st' => Throw e st'
        | Throw e' st' => Throw e' st'
        | OutsideModel => OutsideModel
        end
    | NotModelled => OutsideModel
    end.

Definition sandboxMessage (sandboxId : SandboxId) (message : ToExtension)
  : M unit :=
  match message with
  | ExtRemoveChain chainId =>
      update_chains sandboxId
        (fun chains => map_delete str_eqb chains chainId) (throw TypeError) ;;
      inner_sandboxMessage sandboxId message
  | ExtRpc chainId text =>
      let body := wrap_id text in
      let message' :=
        match body with
        | Normal text' => ExtRpc chainId text'
        | _ => message
        end in
      try_finally body (inner_sandboxMessage sandboxId message') ;;
      ret tt
  | ExtOther _ => inner_sandboxMessage sandboxId message
  end.

(** *** addSandbox, deleteSandbox *)

Definition addSandbox (sandboxId : SandboxId) : M unit :=
  inner_addSandbox sandboxId ;;
  m <- get_sandboxesChains ;;
  set_sandboxesChains (map_set key_eqb m sandboxId []).

Definition deleteSandbox (sandboxId : SandboxId) : M unit :=
  inner_deleteSandbox sandboxId ;;
  m <- get_sandboxesChains ;;
  set_sandboxesChains (map_delete key_eqb m sandboxId).

(** *** The ping scheduler *)

Fixpoint for_each {A : Type} (l : list A) (body : A -> M unit) : M unit :=
  match l with
  | [] => ret tt
  | x :: rest => body x ;; for_each rest body
  end.

(** The body of the inner loop of [#sendPings]. *)
Definition ping (sandboxId : SandboxId) (chainId : jstring) : M unit :=
  n <- get_counter ;;
  inner_sandboxMessage sandboxId (ExtRpc chainId (health_request n)) ;;
  set_counter (js_succ n).

Definition sendPings : M unit :=
  m <- get_sandboxesChains ;;
  for_each m (fun entry =>
    for_each (snd entry) (fun chain => ping (fst entry) (fst chain))).

(** *** Runs of an instance *)

(** The state the constructor builds. *)
Definition initial : state :=
  {| inner := {| queues := []; sent := [] |};
     sandboxesChains := [];
     nextHealthCheckRqId := 0 |}.

(** What can happen to an instance: a call of a public method, a firing of
    the timer, one turn of the loop of a pending [nextSandboxMessage]
    (between two turns the call awaits and other operations may run), the
    body of the loop resuming on a message the inner manager handed over
    before other operations ran, and the inner manager generating a
    message. *)
Inductive op : Type :=
| OpAddSandbox (sandboxId : SandboxId)
| OpDeleteSandbox (sandboxId : SandboxId)
| OpSandboxMessage (sandboxId : SandboxId) (message : ToExtension)
| OpNextSandboxMessage (sandboxId : SandboxId)
| OpTurn (sandboxId : SandboxId)
| OpResume (sandboxId : SandboxId) (toApplication : ToApplication)
| OpSendPings
| OpInnerGenerates (sandboxId : SandboxId) (item : ToApplication).

(** One turn of the loop: takes the next message, if there is one. *)
Definition turn (sandboxId : SandboxId) : M unit :=
  fun st =>
    match map_get key_eqb (queues (inner st)) sandboxId with
    | Some (toApplication :: rest) =>
        (set_queue sandboxId rest ;;
         handle sandboxId toApplication ;;
         ret tt) st
    | Some [] => Ok tt st
    | None => Throw UnknownSandbox st
    end.

Definition run_op (o : op) : M unit :=
  match o with
  | OpAddSandbox s => addSandbox s
  | OpDeleteSandbox s => deleteSandbox s
  | OpSandboxMessage s m => sandboxMessage s m
  | OpNextSandboxMessage s => nextSandboxMessage s ;; ret tt
  | OpTurn s => turn s
  | OpResume s toApplication => handle s toApplication ;; ret tt
  | OpSendPings => sendPings
  | OpInnerGenerates s item => inner_generates s item
  end.

(** The state a method leaves behind, whether it returned or threw. *)
Definition final {A : Type} (r : result A) : option state :=
  match r with
  | Ok _ st' => Some st'
  | Throw _ st' => Some st'
  | OutsideModel => None
  end.

Definition after (o : op) (st : state) : option state := final (run_op o st).

Fixpoint run (ops : list op) (st : state) : option state :=
  match ops with
  | [] => Some st
  | o :: rest =>
      match after o st with
      | Some st' => run rest st'
      | None => None
      end
  end.

(** *** Assertions on states *)

(** The record of a chain of a sandbox, if the chain is tracked. *)
Definition chain_record (st : state) (sandboxId : SandboxId)
  (chainId : jstring) : option Chain :=
  match map_get key_eqb (sandboxesChains st) sandboxId with
  | Some chains => map_get str_eqb chains chainId
  | None => None
  end.

(** The state after the inner manager has received a message. *)
Definition delegated (st : state) (sandboxId : SandboxId)
  (message : ToExtension) : state :=
  {| inner := {| queues := queues (inner st);
                 sent := sent (inner st) ++ [(sandboxId, message)] |};
     sandboxesChains := sandboxesChains st;
     nextHealthCheckRqId := nextHealthCheckRqId st |}.

(** The state after the record of a chain has been written, in a sandbox
    whose chains were [chains]. *)
Definition with_chain (st : state) (sandboxId : SandboxId)
  (chains : list (jstring * Chain)) (chainId : jstring) (c : Chain) : state :=
  {| inner := inner st;
     sandboxesChains :=
       map_set key_eqb (sandboxesChains st) sandboxId
         (map_set str_eqb chains chainId c);
     nextHealthCheckRqId := nextHealthCheckRqId st |}.

(** The state after [#nextHealthCheckRqId += 1]. *)
Definition advanced (st : state) : state :=
  {| inner := inner st; sandboxesChains := sandboxesChains st;
     nextHealthCheckRqId := js_succ (nextHealthCheckRqId st) |}.

(** The state after the inner manager has handed over a message, [rest]
    being what it still holds for the sandbox. *)
Definition dequeued (st : state) (sandboxId : SandboxId)
  (rest : list ToApplication) : state :=
  {| inner := {| queues := map_set key_eqb (queues (inner st)) sandboxId rest;
                 sent := sent (inner st) |};
     sandboxesChains := sandboxesChains st;
     nextHealthCheckRqId := nextHealthCheckRqId st |}.

(** [id] is the identifier of a health-monitoring request sent so far. *)
Definition issued (st : state) (id : jstring) : Prop :=
  exists s c n,
    (In (s, ExtRpc c (follow_request n)) (sent (inner st))
     /\ id = ready_sub_id n)
    \/ (In (s, ExtRpc c (health_request n)) (sent (inner st))
        /\ id = health_check_id n).

(** Every health-monitoring request sent so far was numbered below the
    present value of the counter. *)
Definition numbered_below (st : state) : Prop :=
  forall s c n,
    In (s, ExtRpc c (follow_request n)) (sent (inner st))
    \/ In (s, ExtRpc c (health_request n)) (sent (inner st)) ->
    (n < nextHealthCheckRqId st)%N.

(** The (sandbox, chain) pairs of [#sandboxesChains], in the order the
    loops of [#sendPings] visit them. *)
Definition tracked_pairs (m : list (SandboxId * list (jstring * Chain)))
  : list (SandboxId * jstring) :=
  flat_map (fun entry => map (fun chain => (fst entry, fst chain)) (snd entry))
    m.

(** The [system_health] requests for the pairs, numbered from [n] on. *)
Fixpoint ping_messages (pairs : list (SandboxId * jstring)) (n : N)
  : list (SandboxId * ToExtension) :=
  match pairs with
  | [] => []
  | (s, c) :: rest =>
      (s, ExtRpc c (health_request n)) :: ping_messages rest (js_succ n)
  end.

(** The state after the pings for [pairs] went out. *)
Definition pinged (st : state) (pairs : list (SandboxId * jstring)) : state :=
  {| inner := {| queues := queues (inner st);
                 sent := sent (inner st)
                         ++ ping_messages pairs (nextHealthCheckRqId st) |};
     sandboxesChains := sandboxesChains st;
     nextHealthCheckRqId :=
       Nat.iter (length pairs) js_succ (nextHealthCheckRqId st) |}.

(** The method keeps the assertion [P] on the state. *)
Definition keeps {A : Type} P (c : M A) : Prop :=
  forall st, P st ->
    match final (c st) with
    | Some st' => P st'
    | None => True
    end.

(** The sandbox has no entry in [#sandboxesChains]. *)
Definition untracked (sandboxId : SandboxId) (st : state) : Prop :=
  map_get key_eqb (sandboxesChains st) sandboxId = None.
End Manager.

Arguments Ok {SandboxId A} a st.
Arguments Throw {SandboxId A} e st.
Arguments OutsideModel {SandboxId A}.

#[export] Instance EqKey_N : EqKey N :=
  {| key_eqb := N.eqb; key_eqb_eq := N.eqb_eq |}.

(** ** Assertions on texts and values *)

Definition digits_ok (ds : list N) : Prop := Forall (fun d => (d < 10)%N) ds.

(** The text after a numeral does not go on with a digit. *)
Definition no_digit_ahead (s : jstring) : Prop :=
  match s with
  | [] => True
  | c :: _ => is_digit c = false
  end.

(** The values all of whose Numbers belong to the model. *)
Inductive value_ok : value -> Prop :=
| ok_null : value_ok VNull
| ok_bool (b : bool) : value_ok (VBool b)
| ok_num (x : number) : number_ok x -> value_ok (VNum x)
| ok_str (s : jstring) : value_ok (VStr s)
| ok_arr (items : list value) : Forall value_ok items -> value_ok (VArr items)
| ok_obj (props : list (jstring * value)) :
    Forall (fun kv => value_ok (snd kv)) props -> value_ok (VObj props).

Definition props_ok (props : list (jstring * value)) : Prop :=
  Forall (fun kv => value_ok (snd kv)) props.

(** What a call of the parser on [s] with [fuel] gives: a value of the
    model and a shorter text, and [OutOfFuel] only when the fuel was at most
    [bound]. *)
Definition parser_post (s : jstring) (fuel bound : nat)
  (p : parsed (value * jstring)) : Prop :=
  match p with
  | Parsed (v, rest) => (length rest < length s)%nat /\ value_ok v
  | OutOfFuel => (fuel <= bound)%nat
  | _ => True
  end.



(** The identifier starts with the prefix of one of the three namespaces. *)
Definition known_prefix (id : jstring) : bool :=
  startsWith id (lit "extern:") || startsWith id (lit "health-check:")
  || startsWith id (lit "ready-sub:").

(** The shape of a [chainHead_unstable_followEvent] notification on the
    subscription [sub] with the given [event]: no (truthy) [id], the method,
    [params.subscription] strictly equal to [sub], and [params.result.event]
    readable. *)
Definition follow_event (props : list (jstring * value)) (sub : value)
  (event : jsval) : Prop :=
  truthy (obj_get props (lit "id")) = false
  /\ obj_get props (lit "method")
     = Some (VStr (lit "chainHead_unstable_followEvent"))
  /\ exists subscription result,
       get_prop (obj_get props (lit "params")) (lit "subscription")
       = Normal subscription
       /\ strict_eq subscription (Some sub) = true
       /\ get_prop (obj_get props (lit "params")) (lit "result")
          = Normal result
       /\ get_prop result (lit "event") = Normal event.

(** The text of a request before and after the body of its [id]. *)
Definition request_head : jstring :=
  lit "{" ++ QuoteJSONString (lit "jsonrpc") ++ lit ":"
    ++ QuoteJSONString (lit "2.0") ++ lit "," ++ QuoteJSONString (lit "id")
    ++ lit ":" ++ [34%N].

Definition request_tail (method : jstring) (params : list value) : jstring :=
  34%N :: lit "," ++ QuoteJSONString (lit "method") ++ lit ":"
    ++ QuoteJSONString method ++ lit "," ++ QuoteJSONString (lit "params")
    ++ lit ":" ++ JSON_stringify (VArr params) ++ lit "}".

(** ** Concrete data for the examples *)

(** A JSON text written with ['] in the place of the double quote. *)
Definition quoted (s : string) : jstring :=
  map (fun c => if (c =? 39)%N then 34%N else c) (lit s).

Arguments quoted s%_string.

Definition chainA : jstring := lit "A".

Definition chainB : jstring := lit "B".

(** An instance with the sandbox 1 and no chain yet. *)
Definition one_sandbox : state (SandboxId := N) :=
  {| inner := {| queues := [(1%N, [])]; sent := [] |};
     sandboxesChains := [(1%N, [])];
     nextHealthCheckRqId := 0 |}.

(** The response of the chain engine to the first [ready-sub] request. *)
Definition subscription_response : jstring :=
  quoted "{'jsonrpc':'2.0','id':'ready-sub:0','result':'s1'}".

(** A [chainHead_unstable_followEvent] notification on a subscription. *)
Definition follow_event_text (subscription event : string) : jstring :=
  quoted "{'jsonrpc':'2.0','method':'chainHead_unstable_followEvent','params':{'subscription':'"
    ++ lit subscription ++ quoted "','result':{'event':'" ++ lit event
    ++ quoted "'}}}".

(** The sandbox 1 with the chain A, whose subscription [s1] is active. *)
Definition subscribed : state (SandboxId := N) :=
  {| inner := {| queues := [(1%N, [])];
                 sent := [(1%N, ExtRpc chainA (follow_request 0))] |};
     sandboxesChains :=
       [(1%N, [(chainA, {| readySubscriptionId := Some (VStr (lit "s1"));
                           isSyncing := true;
                           peers := Some number_zero |})])];
     nextHealthCheckRqId := 1 |}.

(** How [subscribed] comes about. *)
Definition subscribing : list (op (SandboxId := N)) :=
  [OpAddSandbox 1%N;
   OpInnerGenerates 1%N (AppChainReady chainA);
   OpNextSandboxMessage 1%N;
   OpInnerGenerates 1%N (AppRpc chainA subscription_response);
   OpNextSandboxMessage 1%N].

(** The subscription of chain A is stopped. *)
Definition stopping : list (op (SandboxId := N)) :=
  subscribing
    ++ [OpInnerGenerates 1%N (AppRpc chainA (follow_event_text "s1" "stop"));
        OpNextSandboxMessage 1%N].

(** The state of an instance after [stopping]. *)
Definition stopped : state (SandboxId := N) :=
  {| inner := {| queues := [(1%N, [])];
                 sent := [(1%N, ExtRpc chainA (follow_request 0));
                          (1%N, ExtRpc chainA (follow_request 1))] |};
     sandboxesChains := [(1%N, [(chainA, new_chain)])];
     nextHealthCheckRqId := 1 |}.

(** The subscription of chain A is stopped, then chain B gets ready. *)
Definition stop_then_chain_ready : list (op (SandboxId := N)) :=
  subscribing
    ++ [OpInnerGenerates 1%N (AppRpc chainA (follow_event_text "s1" "stop"));
        OpInnerGenerates 1%N (AppChainReady chainB);
        OpNextSandboxMessage 1%N].

(** The subscription of chain A is stopped, set up again as [s2], and
    stopped again. *)
Definition stop_twice : list (op (SandboxId := N)) :=
  subscribing
    ++ [OpInnerGenerates 1%N (AppRpc chainA (follow_event_text "s1" "stop"));
        OpInnerGenerates 1%N
          (AppRpc chainA
             (quoted "{'jsonrpc':'2.0','id':'ready-sub:1','result':'s2'}"));
        OpInnerGenerates 1%N (AppRpc chainA (follow_event_text "s2" "stop"));
        OpNextSandboxMessage 1%N].

(** Two sandboxes with a chain each. *)
Definition two_sandboxes : state (SandboxId := N) :=
  {| inner := {| queues := [(1%N, []); (2%N, [])]; sent := [] |};
     sandboxesChains :=
       [(1%N, [(chainA, new_chain)]); (2%N, [(chainB, new_chain)])];
     nextHealthCheckRqId := 2 |}.

(** What goes on around the sandbox 1 after it was deleted. *)
Definition after_deletion : list (op (SandboxId := N)) :=
  [OpInnerGenerates 1%N (AppChainReady chainA);
   OpNextSandboxMessage 1%N;
   OpSandboxMessage 1%N (ExtRemoveChain chainA);
   OpTurn 1%N;
   OpResume 1%N (AppChainReady chainB);
   OpResume 1%N (AppRpc chainA subscription_response);
   OpInnerGenerates 2%N (AppChainReady chainA);
   OpNextSandboxMessage 2%N;
   OpSendPings].

(** The properties of the object [follow_event_text] denotes. *)
Definition follow_event_props (subscription event : string)
  : list (jstring * value) :=
  [(lit "jsonrpc", VStr (lit "2.0"));
   (lit "method", VStr (lit "chainHead_unstable_followEvent"));
   (lit "params",
    VObj [(lit "subscription", VStr (lit subscription));
          (lit "result", VObj [(lit "event", VStr (lit event))])])].

(** The record of chain A in [subscribed]. *)
Definition subscribed_chain : Chain :=
  {| readySubscriptionId := Some (VStr (lit "s1")); isSyncing := true;
     peers := Some number_zero |}.

(** ** JSON texts read back *)

(** The text after a JSON value inside an array or an object, or at the end
    of the text: nothing, a comma or a closing bracket. *)
Definition delimited (rest : jstring) : Prop :=
  match rest with
  | [] => True
  | c :: _ => c = 44%N \/ c = 93%N \/ c = 125%N
  end.

(** A spelling without leading zero: a single digit, or digits the first of
    which is not zero. *)
Definition no_leading_zero (ds : list N) : Prop :=
  match ds with
  | [] => False
  | [_] => True
  | d :: _ => d <> 0%N
  end.

(** The order in which the properties of an object are enumerated: a name
    that is an array index comes before a greater index and before every
    other name. *)
Definition key_before (a b : jstring) : Prop :=
  match array_index a, array_index b with
  | Some i, Some j => (i < j)%N
  | Some _, None => True
  | None, Some _ => False
  | None, None => True
  end.

(** The property lists of the objects at run time: no name twice, the array
    indices first and ascending. *)
Definition ordered (props : list (jstring * value)) : Prop :=
  NoDup (map fst props) /\ StronglySorted key_before (map fst props).

(** What [JSON.stringify] makes of a value before [JSON.parse] reads it
    again: a negative zero is printed as [0] and an infinite Number as
    [null]; everything else is printed as it is. *)
Fixpoint normalize (v : value) : value :=
  match v with
  | VNum (NZero _) => VNum (NZero false)
  | VNum (NInf _) => VNull
  | VArr items => VArr (map normalize items)
  | VObj props => VObj (map (fun kv => (fst kv, normalize (snd kv))) props)
  | _ => v
  end.

Definition normalize_props (props : list (jstring * value))
  : list (jstring * value) :=
  map (fun kv => (fst kv, normalize (snd kv))) props.

(** The values at run time: the Numbers are those of the model and the
    properties of every object are in the order of enumeration. *)
Inductive well_formed : value -> Prop :=
| wf_null : well_formed VNull
| wf_bool (b : bool) : well_formed (VBool b)
| wf_num (x : number) : number_ok x -> well_formed (VNum x)
| wf_str (s : jstring) : well_formed (VStr s)
| wf_arr (items : list value) :
    Forall well_formed items -> well_formed (VArr items)
| wf_obj (props : list (jstring * value)) :
    Forall (fun kv => well_formed (snd kv)) props -> ordered props ->
    well_formed (VObj props).

(** The text of one member of an object, as [JSON_stringify] writes it. *)
Definition member_text (kv : jstring * value) : jstring :=
  QuoteJSONString (fst kv) ++ lit ":" ++ JSON_stringify (snd kv).

(** The parser, when its fuel suffices, reads the value [v] and leaves
    [rest]. *)
Definition reads (p : parsed (value * jstring)) (v : value) (rest : jstring)
  : Prop :=
  p = OutOfFuel \/ p = Parsed (v, rest).

(** The text is one of the requests the class sends on its own account. *)
Definition internal_request (text : jstring) : Prop :=
  exists n, text = follow_request n \/ text = health_request n.

(** A message a client had injected: it is not one of the requests of the
    class. *)
Definition client_message (m : ToExtension) : Prop :=
  forall chainId text, m = ExtRpc chainId text -> ~ internal_request text.

(** ** What the operations do to the state *)

Section Effects.
Context {SandboxId : Type} `{EqKey SandboxId}.
Implicit Types (st : state (SandboxId := SandboxId)) (sandboxId : SandboxId).

(** What a turn of the loop of [nextSandboxMessage] sends: nothing, or one
    request of the class to the chain engine of the sandbox, numbered by the
    counter, which advances (the [stop] case apart). *)
Definition sends_at_most_one sandboxId st st' : Prop :=
  (sent (inner st') = sent (inner st)
   /\ nextHealthCheckRqId st' = nextHealthCheckRqId st)
  \/ (exists chainId,
        sent (inner st')
        = sent (inner st)
            ++ [(sandboxId,
                 ExtRpc chainId (follow_request (nextHealthCheckRqId st)))]
        /\ (nextHealthCheckRqId st' = js_succ (nextHealthCheckRqId st)
            \/ nextHealthCheckRqId st' = nextHealthCheckRqId st))
  \/ (exists chainId,
        sent (inner st')
        = sent (inner st)
            ++ [(sandboxId,
                 ExtRpc chainId (health_request (nextHealthCheckRqId st)))]
        /\ nextHealthCheckRqId st' = js_succ (nextHealthCheckRqId st)).

(** The records of the other sandboxes stay, and no sandbox comes or
    goes. *)
Definition touches_only sandboxId st st' : Prop :=
  map_keys (sandboxesChains st') = map_keys (sandboxesChains st)
  /\ forall s, s <> sandboxId ->
       map_get key_eqb (sandboxesChains st') s
       = map_get key_eqb (sandboxesChains st) s.

(** One message more for the inner manager: a request of the class, or a
    message of a client. *)
Inductive request_step st st' : Prop :=
| step_internal sandboxId :
    sends_at_most_one sandboxId st st' -> request_step st st'
| step_client sandboxId (m : ToExtension) :
    sent (inner st') = sent (inner st) ++ [(sandboxId, m)] ->
    nextHealthCheckRqId st' = nextHealthCheckRqId st ->
    client_message m -> request_step st st'.

Inductive request_steps : state (SandboxId := SandboxId) -> state -> Prop :=
| steps_nil st st' :
    sent (inner st') = sent (inner st) ->
    nextHealthCheckRqId st' = nextHealthCheckRqId st ->
    request_steps st st'
| steps_cons st st1 st' :
    request_step st st1 -> request_steps st1 st' -> request_steps st st'.

(** Every [system_health] request sent so far is numbered below the counter
    and every [chainHead_unstable_follow] request at most the counter. *)
Definition numbered st : Prop :=
  forall s c n,
    (In (s, ExtRpc c (health_request n)) (sent (inner st)) ->
     (n < nextHealthCheckRqId st)%N)
    /\ (In (s, ExtRpc c (follow_request n)) (sent (inner st)) ->
        (n <= nextHealthCheckRqId st)%N).

(** The sandboxes with chain records are those the inner manager knows, in
    the same order. *)
Definition synced st : Prop :=
  map_keys (sandboxesChains st) = map_keys (queues (inner st)).

(** What an operation leaves of the registry of sandboxes when it is not
    [addSandbox] or [deleteSandbox]. *)
Definition same_sandboxes st st' : Prop :=
  map_keys (queues (inner st')) = map_keys (queues (inner st))
  /\ map_keys (sandboxesChains st') = map_keys (sandboxesChains st).
End Effects.

(** A JSON value that is not an object (arrays are objects). *)
Definition is_primitive (v : value) : bool :=
  match v with
  | VArr _ | VObj _ => false
  | _ => true
  end.

(** ** The list of chains *)

Module Listing.
Section Listing.
Context {SandboxId : Type} `{EqKey SandboxId}.

(** The field [apiInfo] of interface [ChainInfo]. *)
Record ApiInfo : Type := {
  chainId : jstring;
  sandboxId : SandboxId
}.

(** Modelled from the spec: an element of [allChains] of the inner
    manager, the description of a chain without the health fields. *)
Record InnerChainInfo : Type := {
  chainName : jstring;
  apiInfo : option ApiInfo
}.

(** An element of the array the getter [allChains] returns: the two health
    fields and, spread after them, the fields of the description ([info]). *)
Record ChainInfo : Type := {
  peers : jsval;
  isSyncing : bool;
  info : InnerChainInfo
}.

(** The callback of [map] in the getter [allChains]. *)
Definition report (chainInfo : InnerChainInfo) : M ChainInfo :=
  match apiInfo chainInfo with
  | Some api =>
      bind get_sandboxesChains (fun m =>
        match map_get key_eqb m (sandboxId api) with
        | Some chains =>
            match map_get str_eqb chains (chainId api) with
            | Some (Build_Chain _ syncing p) =>
                ret {| peers := p; isSyncing := syncing; info := chainInfo |}
            | None => throw TypeError
            end
        | None => throw TypeError
        end)
  | None =>
      ret {| peers := Some number_zero; isSyncing := true; info := chainInfo |}
  end.

(** [Array.prototype.map] with a callback that may throw. *)
Fixpoint array_map {A B : Type} (f : A -> M (SandboxId := SandboxId) B)
  (l : list A) : M (SandboxId := SandboxId) (list B) :=
  match l with
  | [] => ret []
  | x :: rest =>
      bind (f x) (fun y => bind (array_map f rest) (fun ys => ret (y :: ys)))
  end.

(** The getter [allChains], on the array [this.#inner.allChains]. *)
Definition allChains (innerChains : list InnerChainInfo) : M (list ChainInfo) :=
  array_map report innerChains.
End Listing.
End Listing.

Section Order.
Context {SandboxId : Type}.

(** The [system_health] requests sent so far are numbered in ascending
    order: a later one has a greater number. *)
Definition health_ascending (st : state (SandboxId := SandboxId)) : Prop :=
  forall l1 l2 s c n s' c' n',
    sent (inner st) = l1 ++ (s, ExtRpc c (health_request n)) :: l2 ->
    In (s', ExtRpc c' (health_request n')) l2 ->
    (n < n')%N.

(** The [system_health] requests of one firing of the timer for the pairs,
    when the counter stands at [n] and does not reach 2^53. *)
Fixpoint consecutive_pings (pairs : list (SandboxId * jstring)) (n : N)
  : list (SandboxId * ToExtension) :=
  match pairs with
  | [] => []
  | (s, c) :: rest =>
      (s, ExtRpc c (health_request n)) :: consecutive_pings rest (n + 1)
  end.
End Order.

Section Reports.
Context {SandboxId : Type} `{EqKey SandboxId}.

(** What an element of [allChains] says of a chain in the state [st]: the
    health fields of the record of a chain of a sandbox, and
    [peers = 0, isSyncing = true] for a well-known chain. *)
Definition reported (st : state (SandboxId := SandboxId))
  (o : Listing.ChainInfo (SandboxId := SandboxId)) : Prop :=
  match Listing.apiInfo (Listing.info o) with
  | Some api =>
      exists chain,
        chain_record st (Listing.sandboxId api) (Listing.chainId api)
        = Some chain
        /\ Listing.peers o = peers chain
        /\ Listing.isSyncing o = isSyncing chain
  | None =>
      Listing.peers o = Some number_zero /\ Listing.isSyncing o = true
  end.

(** The description of a chain of a sandbox in [allChains] of the inner
    manager. *)
Definition api_chain (chainName : jstring) (sandboxId : SandboxId)
  (chainId : jstring) : Listing.InnerChainInfo :=
  {| Listing.chainName := chainName;
     Listing.apiInfo := Some {| Listing.chainId := chainId;
                                Listing.sandboxId := sandboxId |} |}.
End Reports.

(** The messages only the class reads: every other message is handed to
    the caller. *)
Definition is_rpc (toApplication : ToApplication) : bool :=
  match toApplication with
  | AppRpc _ _ => true
  | _ => false
  end.

Section Views.
Context {SandboxId : Type} `{EqKey SandboxId}.

(** The chain records of a sandbox and the messages the inner manager
    holds for it. *)
Definition sandbox_view (st : state (SandboxId := SandboxId))
  (sandboxId : SandboxId) (chains : list (jstring * Chain))
  (items : list ToApplication) : Prop :=
  map_get key_eqb (sandboxesChains st) sandboxId = Some chains
  /\ map_get key_eqb (queues (inner st)) sandboxId = Some items.
End Views.

(** ** More concrete data for the examples *)

(** A request of a client, and the response of the chain engine to it. *)
Definition client_request : jstring :=
  quoted "{'jsonrpc':'2.0','id':7,'method':'m','params':[1,'a']}".

Definition client_request_props : list (jstring * value) :=
  [(lit "jsonrpc", VStr (lit "2.0")); (lit "id", VNum (NFin false [7%N] 0));
   (lit "method", VStr (lit "m"));
   (lit "params", VArr [VNum (NFin false [1%N] 0); VStr (lit "a")])].

Definition client_response : jstring :=
  quoted "{'jsonrpc':'2.0','id':'extern:7','result':[-0,1e999]}".

Definition client_response_props : list (jstring * value) :=
  [(lit "jsonrpc", VStr (lit "2.0")); (lit "id", VStr (lit "extern:7"));
   (lit "result", VArr [VNum (NZero true); VNum (NInf false)])].

(** A batch of two requests. *)
Definition batch_request : jstring :=
  quoted "[{'id':1,'method':'a'}, {'id':2,'method':'b'}]".

Definition batch_items : list value :=
  [VObj [(lit "id", VNum (NFin false [1%N] 0)); (lit "method", VStr (lit "a"))];
   VObj [(lit "id", VNum (NFin false [2%N] 0)); (lit "method", VStr (lit "b"))]].

(** The response to a notification that went out under the id
    ["extern:undefined"]. *)
Definition notification_response : jstring :=
  quoted "{'jsonrpc':'2.0','id':'extern:undefined','result':null}".

(** The response to the [system_health] request [health-check:1]. *)
Definition health_response : jstring :=
  quoted "{'jsonrpc':'2.0','id':'health-check:1','result':{'isSyncing':false,'peers':7,'shouldHavePeers':true}}".

Definition health_response_props : list (jstring * value) :=
  [(lit "jsonrpc", VStr (lit "2.0")); (lit "id", VStr (lit "health-check:1"));
   (lit "result",
    VObj [(lit "isSyncing", VBool false);
          (lit "peers", VNum (NFin false [7%N] 0));
          (lit "shouldHavePeers", VBool true)])].

Definition subscription_response_props : list (jstring * value) :=
  [(lit "jsonrpc", VStr (lit "2.0")); (lit "id", VStr (lit "ready-sub:0"));
   (lit "result", VStr (lit "s1"))].

(** A client's own notification, on a subscription that is not the one of
    the class. *)
Definition foreign_event : jstring := follow_event_text "x9" "newBlock".

(** The life of chain A in the sandbox 1, as the inner manager queues it. *)
Definition chain_life : list ToApplication :=
  [AppChainReady chainA; AppRpc chainA subscription_response;
   AppRpc chainA (follow_event_text "s1" "initialized");
   AppRpc chainA health_response].

(** The sandbox 1 without chains, the inner manager holding [chain_life]
    for it. *)
Definition awaiting : state (SandboxId := N) :=
  {| inner := {| queues := [(1%N, chain_life)]; sent := [] |};
     sandboxesChains := [(1%N, [])];
     nextHealthCheckRqId := 0 |}.

(** The sandbox 1 with the chains A and B, the sandbox 2 with the chain A,
    the counter at its greatest value. *)
Definition saturated : state (SandboxId := N) :=
  {| inner := {| queues := [(1%N, []); (2%N, [])]; sent := [] |};
     sandboxesChains :=
       [(1%N, [(chainA, new_chain); (chainB, new_chain)]);
        (2%N, [(chainA, new_chain)])];
     nextHealthCheckRqId := 2 ^ 53 |}.

(** A run with a client at work: a chain gets ready and is subscribed, a
    client sends a request, a malformed text and a text made to look like
    a request of the class, and the timer fires twice. *)
Definition busy_run : list (op (SandboxId := N)) :=
  subscribing
    ++ [OpSandboxMessage 1%N (ExtRpc chainA client_request);
        OpSandboxMessage 1%N (ExtRpc chainA (lit "{jsonrpc:"));
        OpSandboxMessage 1%N (ExtRpc chainA (health_request 5));
        OpSendPings;
        OpAddSandbox 2%N;
        OpInnerGenerates 2%N (AppChainReady chainB);
        OpNextSandboxMessage 2%N;
        OpSendPings;
        OpDeleteSandbox 1%N].

(** An engine for the examples: its [JSON.stringify] serialises values
    nested up to 4500 deep. *)
#[export] Instance deep_stack : Engine :=
  {| stack_limit := 4500;
     stack_limit_own := proj1 (Nat.leb_le 2 4500) eq_refl |}.

(** The JSON text of arrays nested [n] deep, and its value. *)
Definition nested (n : nat) : jstring := repeat 91%N n ++ repeat 93%N n.

Fixpoint nested_value (n : nat) : value :=
  match n with
  | O => VNull
  | S O => VArr []
  | S n' => VArr [nested_value n']
  end.

(** A notification, a request and a batch of a client, and a response to a
    client, each nested 5000 deep. *)
Definition deep_notification : jstring :=
  quoted "{'jsonrpc':'2.0','method':'m','params':" ++ nested 5000
    ++ lit "}".

Definition deep_notification_props : list (jstring * value) :=
  [(lit "jsonrpc", VStr (lit "2.0")); (lit "method", VStr (lit "m"));
   (lit "params", nested_value 5000)].

Definition deep_request : jstring :=
  quoted "{'jsonrpc':'2.0','id':1,'method':'m','params':" ++ nested 5000
    ++ lit "}".

Definition deep_request_props : list (jstring * value) :=
  [(lit "jsonrpc", VStr (lit "2.0")); (lit "id", VNum (NFin false [1%N] 0));
   (lit "method", VStr (lit "m")); (lit "params", nested_value 5000)].

Definition deep_batch : jstring := nested 5000.

Definition deep_response : jstring :=
  quoted "{'jsonrpc':'2.0','id':'extern:1','result':" ++ nested 5000
    ++ lit "}".

Definition deep_response_props : list (jstring * value) :=
  [(lit "jsonrpc", VStr (lit "2.0")); (lit "id", VStr (lit "extern:1"));
   (lit "result", nested_value 5000)].

(** * Facts *)

Unset Implicit Arguments.

(** * Facts about strings and digits *)

Lemma str_eqb_eq (a b : jstring) : str_eqb a b = true <-> a = b.
Proof.
  revert b; induction a as [|x a IH]; intros [|y b]; simpl; split;
    try congruence; try reflexivity.
  - intros Hab. apply andb_true_iff in Hab as [Hxy Hab].
    apply N.eqb_eq in Hxy. apply IH in Hab. congruence.
  - intros Hab. injection Hab as -> ->.
    rewrite N.eqb_refl. simpl. now apply IH.
Qed.

Lemma str_eqb_refl (a : jstring) : str_eqb a a = true.
Proof. now apply str_eqb_eq. Qed.

Lemma str_eqb_neq (a b : jstring) : a <> b -> str_eqb a b = false.
Proof.
  intros Hne. destruct (str_eqb a b) eqn:E; [|reflexivity].
  apply str_eqb_eq in E. contradiction.
Qed.

Lemma startsWith_app (p s : jstring) : startsWith (p ++ s) p = true.
Proof.
  induction p as [|c p IH]; simpl; [reflexivity|].
  now rewrite N.eqb_refl.
Qed.

Lemma startsWith_inv (s p : jstring) :
  startsWith s p = true -> exists t, s = p ++ t.
Proof.
  revert s; induction p as [|c p IH]; intros s Hs; simpl in *.
  - now exists s.
  - destruct s as [|d s]; [discriminate|].
    apply andb_true_iff in Hs as [Hcd Hs]. apply N.eqb_eq in Hcd. subst d.
    destruct (IH _ Hs) as [t ->]. now exists t.
Qed.

Lemma slice_app (p s : jstring) : slice (p ++ s) (length p) = s.
Proof. unfold slice. induction p; simpl; auto. Qed.

Lemma digit_val_char (d : N) : digit_val (digit_char d) = d.
Proof. unfold digit_val, digit_char. lia. Qed.

Lemma is_digit_char (d : N) : (d < 10)%N -> is_digit (digit_char d) = true.
Proof.
  intros Hd. unfold is_digit, digit_char.
  apply andb_true_iff; split; apply N.leb_le; lia.
Qed.

Lemma span_digits_app (ds : list N) (rest : jstring) :
  digits_ok ds -> no_digit_ahead rest ->
  span_digits (map digit_char ds ++ rest) = (ds, rest).
Proof.
  intros Hds Hrest. induction Hds as [|d ds Hd _ IH]; cbn [map app span_digits].
  - destruct rest as [|c r]; [reflexivity|].
    cbn [span_digits]. cbn [no_digit_ahead] in Hrest. now rewrite Hrest.
  - rewrite (is_digit_char d Hd), IH. now rewrite digit_val_char.
Qed.

Lemma digits_value_app (a : list N) (d : N) :
  digits_value (a ++ [d]) = (10 * digits_value a + d)%N.
Proof. unfold digits_value. now rewrite fold_left_app. Qed.

Lemma fold_digits_acc (ds : list N) (acc : N) :
  fold_left (fun a d => (10 * a + d)%N) ds acc
  = (acc * 10 ^ N.of_nat (length ds) + digits_value ds)%N.
Proof.
  unfold digits_value. revert acc.
  induction ds as [|d ds IH]; intros acc.
  - simpl. lia.
  - cbn [fold_left length]. rewrite IH, (IH (10 * 0 + d)%N).
    rewrite Nat2N.inj_succ, N.pow_succ_r'. lia.
Qed.

Lemma N_digits_aux_spec (fuel : nat) (n : N) (acc : list N) :
  (n < 10 ^ N.of_nat (S fuel))%N ->
  digits_ok acc ->
  let r := N_digits_aux fuel n acc in
  digits_ok r /\ r <> []
  /\ fold_left (fun a d => (10 * a + d)%N) r 0%N
     = (n * 10 ^ N.of_nat (length acc) + digits_value acc)%N.
Proof.
  revert n acc. induction fuel as [|fuel IH]; intros n acc Hn Hacc; cbn zeta.
  - cbn [N_digits_aux]. change (10 ^ N.of_nat 1)%N with 10%N in Hn.
    repeat split.
    + constructor; assumption.
    + discriminate.
    + cbn [fold_left]. rewrite fold_digits_acc. lia.
  - cbn [N_digits_aux]. destruct (n <? 10)%N eqn:E.
    + apply N.ltb_lt in E. repeat split.
      * constructor; assumption.
      * discriminate.
      * cbn [fold_left]. rewrite fold_digits_acc. lia.
    + apply N.ltb_ge in E.
      assert (Hmod : (n mod 10 < 10)%N) by (apply N.mod_lt; lia).
      assert (Hdiv : (n / 10 < 10 ^ N.of_nat (S fuel))%N).
      { apply N.Div0.div_lt_upper_bound.
        rewrite <- N.pow_succ_r', <- Nat2N.inj_succ. exact Hn. }
      destruct (IH (n / 10)%N ((n mod 10)%N :: acc) Hdiv) as (H1 & H2 & H3).
      { constructor; assumption. }
      repeat split; [exact H1|exact H2|].
      rewrite H3. cbn [length]. rewrite Nat2N.inj_succ, N.pow_succ_r'.
      unfold digits_value at 1. cbn [fold_left]. rewrite fold_digits_acc.
      pose proof (N.div_mod n 10). lia.
Qed.

Lemma N_size_bound (n : N) : (n < 10 ^ N.of_nat (S (N.to_nat (N.size n))))%N.
Proof.
  rewrite Nat2N.inj_succ, N2Nat.id.
  apply N.lt_le_trans with (2 ^ N.size n)%N; [apply N.size_gt|].
  apply N.le_trans with (10 ^ N.size n)%N.
  - apply N.pow_le_mono_l. lia.
  - apply N.pow_le_mono_r; lia.
Qed.

Lemma N_digits_ok (n : N) : digits_ok (N_digits n).
Proof.
  unfold N_digits.
  now destruct (N_digits_aux_spec (N.to_nat (N.size n)) n [] (N_size_bound n)
                  (Forall_nil _)) as (H1 & _ & _).
Qed.

Lemma N_digits_nonempty (n : N) : N_digits n <> [].
Proof.
  unfold N_digits.
  now destruct (N_digits_aux_spec (N.to_nat (N.size n)) n [] (N_size_bound n)
                  (Forall_nil _)) as (_ & H2 & _).
Qed.

Lemma digits_value_N_digits (n : N) : digits_value (N_digits n) = n.
Proof.
  unfold N_digits, digits_value.
  destruct (N_digits_aux_spec (N.to_nat (N.size n)) n [] (N_size_bound n)
              (Forall_nil _)) as (_ & _ & H3).
  rewrite H3. cbn. lia.
Qed.

Lemma map_digit_char_inj (a b : list N) :
  map digit_char a = map digit_char b -> a = b.
Proof.
  intros Hab. apply (f_equal (map digit_val)) in Hab.
  rewrite !map_map in Hab.
  rewrite (map_ext _ (fun x => x)), (map_ext (fun x => digit_val (digit_char x)) (fun x => x)) in Hab
    by apply digit_val_char.
  now rewrite !map_id in Hab.
Qed.

Lemma N_to_string_inj (n m : N) : N_to_string n = N_to_string m -> n = m.
Proof.
  unfold N_to_string. intros Hnm. apply map_digit_char_inj in Hnm.
  rewrite <- (digits_value_N_digits n), <- (digits_value_N_digits m).
  now rewrite Hnm.
Qed.

(** * JSON.parse reads back what JSON.stringify wrote: strings *)

Lemma hex_val_char (d : N) : (d < 16)%N -> hex_val (hex_char d) = Some d.
Proof.
  intros Hd. unfold hex_val, hex_char, is_digit.
  destruct (d <? 10)%N eqn:E.
  - apply N.ltb_lt in E.
    replace (48 <=? 48 + d)%N with true by (symmetry; apply N.leb_le; lia).
    replace (48 + d <=? 57)%N with true by (symmetry; apply N.leb_le; lia).
    cbn [andb]. f_equal. lia.
  - apply N.ltb_ge in E.
    replace (87 + d <=? 57)%N with false by (symmetry; apply N.leb_gt; lia).
    rewrite andb_false_r.
    replace (97 <=? 87 + d)%N with true by (symmetry; apply N.leb_le; lia).
    replace (87 + d <=? 102)%N with true by (symmetry; apply N.leb_le; lia).
    cbn [andb]. f_equal. lia.
Qed.

Lemma nibbles_value (c : N) :
  (c < 65536)%N ->
  (4096 * (c / 4096 mod 16) + 256 * (c / 256 mod 16) + 16 * (c / 16 mod 16)
   + c mod 16 = c)%N.
Proof.
  intros Hc.
  pose proof (N.div_mod c 16 ltac:(lia)) as H0.
  pose proof (N.div_mod (c / 16) 16 ltac:(lia)) as H1.
  pose proof (N.div_mod (c / 256) 16 ltac:(lia)) as H2.
  assert (E1 : (c / 256 = c / 16 / 16)%N) by (now rewrite N.Div0.div_div).
  assert (E2 : (c / 4096 = c / 256 / 16)%N) by (now rewrite N.Div0.div_div).
  assert (Hs : (c / 4096 < 16)%N) by (apply N.Div0.div_lt_upper_bound; lia).
  rewrite (N.mod_small (c / 4096) 16) by exact Hs.
  rewrite E2. rewrite E1 in *. lia.
Qed.

Lemma parse_unicode_escape (c : N) (rest : jstring) :
  (c < 65536)%N ->
  parse_string_body (unicode_escape c ++ rest)
  = cons_fst c (parse_string_body rest).
Proof.
  intros Hc. unfold unicode_escape.
  cbn [app parse_string_body].
  change (92 =? 34)%N with false. change (92 =? 92)%N with true.
  change (117 =? 117)%N with true. cbv iota.
  rewrite !hex_val_char by (apply N.mod_lt; lia).
  now rewrite nibbles_value.
Qed.

Lemma parse_raw_unit (c : N) (rest : jstring) :
  c <> 34%N -> c <> 92%N -> (32 <= c)%N ->
  parse_string_body (c :: rest) = cons_fst c (parse_string_body rest).
Proof.
  intros H1 H2 H3. cbn [parse_string_body].
  apply N.eqb_neq in H1, H2. apply N.ltb_ge in H3.
  now rewrite H1, H2, H3.
Qed.

Lemma surrogate_bounds (c : N) :
  is_lead_surrogate c || is_trail_surrogate c = true ->
  (55296 <= c < 65536)%N.
Proof.
  unfold is_lead_surrogate, is_trail_surrogate.
  rewrite orb_true_iff, !andb_true_iff, !N.leb_le. lia.
Qed.

Lemma parse_quote_unit (c : N) (rest : jstring) :
  parse_string_body (quote_unit c ++ rest)
  = cons_fst c (parse_string_body rest).
Proof.
  unfold quote_unit.
  destruct (c =? 8)%N eqn:E8; [apply N.eqb_eq in E8; now subst|].
  destruct (c =? 9)%N eqn:E9; [apply N.eqb_eq in E9; now subst|].
  destruct (c =? 10)%N eqn:E10; [apply N.eqb_eq in E10; now subst|].
  destruct (c =? 12)%N eqn:E12; [apply N.eqb_eq in E12; now subst|].
  destruct (c =? 13)%N eqn:E13; [apply N.eqb_eq in E13; now subst|].
  destruct (c =? 34)%N eqn:E34; [apply N.eqb_eq in E34; now subst|].
  destruct (c =? 92)%N eqn:E92; [apply N.eqb_eq in E92; now subst|].
  destruct ((c <? 32)%N || is_lead_surrogate c || is_trail_surrogate c) eqn:E.
  - apply parse_unicode_escape.
    rewrite <- orb_assoc in E. apply orb_true_iff in E as [E|E].
    + apply N.ltb_lt in E. lia.
    + apply surrogate_bounds in E. lia.
  - apply orb_false_iff in E as [E _]. apply orb_false_iff in E as [E _].
    apply N.ltb_ge in E. apply N.eqb_neq in E34, E92.
    now apply parse_raw_unit.
Qed.

Lemma quote_body_cons (c d : N) (r : jstring) :
  quote_body (c :: d :: r)
  = if is_lead_surrogate c && is_trail_surrogate d
    then c :: d :: quote_body r
    else quote_unit c ++ quote_body (d :: r).
Proof. reflexivity. Qed.

Lemma parse_quote_body_bounded (n : nat) :
  forall (s rest : jstring),
    (length s <= n)%nat ->
    parse_string_body (quote_body s ++ 34%N :: rest) = Parsed (s, rest).
Proof.
  induction n as [|n IH]; intros s rest Hlen.
  - destruct s; [reflexivity|simpl in Hlen; lia].
  - destruct s as [|c [|d r]].
    + reflexivity.
    + cbn [quote_body]. rewrite parse_quote_unit. reflexivity.
    + rewrite quote_body_cons.
      destruct (is_lead_surrogate c && is_trail_surrogate d) eqn:E.
      * apply andb_true_iff in E as [Ec Ed].
        assert (Hc : (55296 <= c < 65536)%N)
          by (apply surrogate_bounds; now rewrite Ec).
        assert (Hd : (55296 <= d < 65536)%N)
          by (apply surrogate_bounds; rewrite Ed; apply orb_true_r).
        cbn [app].
        rewrite parse_raw_unit by lia. rewrite parse_raw_unit by lia.
        rewrite (IH r rest) by (simpl in Hlen; lia). reflexivity.
      * rewrite <- app_assoc, parse_quote_unit.
        rewrite IH by (simpl in Hlen |- *; lia). reflexivity.
Qed.

Lemma parse_quote_body (s rest : jstring) :
  parse_string_body (quote_body s ++ 34%N :: rest) = Parsed (s, rest).
Proof. now apply parse_quote_body_bounded with (n := length s). Qed.

Lemma skip_ws_no_ws (c : N) (r : jstring) :
  is_ws c = false -> skip_ws (c :: r) = c :: r.
Proof. intros Hc. cbn [skip_ws]. now rewrite Hc. Qed.


(** * JSON.parse reads back what JSON.stringify wrote: numbers *)

Lemma strip_zeros_nonzero (d : N) (r : list N) :
  d <> 0%N -> strip_zeros (d :: r) = d :: r.
Proof. intros Hd. cbn [strip_zeros]. apply N.eqb_neq in Hd. now rewrite Hd. Qed.

Lemma strip_zeros_nzeros (m : nat) (l : list N) :
  strip_zeros (nzeros m ++ l) = strip_zeros l.
Proof. induction m as [|m IH]; [reflexivity|exact IH]. Qed.

Lemma nzeros_snoc (m : nat) : nzeros m ++ [0%N] = 0%N :: nzeros m.
Proof. induction m as [|m IH]; [reflexivity|]. cbn [nzeros app]. now rewrite IH. Qed.

Lemma rev_nzeros (m : nat) : rev (nzeros m) = nzeros m.
Proof.
  induction m as [|m IH]; [reflexivity|].
  cbn [nzeros rev]. rewrite IH. apply nzeros_snoc.
Qed.

Lemma length_nzeros (m : nat) : length (nzeros m) = m.
Proof. induction m; simpl; congruence. Qed.

Lemma digits_ok_nzeros (m : nat) : digits_ok (nzeros m).
Proof. induction m; constructor; [lia|assumption]. Qed.

Lemma canonicalb_digits_ok (ds : list N) : canonicalb ds = true -> digits_ok ds.
Proof.
  unfold canonicalb. rewrite !andb_true_iff. intros [[Hall _] _].
  apply Forall_forall. intros d Hd.
  rewrite forallb_forall in Hall. apply N.ltb_lt. now apply Hall.
Qed.

Lemma canonicalb_head (ds : list N) :
  canonicalb ds = true -> exists d r, ds = d :: r /\ d <> 0%N.
Proof.
  unfold canonicalb. rewrite !andb_true_iff. intros [[_ Hhd] _].
  destruct ds as [|d r]; [discriminate|].
  exists d, r. split; [reflexivity|].
  cbn [hd] in Hhd. apply negb_true_iff in Hhd. now apply N.eqb_neq.
Qed.

Lemma canonicalb_last (ds : list N) :
  canonicalb ds = true -> exists d r, rev ds = d :: r /\ d <> 0%N.
Proof.
  intros Hc. destruct (canonicalb_head ds Hc) as (d0 & r0 & Hds & _).
  unfold canonicalb in Hc. rewrite !andb_true_iff in Hc. destruct Hc as [_ Hl].
  apply negb_true_iff, N.eqb_neq in Hl.
  assert (Hne : ds <> []) by (rewrite Hds; discriminate).
  exists (last ds 0%N), (rev (removelast ds)). split; [|exact Hl].
  rewrite (app_removelast_last 0%N Hne) at 1.
  now rewrite rev_app_distr.
Qed.

(** Leading and trailing zeros around canonical digits are stripped, and
    the trailing ones are counted into the exponent. *)
Lemma number_of_literal_canonical (neg : bool) (ip fp ds : list N) (ex : Z)
  (a b : nat) :
  canonicalb ds = true ->
  ip ++ fp = nzeros a ++ ds ++ nzeros b ->
  number_of_literal neg ip fp ex
  = classify_number neg ds (ex - Z.of_nat (length fp) + Z.of_nat b).
Proof.
  intros Hc Hsplit. unfold number_of_literal. rewrite Hsplit.
  rewrite strip_zeros_nzeros.
  destruct (canonicalb_head ds Hc) as (d & r & Hds & Hd).
  destruct (canonicalb_last ds Hc) as (d' & r' & Hrev & Hd').
  assert (Hback : rev (strip_zeros (rev (ds ++ nzeros b))) = ds).
  { rewrite rev_app_distr, rev_nzeros, strip_zeros_nzeros, Hrev.
    rewrite strip_zeros_nonzero by exact Hd'.
    rewrite <- Hrev. apply rev_involutive. }
  assert (Hlen : (length (ds ++ nzeros b) - length ds)%nat = b)
    by (rewrite length_app, length_nzeros; lia).
  subst ds. cbn [app] in *.
  rewrite strip_zeros_nonzero by exact Hd.
  cbv zeta. rewrite Hback, Hlen. reflexivity.
Qed.

Lemma parse_int_part_digits (d : N) (r : list N) (rest : jstring) :
  d <> 0%N -> digits_ok (d :: r) -> no_digit_ahead rest ->
  parse_int_part (map digit_char (d :: r) ++ rest) = Parsed (d :: r, rest).
Proof.
  intros Hd Hok Hrest. inversion Hok as [|? ? Hd10 Hr]; subst.
  cbn [map app parse_int_part].
  replace (digit_char d =? 48)%N with false
    by (symmetry; apply N.eqb_neq; unfold digit_char; lia).
  rewrite (is_digit_char d Hd10), (span_digits_app r rest Hr Hrest).
  now rewrite digit_val_char.
Qed.

Lemma parse_frac_digits (fp : list N) (rest : jstring) :
  fp <> [] -> digits_ok fp -> no_digit_ahead rest ->
  parse_frac (46%N :: map digit_char fp ++ rest) = Parsed (fp, rest).
Proof.
  intros Hne Hok Hrest. cbn [parse_frac]. change (46 =? 46)%N with true.
  cbv iota. rewrite (span_digits_app fp rest Hok Hrest).
  destruct fp; [contradiction|reflexivity].
Qed.

Lemma parse_exp_signed (minus : bool) (m : N) :
  parse_exp (101%N :: (if minus then [45%N] else [43%N]) ++ N_to_string m)
  = Parsed ((if minus then - Z.of_N m else Z.of_N m)%Z, []).
Proof.
  cbn [parse_exp]. change (101 =? 101)%N with true. cbn [orb].
  unfold N_to_string.
  pose proof (span_digits_app (N_digits m) [] (N_digits_ok m) I) as Hspan.
  rewrite app_nil_r in Hspan.
  pose proof (N_digits_nonempty m) as Hne.
  destruct minus; cbn [app];
    [ change (45 =? 43)%N with false; change (45 =? 45)%N with true
    | change (43 =? 43)%N with true ];
    cbv iota; unfold parse_exp_digits; rewrite Hspan;
    (destruct (N_digits m) as [|x xs] eqn:E; [contradiction|]);
    rewrite <- E; cbv zeta; rewrite digits_value_N_digits; reflexivity.
Qed.

Lemma map_digit_char_nzeros_app (ds : list N) (b : nat) :
  map digit_char ds ++ map digit_char (nzeros b) = map digit_char (ds ++ nzeros b).
Proof. now rewrite map_app. Qed.

(** The decimal that [Number::toString] prints is read back as the same
    Number. *)
Lemma parse_unsigned_toString (neg : bool) (ds : list N) (e : Z) :
  canonicalb ds = true ->
  classify_number neg ds e = Parsed (NFin neg ds e) ->
  parse_unsigned neg (positive_to_string ds e) = Parsed (NFin neg ds e, []).
Proof.
  intros Hc Hcl.
  pose proof (canonicalb_digits_ok ds Hc) as Hok.
  destruct (canonicalb_head ds Hc) as (d & r & Hds & Hd).
  assert (Hk : (1 <= Z.of_nat (length ds))%Z) by (rewrite Hds; cbn [length]; lia).
  unfold positive_to_string. cbv zeta.
  set (k := Z.of_nat (length ds)) in *.
  set (n := (k + e)%Z).
  change (lit ".") with [46%N]. change (lit "0.") with [48%N; 46%N].
  change (lit "e") with [101%N]. change (lit "+") with [43%N].
  change (lit "-") with [45%N].
  destruct ((k <=? n)%Z && (n <=? 21)%Z) eqn:C1.
  { (* digits followed by zeros *)
    apply andb_true_iff in C1 as [C1 _]. apply Z.leb_le in C1.
    rewrite map_digit_char_nzeros_app.
    unfold parse_unsigned.
    rewrite <- (app_nil_r (map digit_char _)).
    rewrite Hds at 1. cbn [app].
    rewrite parse_int_part_digits; [|exact Hd| |exact I].
    2:{ change (d :: r ++ nzeros (Z.to_nat (n - k)))
          with ((d :: r) ++ nzeros (Z.to_nat (n - k))).
        rewrite <- Hds. apply Forall_app. split; [exact Hok|apply digits_ok_nzeros]. }
    cbn [parse_frac parse_exp].
    rewrite (number_of_literal_canonical neg _ [] ds 0 0 (Z.to_nat (n - k)) Hc)
      by (rewrite app_nil_r, Hds; reflexivity).
    replace (0 - Z.of_nat (length (@nil N)) + Z.of_nat (Z.to_nat (n - k)))%Z
      with e by (cbn [length]; lia).
    now rewrite Hcl. }
  destruct ((0 <? n)%Z && (n <=? 21)%Z) eqn:C2.
  { (* a decimal point inside the digits *)
    apply andb_true_iff in C2 as [C2 C2']. apply Z.ltb_lt in C2.
    apply Z.leb_le in C2'.
    assert (Hnk : (n < k)%Z).
    { apply andb_false_iff in C1 as [C1|C1];
        [apply Z.leb_gt in C1; lia|apply Z.leb_gt in C1; lia]. }
    rewrite firstn_map, skipn_map.
    assert (Hlen : (Z.to_nat n < length ds)%nat) by lia.
    destruct (firstn (Z.to_nat n) ds) as [|d1 r1] eqn:Ef.
    { apply (f_equal (@length N)) in Ef. rewrite length_firstn in Ef.
      cbn [length] in Ef. lia. }
    assert (Hd1 : d1 = d).
    { rewrite Hds in Ef. destruct (Z.to_nat n) eqn:En; [lia|].
      cbn [firstn] in Ef. congruence. }
    subst d1.
    assert (Hsk : skipn (Z.to_nat n) ds <> []).
    { intros Hs. apply (f_equal (@length N)) in Hs. rewrite length_skipn in Hs.
      cbn [length] in Hs. lia. }
    assert (Hboth : digits_ok (d :: r1) /\ digits_ok (skipn (Z.to_nat n) ds)).
    { rewrite <- Ef. apply Forall_app. now rewrite firstn_skipn. }
    destruct Hboth as [Hokf Hoks].
    unfold parse_unsigned.
    rewrite parse_int_part_digits; [|exact Hd|exact Hokf|reflexivity].
    rewrite <- (app_nil_r (map digit_char (skipn _ _))).
    change ([46%N] ++ map digit_char (skipn (Z.to_nat n) ds) ++ [])
      with (46%N :: map digit_char (skipn (Z.to_nat n) ds) ++ []).
    rewrite parse_frac_digits; [|exact Hsk|exact Hoks|exact I].
    cbn [parse_exp].
    rewrite (number_of_literal_canonical neg _ _ ds 0 0 0 Hc)
      by (rewrite <- Ef, firstn_skipn, app_nil_r; reflexivity).
    replace (0 - Z.of_nat (length (skipn (Z.to_nat n) ds)) + Z.of_nat 0)%Z
      with e by (rewrite length_skipn; lia).
    now rewrite Hcl. }
  destruct ((-6 <? n)%Z && (n <=? 0)%Z) eqn:C3.
  { (* zero, point, zeros and the digits *)
    apply andb_true_iff in C3 as [_ C3]. apply Z.leb_le in C3.
    unfold parse_unsigned. cbn [app parse_int_part].
    change (48 =? 48)%N with true. cbv iota.
    rewrite <- map_app.
    rewrite <- (app_nil_r (map digit_char _)).
    rewrite parse_frac_digits; [| | |exact I].
    2:{ rewrite Hds. destruct (nzeros (Z.to_nat (- n))); discriminate. }
    2:{ apply Forall_app. split; [apply digits_ok_nzeros|exact Hok]. }
    cbn [parse_exp].
    rewrite (number_of_literal_canonical neg _ _ ds 0 (S (Z.to_nat (- n))) 0 Hc)
      by (rewrite app_nil_r; reflexivity).
    replace (0 - Z.of_nat (length (nzeros (Z.to_nat (- n)) ++ ds)) + Z.of_nat 0)%Z
      with e by (rewrite length_app, length_nzeros; lia).
    now rewrite Hcl. }
  (* exponential notation *)
  set (minus := negb (0 <=? n - 1)%Z).
  assert (Hsign : (if (0 <=? n - 1)%Z then [43%N] else [45%N])
                  = (if minus then [45%N] else [43%N])).
  { unfold minus. now destruct (0 <=? n - 1)%Z. }
  rewrite Hsign.
  assert (Hex : (if minus then - Z.of_N (Z.abs_N (n - 1))
                 else Z.of_N (Z.abs_N (n - 1)))%Z = (n - 1)%Z).
  { unfold minus. destruct (0 <=? n - 1)%Z eqn:E0; cbn [negb].
    - apply Z.leb_le in E0. rewrite N2Z.inj_abs_N. lia.
    - apply Z.leb_gt in E0. rewrite N2Z.inj_abs_N. lia. }
  rewrite Hds. cbn [map]. inversion Hok as [|? ? Hd10 Hr]; [congruence|].
  assert (x = d /\ l = r) as [-> ->] by (split; congruence).
  unfold parse_unsigned.
  destruct r as [|d2 r2].
  - (* one digit *)
    cbn [map].
    change (digit_char d :: [101%N] ++ (if minus then [45%N] else [43%N])
              ++ N_to_string (Z.abs_N (n - 1)))
      with (map digit_char [d] ++ 101%N :: (if minus then [45%N] else [43%N])
              ++ N_to_string (Z.abs_N (n - 1))).
    rewrite parse_int_part_digits; [|exact Hd| |reflexivity].
    2:{ constructor; [exact Hd10|constructor]. }
    cbn [parse_frac]. change (101 =? 46)%N with false. cbv iota.
    rewrite parse_exp_signed, Hex.
    rewrite (number_of_literal_canonical neg [d] [] ds (n - 1) 0 0 Hc)
      by (rewrite Hds; reflexivity).
    replace (n - 1 - Z.of_nat (length (@nil N)) + Z.of_nat 0)%Z with e
      by (subst n k; rewrite Hds; cbn [length]; lia).
    rewrite Hcl, Hds. reflexivity.
  - (* a point after the first digit *)
    cbn [map].
    change (parse_int_part _)
      with (parse_int_part
              (map digit_char [d] ++ 46%N :: map digit_char (d2 :: r2)
                 ++ 101%N :: (if minus then [45%N] else [43%N])
                 ++ N_to_string (Z.abs_N (n - 1)))).
    rewrite parse_int_part_digits; [|exact Hd| |reflexivity].
    2:{ constructor; [exact Hd10|constructor]. }
    rewrite parse_frac_digits; [|discriminate|exact Hr|reflexivity].
    rewrite parse_exp_signed, Hex.
    rewrite (number_of_literal_canonical neg [d] (d2 :: r2) ds (n - 1) 0 0 Hc)
      by (rewrite Hds, app_nil_r; reflexivity).
    replace (n - 1 - Z.of_nat (length (d2 :: r2)) + Z.of_nat 0)%Z with e
      by (subst n k; rewrite Hds; cbn [length]; lia).
    rewrite Hcl, Hds. reflexivity.
Qed.

(** * The parser: consumed text *)

Lemma skip_ws_length (s : jstring) : (length (skip_ws s) <= length s)%nat.
Proof.
  induction s as [|c r IH]; cbn [skip_ws]; [lia|].
  destruct (is_ws c); cbn [length]; lia.
Qed.

Lemma skip_ws_cons_length (s r : jstring) (c : N) :
  skip_ws s = c :: r -> (length r < length s)%nat.
Proof.
  intros Hs. pose proof (skip_ws_length s) as Hl. rewrite Hs in Hl.
  cbn [length] in Hl. lia.
Qed.

Lemma cons_fst_parsed (c : N) (p : parsed (jstring * jstring)) (s rest : jstring) :
  cons_fst c p = Parsed (s, rest) ->
  exists s', p = Parsed (s', rest) /\ s = c :: s'.
Proof.
  destruct p as [[s' rest']| | |]; cbn; try discriminate.
  intros Heq. injection Heq as <- <-. now exists s'.
Qed.

Lemma parse_string_body_length_bounded (n : nat) :
  forall (s str rest : jstring),
    (length s <= n)%nat ->
    parse_string_body s = Parsed (str, rest) -> (length rest < length s)%nat.
Proof.
  induction n as [|n IH]; intros s str rest Hn Hp.
  - destruct s; [discriminate|cbn [length] in Hn; lia].
  - destruct s as [|c r]; [discriminate|].
    cbn [parse_string_body] in Hp. cbn [length] in *.
    destruct (c =? 34)%N.
    { injection Hp as _ <-. lia. }
    destruct (c =? 92)%N.
    { destruct r as [|e r1]; [discriminate|].
      destruct (e =? 117)%N.
      - destruct r1 as [|h1 [|h2 [|h3 [|h4 r2]]]]; try discriminate.
        destruct (hex_val h1), (hex_val h2), (hex_val h3), (hex_val h4);
          try discriminate.
        apply cons_fst_parsed in Hp as (s' & Hp & _).
        apply IH in Hp; cbn [length] in *; lia.
      - destruct (escape_char e); [|discriminate].
        apply cons_fst_parsed in Hp as (s' & Hp & _).
        apply IH in Hp; cbn [length] in *; lia. }
    destruct (c <? 32)%N; [discriminate|].
    apply cons_fst_parsed in Hp as (s' & Hp & _).
    apply IH in Hp; lia.
Qed.

Lemma parse_string_body_length (s str rest : jstring) :
  parse_string_body s = Parsed (str, rest) -> (length rest < length s)%nat.
Proof. now apply parse_string_body_length_bounded with (n := length s). Qed.

Lemma is_digit_val (c : N) : is_digit c = true -> (digit_val c < 10)%N.
Proof.
  unfold is_digit, digit_val. rewrite andb_true_iff, !N.leb_le. lia.
Qed.

Lemma span_digits_spec (s : jstring) :
  (length (snd (span_digits s)) <= length s)%nat
  /\ digits_ok (fst (span_digits s)).
Proof.
  induction s as [|c r [IH1 IH2]]; cbn [span_digits].
  - split; [cbn; lia|constructor].
  - destruct (is_digit c) eqn:Ec.
    + destruct (span_digits r) as [ds rest]. cbn [fst snd length] in *.
      split; [lia|]. constructor; [now apply is_digit_val|exact IH2].
    + cbn [fst snd]. split; [lia|constructor].
Qed.

Lemma parse_int_part_spec (s : jstring) (ip : list N) (rest : jstring) :
  parse_int_part s = Parsed (ip, rest) ->
  (length rest < length s)%nat /\ digits_ok ip.
Proof.
  destruct s as [|c r]; cbn [parse_int_part]; [discriminate|].
  destruct (c =? 48)%N.
  { intros Heq. injection Heq as <- <-. cbn [length]. split; [lia|].
    constructor; [lia|constructor]. }
  destruct (is_digit c) eqn:Ec; [|discriminate].
  pose proof (span_digits_spec r) as [H1 H2].
  destruct (span_digits r) as [ds rest']. cbn [fst snd] in *.
  intros Heq. injection Heq as <- <-. cbn [length]. split; [lia|].
  constructor; [now apply is_digit_val|exact H2].
Qed.

Lemma parse_frac_spec (s : jstring) (fp : list N) (rest : jstring) :
  parse_frac s = Parsed (fp, rest) ->
  (length rest <= length s)%nat /\ digits_ok fp.
Proof.
  destruct s as [|c r]; cbn [parse_frac].
  { intros Heq. injection Heq as <- <-. split; [lia|constructor]. }
  destruct (c =? 46)%N.
  - pose proof (span_digits_spec r) as [H1 H2].
    destruct (span_digits r) as [[|d ds] rest']; [discriminate|].
    cbn [fst snd] in *. intros Heq. injection Heq as <- <-.
    cbn [length]. split; [lia|exact H2].
  - intros Heq. injection Heq as <- <-. split; [lia|constructor].
Qed.

Lemma parse_exp_digits_length (minus : bool) (s : jstring) (ex : Z)
  (rest : jstring) :
  parse_exp_digits minus s = Parsed (ex, rest) -> (length rest <= length s)%nat.
Proof.
  unfold parse_exp_digits. pose proof (span_digits_spec s) as [H1 _].
  destruct (span_digits s) as [[|x xs] rest0]; [discriminate|].
  cbn [snd] in H1. intros Heq. injection Heq as _ <-. exact H1.
Qed.

Lemma parse_exp_length (s : jstring) (ex : Z) (rest : jstring) :
  parse_exp s = Parsed (ex, rest) -> (length rest <= length s)%nat.
Proof.
  destruct s as [|c r]; cbn [parse_exp].
  { intros Heq. injection Heq as _ <-. lia. }
  destruct ((c =? 101)%N || (c =? 69)%N).
  - destruct r as [|d r']; [discriminate|].
    destruct (d =? 43)%N; [|destruct (d =? 45)%N];
      intros Hp; apply parse_exp_digits_length in Hp; cbn [length] in *; lia.
  - intros Heq. injection Heq as _ <-. lia.
Qed.

(** * The parser: only Numbers of the model *)

Lemma strip_zeros_head (l : list N) (d : N) (r : list N) :
  strip_zeros l = d :: r -> d <> 0%N.
Proof.
  induction l as [|x l IH]; cbn [strip_zeros]; [discriminate|].
  destruct (x =? 0)%N eqn:E; [exact IH|].
  intros Heq. injection Heq as <- _. now apply N.eqb_neq.
Qed.

Lemma strip_zeros_ok (l : list N) : digits_ok l -> digits_ok (strip_zeros l).
Proof.
  intros Hl. induction Hl as [|x l Hx Hl IH]; cbn [strip_zeros]; [constructor|].
  destruct (x =? 0)%N; [exact IH|now constructor].
Qed.

Lemma strip_zeros_snoc (l : list N) (d : N) :
  d <> 0%N -> exists m, strip_zeros (l ++ [d]) = m ++ [d].
Proof.
  intros Hd. induction l as [|x l [m IH]]; cbn [app strip_zeros].
  - apply N.eqb_neq in Hd. rewrite Hd. now exists [].
  - destruct (x =? 0)%N; [now exists m|now exists (x :: l)].
Qed.

Lemma digits_ok_forallb (l : list N) :
  digits_ok l -> forallb (fun d => (d <? 10)%N) l = true.
Proof.
  intros Hl. apply forallb_forall. intros x Hx. apply N.ltb_lt.
  revert x Hx. now apply Forall_forall.
Qed.

Lemma canonicalb_stripped (l : list N) (d : N) (r : list N) :
  digits_ok l -> strip_zeros l = d :: r ->
  canonicalb (rev (strip_zeros (rev (d :: r)))) = true.
Proof.
  intros Hl Hs.
  pose proof (strip_zeros_head l d r Hs) as Hd.
  assert (Hok : digits_ok (d :: r)) by (rewrite <- Hs; now apply strip_zeros_ok).
  cbn [rev].
  destruct (strip_zeros_snoc (rev r) d Hd) as [m Hm].
  assert (Hokm : digits_ok (strip_zeros (rev r ++ [d]))).
  { apply strip_zeros_ok. change (rev r ++ [d]) with (rev (d :: r)).
    unfold digits_ok. now apply Forall_rev. }
  destruct (strip_zeros (rev r ++ [d])) as [|x m'] eqn:E.
  { destruct m; discriminate. }
  pose proof (strip_zeros_head _ _ _ E) as Hx.
  unfold canonicalb. rewrite !andb_true_iff. repeat split.
  - apply digits_ok_forallb. unfold digits_ok. now apply Forall_rev.
  - rewrite Hm, rev_app_distr. cbn [rev app hd].
    apply negb_true_iff. now apply N.eqb_neq.
  - cbn [rev]. rewrite last_last. apply negb_true_iff. now apply N.eqb_neq.
Qed.

Lemma classify_number_ok (neg : bool) (ds : list N) (e : Z) (x : number) :
  canonicalb ds = true -> classify_number neg ds e = Parsed x -> number_ok x.
Proof.
  intros Hc Hx. pose proof Hx as Hx'. unfold classify_number in Hx'.
  cbv zeta in Hx'.
  repeat match type of Hx' with
         | (if ?b then _ else _) = _ => destruct b
         end;
    try discriminate; injection Hx' as <-; cbn [number_ok]; auto.
Qed.

Lemma number_of_literal_ok (neg : bool) (ip fp : list N) (ex : Z) (x : number) :
  digits_ok ip -> digits_ok fp ->
  number_of_literal neg ip fp ex = Parsed x -> number_ok x.
Proof.
  intros Hip Hfp. unfold number_of_literal.
  assert (Hok : digits_ok (ip ++ fp)) by (apply Forall_app; now split).
  destruct (strip_zeros (ip ++ fp)) as [|d r] eqn:E.
  - intros Heq. injection Heq as <-. exact I.
  - cbv zeta. apply classify_number_ok.
    exact (canonicalb_stripped (ip ++ fp) d r Hok E).
Qed.

Lemma parse_unsigned_spec (neg : bool) (s : jstring) (x : number)
  (rest : jstring) :
  parse_unsigned neg s = Parsed (x, rest) ->
  (length rest < length s)%nat /\ number_ok x.
Proof.
  unfold parse_unsigned.
  destruct (parse_int_part s) as [[ip s2]| | |] eqn:E1; try discriminate.
  destruct (parse_frac s2) as [[fp s3]| | |] eqn:E2; try discriminate.
  destruct (parse_exp s3) as [[ex s4]| | |] eqn:E3; try discriminate.
  destruct (number_of_literal neg ip fp ex) as [y| | |] eqn:E4;
    try discriminate.
  cbn [parsed_map]. intros Heq. injection Heq as <- <-.
  apply parse_int_part_spec in E1 as [L1 O1].
  apply parse_frac_spec in E2 as [L2 O2].
  apply parse_exp_length in E3.
  split; [lia|]. exact (number_of_literal_ok neg ip fp ex y O1 O2 E4).
Qed.

Lemma parse_number_spec (s : jstring) (x : number) (rest : jstring) :
  parse_number s = Parsed (x, rest) ->
  (length rest < length s)%nat /\ number_ok x.
Proof.
  unfold parse_number. destruct s as [|c r].
  - intros Hp. apply parse_unsigned_spec in Hp. cbn [length] in Hp. lia.
  - destruct (c =? 45)%N; intros Hp; apply parse_unsigned_spec in Hp;
      cbn [length] in *; split; try tauto; lia.
Qed.

(** * Objects *)

Lemma obj_replace_ok (props : list (jstring * value)) (k : jstring) (v : value) :
  props_ok props -> value_ok v -> props_ok (obj_replace props k v).
Proof.
  intros Hp Hv. induction Hp as [|[k' v'] props Hkv Hp IH];
    cbn [obj_replace]; [constructor|].
  destruct (str_eqb k' k); constructor; auto.
Qed.

Lemma obj_insert_index_ok (props : list (jstring * value)) (i : N)
  (k : jstring) (v : value) :
  props_ok props -> value_ok v -> props_ok (obj_insert_index props i k v).
Proof.
  intros Hp Hv. induction Hp as [|[k' v'] props Hkv Hp IH];
    cbn [obj_insert_index].
  - constructor; [exact Hv|constructor].
  - destruct (array_index k') as [j|].
    + destruct (j <? i)%N; repeat constructor; auto.
    + repeat constructor; auto.
Qed.

Lemma obj_set_ok (props : list (jstring * value)) (k : jstring) (v : value) :
  props_ok props -> value_ok v -> props_ok (obj_set props k v).
Proof.
  intros Hp Hv. unfold obj_set.
  destruct (obj_get props k).
  - now apply obj_replace_ok.
  - destruct (array_index k).
    + now apply obj_insert_index_ok.
    + apply Forall_app. split; [exact Hp|]. constructor; [exact Hv|constructor].
Qed.


(** * The parser as a whole *)

Lemma cons_fst_fuel (c : N) (p : parsed (jstring * jstring)) :
  cons_fst c p = OutOfFuel -> p = OutOfFuel.
Proof. destruct p as [[? ?]| | |]; cbn; congruence. Qed.

Lemma parse_string_body_fuel_bounded (n : nat) :
  forall s : jstring, (length s <= n)%nat -> parse_string_body s <> OutOfFuel.
Proof.
  induction n as [|n IH]; intros s Hn.
  - destruct s; [discriminate|cbn [length] in Hn; lia].
  - destruct s as [|c r]; [discriminate|].
    cbn [parse_string_body]. cbn [length] in Hn.
    destruct (c =? 34)%N; [discriminate|].
    destruct (c =? 92)%N.
    { destruct r as [|e r1]; [discriminate|].
      destruct (e =? 117)%N.
      - destruct r1 as [|h1 [|h2 [|h3 [|h4 r2]]]]; try discriminate.
        destruct (hex_val h1), (hex_val h2), (hex_val h3), (hex_val h4);
          try discriminate.
        intros Hp. apply cons_fst_fuel in Hp. revert Hp. apply IH.
        cbn [length] in *. lia.
      - destruct (escape_char e); [|discriminate].
        intros Hp. apply cons_fst_fuel in Hp. revert Hp. apply IH.
        cbn [length] in *. lia. }
    destruct (c <? 32)%N; [discriminate|].
    intros Hp. apply cons_fst_fuel in Hp. revert Hp. apply IH. lia.
Qed.

Lemma parse_string_body_fuel (s : jstring) : parse_string_body s <> OutOfFuel.
Proof. now apply parse_string_body_fuel_bounded with (n := length s). Qed.

Lemma classify_number_fuel (neg : bool) (ds : list N) (e : Z) :
  classify_number neg ds e <> OutOfFuel.
Proof.
  unfold classify_number. cbv zeta.
  repeat match goal with
         | |- (if ?b then _ else _) <> _ => destruct b
         end; discriminate.
Qed.

Lemma parse_unsigned_fuel (neg : bool) (s : jstring) :
  parse_unsigned neg s <> OutOfFuel.
Proof.
  unfold parse_unsigned.
  destruct (parse_int_part s) as [[ip s2]| | |] eqn:E1; try discriminate.
  2:{ destruct s as [|c r]; cbn [parse_int_part] in E1; [discriminate|].
      destruct (c =? 48)%N; [discriminate|].
      destruct (is_digit c); [|discriminate].
      destruct (span_digits r); discriminate. }
  destruct (parse_frac s2) as [[fp s3]| | |] eqn:E2; try discriminate.
  2:{ destruct s2 as [|c r]; cbn [parse_frac] in E2; [discriminate|].
      destruct (c =? 46)%N; [|discriminate].
      destruct (span_digits r) as [[|? ?] ?]; discriminate. }
  destruct (parse_exp s3) as [[ex s4]| | |] eqn:E3; try discriminate.
  2:{ destruct s3 as [|c r]; cbn [parse_exp] in E3; [discriminate|].
      destruct ((c =? 101)%N || (c =? 69)%N); [|discriminate].
      unfold parse_exp_digits in E3.
      destruct r as [|d r']; [discriminate|].
      destruct (d =? 43)%N; [|destruct (d =? 45)%N];
        match type of E3 with
        | context [span_digits ?t] => destruct (span_digits t) as [[|? ?] ?]
        end; discriminate. }
  unfold number_of_literal.
  destruct (strip_zeros (ip ++ fp)) as [|d r]; [discriminate|].
  cbv zeta.
  match goal with
  | |- parsed_map _ (classify_number ?n ?d ?e) <> _ =>
      pose proof (classify_number_fuel n d e) as Hc;
      destruct (classify_number n d e); try discriminate; congruence
  end.
Qed.

Lemma parse_number_fuel (s : jstring) : parse_number s <> OutOfFuel.
Proof.
  unfold parse_number. destruct s as [|c r]; [apply parse_unsigned_fuel|].
  destruct (c =? 45)%N; apply parse_unsigned_fuel.
Qed.

Lemma parser_spec (fuel : nat) :
  (forall s, parser_post s fuel (2 * length s) (parse_value fuel s))
  /\ (forall s acc, Forall value_ok acc ->
        parser_post s fuel (2 * length s + 1) (parse_elements fuel s acc))
  /\ (forall s acc, props_ok acc ->
        parser_post s fuel (2 * length s + 1) (parse_members fuel s acc)).
Proof.
  induction fuel as [|fuel (IHv & IHe & IHm)].
  { repeat split; intros; cbn; lia. }
  repeat split.
  - (* parse_value *)
    intros s. cbn [parse_value].
    destruct (skip_ws s) as [|c r] eqn:Es; [exact I|].
    pose proof (skip_ws_cons_length s r c Es) as Hr.
    pose proof (skip_ws_length s) as Hs. rewrite Es in Hs. cbn [length] in Hs.
    destruct (c =? 123)%N.
    { destruct (skip_ws r) as [|d r'] eqn:Er; [exact I|].
      pose proof (skip_ws_length r) as Hr'. rewrite Er in Hr'.
      destruct (d =? 125)%N.
      - cbn [parser_post length] in *. split; [lia|]. constructor. constructor.
      - pose proof (IHm (d :: r') [] (Forall_nil _)) as Hm.
        destruct (parse_members fuel (d :: r') []) as [[v rest]| | |];
          cbn [parser_post] in *; try exact I; [split; [lia|tauto]|lia]. }
    destruct (c =? 91)%N.
    { destruct (skip_ws r) as [|d r'] eqn:Er; [exact I|].
      pose proof (skip_ws_length r) as Hr'. rewrite Er in Hr'.
      destruct (d =? 93)%N.
      - cbn [parser_post length] in *. split; [lia|]. constructor. constructor.
      - pose proof (IHe (d :: r') [] (Forall_nil _)) as He.
        destruct (parse_elements fuel (d :: r') []) as [[v rest]| | |];
          cbn [parser_post] in *; try exact I; [split; [lia|tauto]|lia]. }
    destruct (c =? 34)%N.
    { pose proof (parse_string_body_fuel r) as Hf.
      destruct (parse_string_body r) as [[str rest]| | |] eqn:Eb;
        cbn; try exact I; [|congruence].
      apply parse_string_body_length in Eb. split; [lia|constructor]. }
    destruct ((c =? 45)%N || is_digit c).
    { pose proof (parse_number_fuel (c :: r)) as Hf.
      destruct (parse_number (c :: r)) as [[x rest]| | |] eqn:En;
        cbn; try exact I; [|congruence].
      apply parse_number_spec in En as [En Hx]. cbn [length] in En.
      split; [lia|now constructor]. }
    destruct (startsWith (c :: r) (lit "true")).
    { cbn [parser_post]. rewrite length_skipn. cbn [length].
      split; [lia|constructor]. }
    destruct (startsWith (c :: r) (lit "false")).
    { cbn [parser_post]. rewrite length_skipn. cbn [length].
      split; [lia|constructor]. }
    destruct (startsWith (c :: r) (lit "null")).
    { cbn [parser_post]. rewrite length_skipn. cbn [length].
      split; [lia|constructor]. }
    exact I.
  - (* parse_elements *)
    intros s acc Hacc. cbn [parse_elements].
    pose proof (IHv s) as Hv.
    destruct (parse_value fuel s) as [[v rest]| | |];
      cbn [parser_post] in *; try exact I; [|lia].
    destruct Hv as [Hrest Hv].
    assert (Hacc' : Forall value_ok (acc ++ [v])).
    { apply Forall_app. split; [exact Hacc|]. constructor; [exact Hv|constructor]. }
    destruct (skip_ws rest) as [|d r'] eqn:Er; [exact I|].
    pose proof (skip_ws_cons_length rest r' d Er) as Hr'.
    destruct (d =? 44)%N.
    { pose proof (IHe r' (acc ++ [v]) Hacc') as He.
      destruct (parse_elements fuel r' (acc ++ [v])) as [[v' rest']| | |];
        cbn [parser_post] in *; try exact I; [split; [lia|tauto]|lia]. }
    destruct (d =? 93)%N; [|exact I].
    split; [lia|now constructor].
  - (* parse_members *)
    intros s acc Hacc. cbn [parse_members].
    destruct (skip_ws s) as [|q r] eqn:Es; [exact I|].
    pose proof (skip_ws_cons_length s r q Es) as Hr.
    destruct (q =? 34)%N; [|exact I].
    pose proof (parse_string_body_fuel r) as Hf.
    destruct (parse_string_body r) as [[k rest]| | |] eqn:Eb;
      cbn [parser_post]; try exact I; [|congruence].
    apply parse_string_body_length in Eb.
    destruct (skip_ws rest) as [|colon r1] eqn:Er1; [exact I|].
    pose proof (skip_ws_cons_length rest r1 colon Er1) as Hr1.
    destruct (colon =? 58)%N; [|exact I].
    pose proof (IHv r1) as Hv.
    destruct (parse_value fuel r1) as [[v rest2]| | |];
      cbn [parser_post] in *; try exact I; [|lia].
    destruct Hv as [Hrest2 Hv].
    assert (Hacc' : props_ok (obj_set acc k v)) by now apply obj_set_ok.
    destruct (skip_ws rest2) as [|d r2] eqn:Er2; [exact I|].
    pose proof (skip_ws_cons_length rest2 r2 d Er2) as Hr2.
    destruct (d =? 44)%N.
    { pose proof (IHm r2 (obj_set acc k v) Hacc') as Hm.
      destruct (parse_members fuel r2 (obj_set acc k v)) as [[v' rest']| | |];
        cbn [parser_post] in *; try exact I; [split; [lia|tauto]|lia]. }
    destruct (d =? 125)%N; [|exact I].
    split; [lia|now constructor].
Qed.

(** [JSON_parse] never runs out of fuel. *)
Lemma JSON_parse_fuel (text : jstring) : JSON_parse text <> OutOfFuel.
Proof.
  unfold JSON_parse.
  destruct (parser_spec (2 * length text + 2)) as (Hv & _ & _).
  specialize (Hv text).
  destruct (parse_value (2 * length text + 2) text) as [[v rest]| | |];
    cbn [parser_post] in Hv; try discriminate; [|lia].
  destruct (skip_ws rest); discriminate.
Qed.


(** * Identifiers are read back from their JSON text *)

Lemma parse_unsigned_head (neg : bool) (s : jstring)
  (p : number * jstring) :
  parse_unsigned neg s = Parsed p ->
  exists c tl, s = c :: tl /\ is_digit c = true.
Proof.
  unfold parse_unsigned. destruct s as [|c tl]; [discriminate|].
  intros Hp. exists c, tl. split; [reflexivity|].
  cbn [parse_int_part] in Hp.
  destruct (c =? 48)%N eqn:E48; [apply N.eqb_eq in E48; now subst|].
  destruct (is_digit c); [reflexivity|discriminate].
Qed.

Lemma digit_first (c : N) :
  is_digit c = true ->
  is_ws c = false /\ (c =? 123)%N = false /\ (c =? 91)%N = false
  /\ (c =? 34)%N = false /\ (c =? 45)%N = false.
Proof.
  unfold is_digit, is_ws. rewrite andb_true_iff, !N.leb_le. intros [H1 H2].
  repeat split; try (apply N.eqb_neq; lia).
  repeat (apply orb_false_iff; split); apply N.eqb_neq; lia.
Qed.







Section MapFacts.
Context {K V : Type} `{EqKey K}.

Lemma key_eqb_refl (k : K) : key_eqb k k = true.
Proof. now apply key_eqb_eq. Qed.

Lemma key_eqb_neq (a b : K) : a <> b -> key_eqb a b = false.
Proof.
  intros Hne. destruct (key_eqb a b) eqn:E; [|reflexivity].
  apply key_eqb_eq in E. contradiction.
Qed.

Lemma map_get_set_same (m : list (K * V)) (k : K) (v : V) :
  map_get key_eqb (map_set key_eqb m k v) k = Some v.
Proof.
  induction m as [|[k' v'] m IH]; cbn [map_set map_get].
  - now rewrite key_eqb_refl.
  - destruct (key_eqb k' k) eqn:E; cbn [map_get]; rewrite E; auto.
Qed.

Lemma map_get_set_other (m : list (K * V)) (k k' : K) (v : V) :
  k <> k' ->
  map_get key_eqb (map_set key_eqb m k v) k' = map_get key_eqb m k'.
Proof.
  intros Hne. induction m as [|[k0 v0] m IH]; cbn [map_set map_get].
  - now rewrite key_eqb_neq.
  - destruct (key_eqb k0 k) eqn:E; cbn [map_get].
    + apply key_eqb_eq in E. subst k0. now rewrite key_eqb_neq.
    + now rewrite IH.
Qed.

Lemma map_keys_set_present (m : list (K * V)) (k : K) (v v' : V) :
  map_get key_eqb m k = Some v' ->
  map_keys (map_set key_eqb m k v) = map_keys m.
Proof.
  unfold map_keys. induction m as [|[k0 v0] m IH]; cbn [map_set map_get map];
    [discriminate|].
  destruct (key_eqb k0 k) eqn:E; cbn [map fst]; [reflexivity|].
  intros Hg. now rewrite IH.
Qed.

Lemma map_get_delete_same (m : list (K * V)) (k : K) :
  map_get key_eqb (map_delete key_eqb m k) k = None.
Proof.
  induction m as [|[k0 v0] m IH]; cbn [map_delete map_get]; [reflexivity|].
  destruct (key_eqb k0 k) eqn:E; [exact IH|].
  cbn [map_get]. now rewrite E.
Qed.

Lemma map_keys_delete (m : list (K * V)) (k k' : K) :
  In k' (map_keys (map_delete key_eqb m k)) -> In k' (map_keys m) /\ k' <> k.
Proof.
  unfold map_keys. induction m as [|[k0 v0] m IH]; cbn [map_delete map fst];
    [contradiction|].
  destruct (key_eqb k0 k) eqn:E.
  - intros Hin. apply IH in Hin. split; [right|]; tauto.
  - cbn [map fst In]. intros [<-|Hin].
    + split; [now left|]. intros ->. rewrite key_eqb_refl in E. discriminate.
    + apply IH in Hin. split; [right|]; tauto.
Qed.

Lemma map_get_In (m : list (K * V)) (k : K) (v : V) :
  map_get key_eqb m k = Some v -> In (k, v) m.
Proof.
  induction m as [|[k0 v0] m IH]; cbn [map_get]; [discriminate|].
  destruct (key_eqb k0 k) eqn:E.
  - apply key_eqb_eq in E. subst k0. intros Heq. injection Heq as <-. now left.
  - intros Hg. right. now apply IH.
Qed.

Lemma map_get_None_keys (m : list (K * V)) (k : K) :
  map_get key_eqb m k = None <-> ~ In k (map_keys m).
Proof.
  unfold map_keys. induction m as [|[k0 v0] m IH]; cbn [map_get map fst In].
  - tauto.
  - destruct (key_eqb k0 k) eqn:E.
    + apply key_eqb_eq in E. subst k0. split; [discriminate|tauto].
    + rewrite IH. split; [|tauto].
      intros Hn [Heq|Hin]; [|tauto]. subst k0.
      rewrite key_eqb_refl in E. discriminate.
Qed.
End MapFacts.

#[export] Instance EqKey_jstring : EqKey jstring :=
  {| key_eqb := str_eqb; key_eqb_eq := str_eqb_eq |}.

Lemma obj_get_replace (props : list (jstring * value)) (k : jstring)
  (v v' : value) :
  obj_get props k = Some v' -> obj_get (obj_replace props k v) k = Some v.
Proof.
  induction props as [|[k0 v0] props IH]; cbn [obj_get obj_replace];
    [discriminate|].
  destruct (str_eqb k0 k) eqn:E; cbn [obj_get]; rewrite E; auto.
Qed.


Lemma quote_body_inj (a b : jstring) : quote_body a = quote_body b -> a = b.
Proof.
  intros Hab.
  pose proof (parse_quote_body a []) as Ha.
  pose proof (parse_quote_body b []) as Hb.
  rewrite Hab in Ha. congruence.
Qed.

Lemma json_rpc_request_text (id method : jstring) (params : list value) :
  JSON_stringify (json_rpc_request id method params)
  = request_head ++ quote_body id ++ request_tail method params.
Proof.
  unfold json_rpc_request, request_head, request_tail.
  cbn [JSON_stringify map join fst snd]. unfold QuoteJSONString.
  repeat (cbn [app]; rewrite <- ?app_assoc).
  reflexivity.
Qed.

Lemma json_rpc_request_inj (id id' method method' : jstring)
  (params params' : list value) :
  JSON_stringify (json_rpc_request id method params)
  = JSON_stringify (json_rpc_request id' method' params') ->
  id = id'.
Proof.
  rewrite !json_rpc_request_text. intros Heq.
  apply app_inv_head in Heq.
  pose proof (parse_quote_body id (skipn 1 (request_tail method params))) as Ha.
  pose proof (parse_quote_body id' (skipn 1 (request_tail method' params'))) as Hb.
  change (34%N :: skipn 1 (request_tail method params))
    with (request_tail method params) in Ha.
  change (34%N :: skipn 1 (request_tail method' params'))
    with (request_tail method' params') in Hb.
  rewrite Heq in Ha. congruence.
Qed.

Lemma follow_request_inj (n m : N) : follow_request n = follow_request m -> n = m.
Proof.
  unfold follow_request. intros Heq. apply json_rpc_request_inj in Heq.
  apply app_inv_head in Heq. now apply N_to_string_inj.
Qed.

Lemma health_request_inj (n m : N) : health_request n = health_request m -> n = m.
Proof.
  unfold health_request. intros Heq. apply json_rpc_request_inj in Heq.
  apply app_inv_head in Heq. now apply N_to_string_inj.
Qed.

Lemma follow_request_not_health (n m : N) : follow_request n <> health_request m.
Proof.
  unfold follow_request, health_request. intros Heq.
  apply json_rpc_request_inj in Heq. discriminate.
Qed.

Lemma ready_sub_id_inj (n m : N) : ready_sub_id n = ready_sub_id m -> n = m.
Proof.
  unfold ready_sub_id. intros Heq. apply app_inv_head in Heq.
  now apply N_to_string_inj.
Qed.

Lemma health_check_id_inj (n m : N) :
  health_check_id n = health_check_id m -> n = m.
Proof.
  unfold health_check_id. intros Heq. apply app_inv_head in Heq.
  now apply N_to_string_inj.
Qed.

Lemma ready_sub_not_health_check (n m : N) : ready_sub_id n <> health_check_id m.
Proof. discriminate. Qed.

Lemma internal_id_not_extern (n : N) :
  startsWith (ready_sub_id n) (lit "extern:") = false
  /\ startsWith (health_check_id n) (lit "extern:") = false.
Proof. split; reflexivity. Qed.

Lemma js_succ_lt (n : N) : (n < 2 ^ 53)%N -> (n < js_succ n)%N.
Proof.
  intros Hn. unfold js_succ. apply N.ltb_lt in Hn. rewrite Hn. lia.
Qed.

Lemma js_succ_le (n : N) : (n <= js_succ n)%N.
Proof. unfold js_succ. destruct (n <? 2 ^ 53)%N; lia. Qed.

(** * Facts about the nesting of values *)

(** The nesting of the values of the properties of an object. *)
Lemma depth_obj (props : list (jstring * value)) :
  depth (VObj props)
  = S (fold_right (fun kv d => Nat.max (depth (snd kv)) d) 0%nat props).
Proof. reflexivity. Qed.

Lemma depth_obj_app (a b : list (jstring * value)) :
  depth (VObj (a ++ b)) = Nat.max (depth (VObj a)) (depth (VObj b)).
Proof.
  rewrite !depth_obj. rewrite fold_right_app.
  induction a as [|kv a IH]; cbn [fold_right]; [lia|].
  revert IH.
  generalize (fold_right (fun kv d => Nat.max (depth (snd kv)) d) 0%nat b).
  intros n IH. lia.
Qed.

Lemma depth_obj_cons (kv : jstring * value) (props : list (jstring * value)) :
  depth (VObj (kv :: props))
  = Nat.max (S (depth (snd kv))) (depth (VObj props)).
Proof. rewrite !depth_obj. cbn [fold_right]. lia. Qed.

Lemma depth_obj_get (props : list (jstring * value)) (k : jstring) (v : value) :
  obj_get props k = Some v -> (depth v < depth (VObj props))%nat.
Proof.
  induction props as [|[k0 v0] props IH]; cbn [obj_get]; [discriminate|].
  rewrite depth_obj_cons. cbn [snd]. intros Hget.
  destruct (str_eqb k0 k).
  - injection Hget as <-. lia.
  - specialize (IH Hget). lia.
Qed.

Lemma depth_obj_replace (props : list (jstring * value)) (k : jstring)
  (v : value) :
  (depth (VObj (obj_replace props k v))
   <= Nat.max (depth (VObj props)) (S (depth v)))%nat.
Proof.
  induction props as [|[k0 v0] props IH]; cbn [obj_replace]; [lia|].
  destruct (str_eqb k0 k); rewrite !depth_obj_cons; cbn [snd]; lia.
Qed.

Lemma depth_obj_insert_index (props : list (jstring * value)) (i : N)
  (k : jstring) (v : value) :
  (depth (VObj (obj_insert_index props i k v))
   <= Nat.max (depth (VObj props)) (S (depth v)))%nat.
Proof.
  induction props as [|[k0 v0] props IH]; cbn [obj_insert_index].
  - rewrite depth_obj_cons. cbn [snd]. lia.
  - destruct (array_index k0) as [j|]; [destruct (j <? i)%N|];
      rewrite !depth_obj_cons; cbn [snd]; lia.
Qed.

(** An assignment makes an object no deeper than the object and the value
    assigned. *)
Lemma depth_obj_set (props : list (jstring * value)) (k : jstring) (v : value) :
  (depth (VObj (obj_set props k v))
   <= Nat.max (depth (VObj props)) (S (depth v)))%nat.
Proof.
  unfold obj_set. destruct (obj_get props k).
  - apply depth_obj_replace.
  - destruct (array_index k).
    + apply depth_obj_insert_index.
    + rewrite depth_obj_app, depth_obj_cons. cbn [snd depth fold_right]. lia.
Qed.

Lemma depth_obj_set_flat (props : list (jstring * value)) (k : jstring)
  (v : value) :
  depth v = 0%nat ->
  (depth (VObj (obj_set props k v)) <= depth (VObj props))%nat.
Proof.
  intros Hv. pose proof (depth_obj_set props k v) as Hd.
  assert (1 <= depth (VObj props))%nat by (rewrite depth_obj; lia).
  lia.
Qed.

Section Facts.

Context {SandboxId : Type} `{EqKey SandboxId} `{Engine}.

Implicit Types (st : state (SandboxId := SandboxId)) (sandboxId : SandboxId).
Implicit Types (P : state (SandboxId := SandboxId) -> Prop).

Lemma within_stack_fits (v : value) :
  (depth v <= stack_limit)%nat -> within_stack (Some v) = true.
Proof. intros Hd. now apply Nat.leb_le. Qed.

Lemma within_stack_flat (v : value) :
  depth v = 0%nat -> within_stack (Some v) = true.
Proof. intros Hd. apply within_stack_fits. lia. Qed.

Lemma JSON_stringify_object_fits (v : value) :
  (depth v <= stack_limit)%nat ->
  JSON_stringify_object v = Normal (JSON_stringify v).
Proof.
  intros Hd. unfold JSON_stringify_object.
  now rewrite within_stack_fits.
Qed.

(** The engine serialises the requests of the class: [follow_request] and
    [health_request] are the texts of the calls of [JSON.stringify] in
    [nextSandboxMessage] and [#sendPings]. *)
Lemma own_requests_serialised (n : N) :
  JSON_stringify_object
    (json_rpc_request (ready_sub_id n) (lit "chainHead_unstable_follow")
       [VBool true])
  = Normal (follow_request n)
  /\ JSON_stringify_object
       (json_rpc_request (health_check_id n) (lit "system_health") [])
     = Normal (health_request n).
Proof.
  pose proof stack_limit_own as Hown.
  split; apply JSON_stringify_object_fits; cbn; lia.
Qed.

Lemma inner_sandboxMessage_known st sandboxId message :
  inner_has (inner st) sandboxId = true ->
  inner_sandboxMessage sandboxId message st = Ok tt (delegated st sandboxId message).
Proof. intros Hk. unfold inner_sandboxMessage. now rewrite Hk. Qed.

Lemma inner_sandboxMessage_unknown st sandboxId message :
  inner_has (inner st) sandboxId = false ->
  inner_sandboxMessage sandboxId message st = Throw UnknownSandbox st.
Proof. intros Hk. unfold inner_sandboxMessage. now rewrite Hk. Qed.

(** Claim C10, as amended.  An [rpc] message whose payload parses to an
    object without [id], nested no deeper than the engine's
    [JSON.stringify] serialises, is forwarded with the property [id] added
    after the others, its value the string ["extern:undefined"].  When the
    object is nested beyond that limit, [JSON.stringify] throws a
    RangeError: the message goes to the inner manager as it was, without an
    id, and [sandboxMessage] throws. *)
Theorem notification_wrapped_as_extern_undefined st sandboxId chainId text props :
  JSON_parse text = Parsed (VObj props) ->
  obj_get props (lit "id") = None ->
  inner_has (inner st) sandboxId = true ->
  sandboxMessage sandboxId (ExtRpc chainId text) st
  = if (depth (VObj props) <=? stack_limit)%nat
    then Ok tt (delegated st sandboxId
                  (ExtRpc chainId
                     (JSON_stringify
                        (VObj (props
                                 ++ [(lit "id",
                                      VStr (lit "extern:undefined"))])))))
    else Throw RangeError (delegated st sandboxId (ExtRpc chainId text)).
Proof.
  intros Hparse Hid Hknown.
  unfold sandboxMessage, wrap_id, JSON_parse_js. rewrite Hparse.
  cbn [completion_bind get_prop]. rewrite Hid.
  unfold JSON_stringify_js.
  cbn [within_stack completion_bind set_prop option_map concat_js].
  unfold obj_set. rewrite Hid.
  change (array_index (lit "id")) with (@None N). cbv iota.
  unfold JSON_stringify_object, within_stack.
  rewrite depth_obj_app, Nat.max_l
    by (rewrite !depth_obj; cbn [fold_right snd depth]; lia).
  unfold bind, try_finally.
  destruct (depth (VObj props) <=? stack_limit)%nat;
    rewrite inner_sandboxMessage_known by exact Hknown; reflexivity.
Qed.

(** Claim C7, as amended.  For an [rpc] message whose payload [JSON.parse]
    rejects, the identifiers are left alone and the message goes to the inner
    manager as it is; after that [sandboxMessage] throws the SyntaxError of
    [JSON.parse] itself, or the exception of the inner manager when this one
    rejects the sandbox. *)
Theorem malformed_rpc_is_delegated_then_rethrown st sandboxId chainId text :
  JSON_parse text = SyntaxError ->
  sandboxMessage sandboxId (ExtRpc chainId text) st
  = if inner_has (inner st) sandboxId
    then Throw JSONSyntaxError (delegated st sandboxId (ExtRpc chainId text))
    else Throw UnknownSandbox st.
Proof.
  intros Hparse.
  unfold sandboxMessage, wrap_id, JSON_parse_js. rewrite Hparse.
  cbn [completion_bind]. unfold bind, try_finally.
  destruct (inner_has (inner st) sandboxId) eqn:Hk.
  - now rewrite inner_sandboxMessage_known.
  - now rewrite inner_sandboxMessage_unknown.
Qed.

Ltac enter_rpc Hchains Hparse :=
  unfold handle, lookup_chain, JSON_parse_js;
  unfold bind, get_sandboxesChains, lift, ret, throw;
  cbv beta iota; rewrite Hchains; cbv beta iota; rewrite Hparse;
  cbv beta iota.




Lemma health_check_prefix (id : jstring) :
  startsWith id (lit "health-check:") = true ->
  truthy (Some (VStr id)) = true /\ startsWith id (lit "extern:") = false.
Proof.
  intros Hp. destruct (startsWith_inv _ _ Hp) as [t ->]. now split.
Qed.

Lemma ready_sub_prefix (id : jstring) :
  startsWith id (lit "ready-sub:") = true ->
  truthy (Some (VStr id)) = true /\ startsWith id (lit "extern:") = false
  /\ startsWith id (lit "health-check:") = false.
Proof.
  intros Hp. destruct (startsWith_inv _ _ Hp) as [t ->]. now repeat split.
Qed.

Lemma store_chain_tracked st sandboxId chainId chains c :
  map_get key_eqb (sandboxesChains st) sandboxId = Some chains ->
  store_chain sandboxId chainId c st
  = Ok tt (with_chain st sandboxId chains chainId c).
Proof.
  intros Hchains. unfold store_chain, update_chains, bind, get_sandboxesChains.
  now rewrite Hchains.
Qed.

Lemma chain_record_with_chain st sandboxId chains chainId c :
  chain_record (with_chain st sandboxId chains chainId c) sandboxId chainId
  = Some c.
Proof.
  unfold chain_record, with_chain. cbn [sandboxesChains].
  rewrite map_get_set_same.
  exact (map_get_set_same (K := jstring) chains chainId c).
Qed.

Lemma chain_record_with_chain_other st sandboxId chains chainId c
  sandboxId' chainId' :
  map_get key_eqb (sandboxesChains st) sandboxId = Some chains ->
  (sandboxId', chainId') <> (sandboxId, chainId) ->
  chain_record (with_chain st sandboxId chains chainId c) sandboxId' chainId'
  = chain_record st sandboxId' chainId'.
Proof.
  intros Hchains Hne. unfold chain_record, with_chain. cbn [sandboxesChains].
  destruct (key_eqb sandboxId sandboxId') eqn:E.
  - apply key_eqb_eq in E. subst sandboxId'.
    rewrite map_get_set_same, Hchains.
    assert (Hc : chainId <> chainId') by congruence.
    exact (map_get_set_other (K := jstring) chains chainId chainId' c Hc).
  - rewrite map_get_set_other; [reflexivity|].
    intros ->. rewrite key_eqb_refl in E. discriminate.
Qed.

(** Claim C6.  For a tracked chain C, a response whose id starts with
    ["health-check:"] and whose [result.peers] is [n] sets the [peers] of C
    to [n] and returns [chains-status-changed]; [isSyncing] and
    [readySubscriptionId] of C, the records of the other chains, the inner
    manager with the requests sent, and the counter stay as they are. *)
Theorem peer_update_frame st sandboxId chainId chains c text props id result n :
  map_get key_eqb (sandboxesChains st) sandboxId = Some chains ->
  map_get str_eqb chains chainId = Some c ->
  JSON_parse text = Parsed (VObj props) ->
  obj_get props (lit "id") = Some (VStr id) ->
  startsWith id (lit "health-check:") = true ->
  obj_get props (lit "result") = Some result ->
  get_prop (Some result) (lit "peers") = Normal (Some n) ->
  let c' := {| readySubscriptionId := readySubscriptionId c;
               isSyncing := isSyncing c; peers := Some n |} in
  let st' := with_chain st sandboxId chains chainId c' in
  handle sandboxId (AppRpc chainId text) st = Ok (Return ChainsStatusChanged) st'
  /\ chain_record st' sandboxId chainId = Some c'
  /\ (forall sandboxId' chainId',
        (sandboxId', chainId') <> (sandboxId, chainId) ->
        chain_record st' sandboxId' chainId'
        = chain_record st sandboxId' chainId')
  /\ inner st' = inner st
  /\ nextHealthCheckRqId st' = nextHealthCheckRqId st.
Proof.
  intros Hchains Hchain Hparse Hid Hprefix Hresult Hpeers c' st'.
  destruct (health_check_prefix id Hprefix) as [Htruthy Hextern].
  repeat split.
  - enter_rpc Hchains Hparse. cbn [get_prop].
    rewrite Hid, Htruthy, Hextern, Hprefix, Hresult, Hchain, Hpeers.
    cbv beta iota.
    rewrite (store_chain_tracked st sandboxId chainId chains _ Hchains).
    reflexivity.
  - apply chain_record_with_chain.
  - intros sandboxId' chainId' Hne.
    now apply chain_record_with_chain_other.
Qed.

Lemma get_prop_abrupt (base : jsval) (k : jstring) (e : exn) :
  get_prop base k = Abrupt e -> e = TypeError.
Proof.
  destruct base as [[| | | | |]|]; cbn [get_prop]; congruence.
Qed.

(** Claim C8.  A response with a truthy [id] that does not start with
    ["extern:"], ["health-check:"] or ["ready-sub:"] makes the turn throw,
    without a change of the state: the [Error] of the invariant violation
    when the id is a string, a TypeError when it is not one (a case the code
    rules out).  A string id with one of the three prefixes never leads to
    the [Error] of the invariant violation. *)
Theorem unknown_namespace_is_fatal st sandboxId chainId chains text v idv :
  map_get key_eqb (sandboxesChains st) sandboxId = Some chains ->
  JSON_parse text = Parsed v ->
  get_prop (Some v) (lit "id") = Normal idv ->
  truthy idv = true ->
  (forall id, idv = Some (VStr id) -> known_prefix id = false ->
     handle sandboxId (AppRpc chainId text) st = Throw InvariantError st)
  /\ ((forall id, idv <> Some (VStr id)) ->
      handle sandboxId (AppRpc chainId text) st = Throw TypeError st)
  /\ (forall id st', idv = Some (VStr id) -> known_prefix id = true ->
       handle sandboxId (AppRpc chainId text) st <> Throw InvariantError st').
Proof.
  intros Hchains Hparse Hid Htruthy. repeat split.
  - intros id -> Hnone. unfold known_prefix in Hnone.
    apply orb_false_iff in Hnone as [Hnone Hr].
    apply orb_false_iff in Hnone as [He Hh].
    enter_rpc Hchains Hparse. rewrite Hid, Htruthy. cbv beta iota.
    now rewrite He, Hh, Hr.
  - intros Hnot.
    enter_rpc Hchains Hparse. rewrite Hid, Htruthy. cbv beta iota.
    destruct idv as [[| | |id| |]|]; try reflexivity.
    now contradiction (Hnot id).
  - intros id st' -> Hsome. unfold known_prefix in Hsome.
    assert (Hobj : exists props, v = VObj props).
    { destruct v; cbn [get_prop] in Hid; try discriminate. eauto. }
    destruct Hobj as [props ->].
    enter_rpc Hchains Hparse. rewrite Hid, Htruthy. cbv beta iota.
    destruct (startsWith id (lit "extern:")).
    { destruct (JSON_parse (slice id 7)); cbn [set_prop]; cbv beta iota;
        try discriminate.
      unfold JSON_stringify_object.
      destruct (within_stack _); discriminate. }
    destruct (startsWith id (lit "health-check:")).
    { cbn [get_prop]. cbv beta iota.
      destruct (map_get str_eqb chains chainId) as [c|]; [|discriminate].
      destruct (get_prop (obj_get props (lit "result")) (lit "peers"))
        as [p|e|] eqn:Ep; [| |discriminate].
      - unfold store_chain, update_chains, bind, get_sandboxesChains.
        cbv beta iota. rewrite Hchains. discriminate.
      - apply get_prop_abrupt in Ep. subst e. discriminate. }
    destruct (startsWith id (lit "ready-sub:")); [|discriminate].
    cbn [get_prop]. cbv beta iota.
    destruct (map_get str_eqb chains chainId) as [c|]; [|discriminate].
    unfold store_chain, update_chains, bind, get_sandboxesChains.
    cbv beta iota. rewrite Hchains. discriminate.
Qed.

Lemma fresh_ready_sub st :
  numbered_below st -> ~ issued st (ready_sub_id (nextHealthCheckRqId st)).
Proof.
  intros Hbelow (s & c & n & [[Hin Hid]|[Hin Hid]]).
  - apply ready_sub_id_inj in Hid. subst n.
    specialize (Hbelow s c _ (or_introl Hin)). lia.
  - now apply ready_sub_not_health_check in Hid.
Qed.

Lemma fresh_health_check st :
  numbered_below st -> ~ issued st (health_check_id (nextHealthCheckRqId st)).
Proof.
  intros Hbelow (s & c & n & [[Hin Hid]|[Hin Hid]]).
  - symmetry in Hid. now apply ready_sub_not_health_check in Hid.
  - apply health_check_id_inj in Hid. subst n.
    specialize (Hbelow s c _ (or_intror Hin)). lia.
Qed.

Lemma numbered_below_step st st1 sandboxId chainId text :
  numbered_below st ->
  (nextHealthCheckRqId st < 2 ^ 53)%N ->
  text = follow_request (nextHealthCheckRqId st)
  \/ text = health_request (nextHealthCheckRqId st) ->
  sent (inner st1) = sent (inner st) ++ [(sandboxId, ExtRpc chainId text)] ->
  nextHealthCheckRqId st1 = js_succ (nextHealthCheckRqId st) ->
  numbered_below st1.
Proof.
  intros Hbelow Hn Htext Hsent Hcounter s c n Hin.
  rewrite Hsent, Hcounter in *.
  pose proof (js_succ_lt _ Hn) as Hlt.
  rewrite !in_app_iff in Hin. cbn [In] in Hin.
  destruct Hin as [[Hin|[Hin|[]]]|[Hin|[Hin|[]]]].
  - specialize (Hbelow s c n (or_introl Hin)). lia.
  - injection Hin as _ _ Heq. destruct Htext as [->| ->].
    + apply follow_request_inj in Heq. subst n. exact Hlt.
    + symmetry in Heq. now apply follow_request_not_health in Heq.
  - specialize (Hbelow s c n (or_intror Hin)). lia.
  - injection Hin as _ _ Heq. destruct Htext as [->| ->].
    + now apply follow_request_not_health in Heq.
    + apply health_request_inj in Heq. subst n. exact Hlt.
Qed.

Lemma chain_ready_transition st sandboxId chainId chains :
  map_get key_eqb (sandboxesChains st) sandboxId = Some chains ->
  inner_has (inner st) sandboxId = true ->
  handle sandboxId (AppChainReady chainId) st
  = Ok (Return (FromInner (AppChainReady chainId)))
      (advanced
         (delegated (with_chain st sandboxId chains chainId new_chain)
            sandboxId
            (ExtRpc chainId (follow_request (nextHealthCheckRqId st))))).
Proof.
  intros Hchains Hknown.
  unfold handle, update_chains.
  unfold bind, get_sandboxesChains, get_counter, ret.
  cbv beta iota. rewrite Hchains.
  unfold set_sandboxesChains, inner_sandboxMessage. cbn [inner].
  rewrite Hknown. reflexivity.
Qed.

Ltac enter_follow_event Hchains Hparse Hchain Hsub Hshape :=
  destruct Hshape as
    (Hid & Hmethod & subscription & result & Hs & Heq & Hr & He);
  unfold handle, lookup_chain, JSON_parse_js;
  unfold bind, get_sandboxesChains, lift, ret, throw;
  cbv beta iota; rewrite Hchains; cbv beta iota; rewrite Hparse;
  cbv beta iota; cbn [get_prop]; rewrite Hid, Hmethod;
  cbn [strict_eq]; rewrite str_eqb_refl; cbv beta iota;
  rewrite Hs, Hchain, Hsub, Heq, Hr, He; cbv beta iota.

Lemma initialized_transition st sandboxId chainId chains c sub text props :
  map_get key_eqb (sandboxesChains st) sandboxId = Some chains ->
  map_get str_eqb chains chainId = Some c ->
  readySubscriptionId c = Some sub ->
  inner_has (inner st) sandboxId = true ->
  JSON_parse text = Parsed (VObj props) ->
  follow_event props sub (Some (VStr (lit "initialized"))) ->
  handle sandboxId (AppRpc chainId text) st
  = Ok (Return ChainsStatusChanged)
      (advanced
         (delegated
            (with_chain st sandboxId chains chainId
               {| readySubscriptionId := readySubscriptionId c;
                  isSyncing := false; peers := peers c |})
            sandboxId
            (ExtRpc chainId (health_request (nextHealthCheckRqId st))))).
Proof.
  intros Hchains Hchain Hsub Hknown Hparse Hshape.
  enter_follow_event Hchains Hparse Hchain Hsub Hshape.
  cbn [strict_eq]. rewrite str_eqb_refl.
  rewrite (store_chain_tracked st sandboxId chainId chains _ Hchains).
  unfold get_counter, inner_sandboxMessage. cbn [inner with_chain].
  rewrite Hknown. reflexivity.
Qed.

(** What the [stop] case does: the counter stays as it is. *)
Lemma stop_transition st sandboxId chainId chains c sub text props :
  map_get key_eqb (sandboxesChains st) sandboxId = Some chains ->
  map_get str_eqb chains chainId = Some c ->
  readySubscriptionId c = Some sub ->
  inner_has (inner st) sandboxId = true ->
  JSON_parse text = Parsed (VObj props) ->
  follow_event props sub (Some (VStr (lit "stop"))) ->
  handle sandboxId (AppRpc chainId text) st
  = Ok Continue
      (delegated
         (with_chain st sandboxId chains chainId
            {| readySubscriptionId := undefined;
               isSyncing := isSyncing c; peers := peers c |})
         sandboxId
         (ExtRpc chainId (follow_request (nextHealthCheckRqId st)))).
Proof.
  intros Hchains Hchain Hsub Hknown Hparse Hshape.
  enter_follow_event Hchains Hparse Hchain Hsub Hshape.
  cbn [strict_eq].
  change (str_eqb (lit "stop") (lit "initialized")) with false.
  rewrite str_eqb_refl. cbv beta iota.
  rewrite (store_chain_tracked st sandboxId chainId chains _ Hchains).
  unfold get_counter, inner_sandboxMessage. cbn [inner with_chain].
  rewrite Hknown. reflexivity.
Qed.

Lemma other_event_consumed st sandboxId chainId chains c sub text props event :
  map_get key_eqb (sandboxesChains st) sandboxId = Some chains ->
  map_get str_eqb chains chainId = Some c ->
  readySubscriptionId c = Some sub ->
  JSON_parse text = Parsed (VObj props) ->
  follow_event props sub event ->
  strict_eq event (Some (VStr (lit "initialized"))) = false ->
  strict_eq event (Some (VStr (lit "stop"))) = false ->
  handle sandboxId (AppRpc chainId text) st = Ok Continue st.
Proof.
  intros Hchains Hchain Hsub Hparse Hshape Hinit Hstop.
  enter_follow_event Hchains Hparse Hchain Hsub Hshape.
  now rewrite Hinit, Hstop.
Qed.

(** Claim C2, as amended.  For a tracked chain with an active
    ready-subscription, a [chainHead_unstable_followEvent] notification on
    that subscription whose event is neither [initialized] nor [stop] is
    consumed: the turn of the loop changes nothing and sends nothing, and
    [nextSandboxMessage] goes on with the next message of the inner manager,
    so that the notification is not surfaced. *)
Theorem other_follow_events_are_consumed
  st sandboxId chainId chains c sub text props event rest :
  map_get key_eqb (sandboxesChains st) sandboxId = Some chains ->
  map_get str_eqb chains chainId = Some c ->
  readySubscriptionId c = Some sub ->
  JSON_parse text = Parsed (VObj props) ->
  follow_event props sub event ->
  strict_eq event (Some (VStr (lit "initialized"))) = false ->
  strict_eq event (Some (VStr (lit "stop"))) = false ->
  map_get key_eqb (queues (inner st)) sandboxId
  = Some (AppRpc chainId text :: rest) ->
  handle sandboxId (AppRpc chainId text) st = Ok Continue st
  /\ nextSandboxMessage sandboxId st
     = nextSandboxMessage sandboxId (dequeued st sandboxId rest).
Proof.
  intros Hchains Hchain Hsub Hparse Hshape Hinit Hstop Hqueue. split.
  - now apply other_event_consumed with chains c sub props event.
  - unfold nextSandboxMessage at 1. rewrite Hqueue.
    cbn [pull]. unfold bind at 1. unfold set_queue, set_inner.
    cbv beta iota. fold (dequeued st sandboxId rest).
    unfold bind at 1.
    rewrite (other_event_consumed (dequeued st sandboxId rest) sandboxId
               chainId chains c sub text props event); auto.
    cbv beta iota. unfold nextSandboxMessage.
    cbn [dequeued inner queues]. now rewrite map_get_set_same.
Qed.

(** The two transitions of the health state.  On a [chain-ready] message for
    chain C, the turn creates the record [{isSyncing: true, peers: 0}] of C
    without subscription, returns the message as it is, and sends one
    [chainHead_unstable_follow] request with the parameters [[true]] and the
    id ["ready-sub:" + n], [n] being the counter, which it advances.  On a
    later [initialized] event on the active subscription of C, the turn sets
    [isSyncing] to false, returns [chains-status-changed], sends one
    [system_health] request with the id ["health-check:" + n] and advances
    the counter.  Either id differs from the id of every health-monitoring
    request sent before, provided those were numbered below the counter; and
    then they are so afterwards. *)
Lemma health_transitions st sandboxId chainId chains :
  map_get key_eqb (sandboxesChains st) sandboxId = Some chains ->
  inner_has (inner st) sandboxId = true ->
  (let st1 :=
     advanced
       (delegated (with_chain st sandboxId chains chainId new_chain) sandboxId
          (ExtRpc chainId (follow_request (nextHealthCheckRqId st)))) in
   handle sandboxId (AppChainReady chainId) st
   = Ok (Return (FromInner (AppChainReady chainId))) st1
   /\ chain_record st1 sandboxId chainId = Some new_chain
   /\ (numbered_below st -> (nextHealthCheckRqId st < 2 ^ 53)%N ->
       ~ issued st (ready_sub_id (nextHealthCheckRqId st))
       /\ numbered_below st1))
  /\ (forall st2 chains2 c sub text props,
        map_get key_eqb (sandboxesChains st2) sandboxId = Some chains2 ->
        map_get str_eqb chains2 chainId = Some c ->
        readySubscriptionId c = Some sub ->
        inner_has (inner st2) sandboxId = true ->
        JSON_parse text = Parsed (VObj props) ->
        follow_event props sub (Some (VStr (lit "initialized"))) ->
        let c' := {| readySubscriptionId := readySubscriptionId c;
                     isSyncing := false; peers := peers c |} in
        let st3 :=
          advanced
            (delegated (with_chain st2 sandboxId chains2 chainId c') sandboxId
               (ExtRpc chainId (health_request (nextHealthCheckRqId st2)))) in
        handle sandboxId (AppRpc chainId text) st2
        = Ok (Return ChainsStatusChanged) st3
        /\ chain_record st3 sandboxId chainId = Some c'
        /\ (numbered_below st2 -> (nextHealthCheckRqId st2 < 2 ^ 53)%N ->
            ~ issued st2 (health_check_id (nextHealthCheckRqId st2))
            /\ numbered_below st3)).
Proof.
  intros Hchains Hknown. split.
  - cbv zeta. repeat split.
    + now apply chain_ready_transition.
    + apply (chain_record_with_chain st sandboxId chains chainId new_chain).
    + now apply fresh_ready_sub.
    + apply (numbered_below_step st _ sandboxId chainId
               (follow_request (nextHealthCheckRqId st)));
        [assumption|assumption|now left|reflexivity|reflexivity].
  - intros st2 chains2 c sub text props Hchains2 Hchain Hsub Hknown2 Hparse
      Hshape. cbv zeta. repeat split.
    + now apply initialized_transition with sub props.
    + apply (chain_record_with_chain st2 sandboxId chains2 chainId).
    + now apply fresh_health_check.
    + apply (numbered_below_step st2 _ sandboxId chainId
               (health_request (nextHealthCheckRqId st2)));
        [assumption|assumption|now right|reflexivity|reflexivity].
Qed.

Lemma keeps_ret {A : Type} P (a : A) : keeps P (ret a).
Proof. intros st Hst. exact Hst. Qed.

Lemma keeps_throw {A : Type} P (e : exn) :
  keeps P (throw (A := A) e).
Proof. intros st Hst. exact Hst. Qed.

Lemma keeps_lift {A : Type} P (c : completion A) :
  keeps P (lift c).
Proof. intros st Hst. unfold lift. destruct c; cbn; auto. Qed.

Lemma keeps_bind {A B : Type} P (c : M A) (f : A -> M B) :
  keeps P c -> (forall a, keeps P (f a)) -> keeps P (bind c f).
Proof.
  intros Hc Hf st Hst. unfold bind. specialize (Hc st Hst).
  destruct (c st) as [a st'|e st'|]; cbn in *; auto.
  now apply Hf.
Qed.

Lemma keeps_get_counter P : keeps P get_counter.
Proof. intros st Hst. exact Hst. Qed.

Lemma keeps_get_sandboxesChains P :
  keeps P get_sandboxesChains.
Proof. intros st Hst. exact Hst. Qed.

Section Untracked.
Variable s0 : SandboxId.

Lemma keeps_set_counter (n : N) : keeps (untracked s0) (set_counter n).
Proof. intros st Hst. exact Hst. Qed.

Lemma keeps_set_inner (i : ConnectionManager) :
  keeps (untracked s0) (set_inner i).
Proof. intros st Hst. exact Hst. Qed.

Lemma keeps_inner_sandboxMessage sandboxId (message : ToExtension) :
  keeps (untracked s0) (inner_sandboxMessage sandboxId message).
Proof.
  intros st Hst. unfold inner_sandboxMessage.
  destruct (inner_has (inner st) sandboxId); exact Hst.
Qed.

Lemma keeps_inner_addSandbox sandboxId :
  keeps (untracked s0) (inner_addSandbox sandboxId).
Proof.
  intros st Hst. unfold inner_addSandbox.
  destruct (inner_has (inner st) sandboxId); exact Hst.
Qed.

Lemma keeps_inner_deleteSandbox sandboxId :
  keeps (untracked s0) (inner_deleteSandbox sandboxId).
Proof.
  intros st Hst. unfold inner_deleteSandbox.
  destruct (inner_has (inner st) sandboxId); exact Hst.
Qed.

Lemma keeps_inner_generates sandboxId (item : ToApplication) :
  keeps (untracked s0) (inner_generates sandboxId item).
Proof.
  intros st Hst. unfold inner_generates.
  destruct (map_get key_eqb (queues (inner st)) sandboxId); exact Hst.
Qed.

Lemma keeps_set_queue sandboxId (q : list ToApplication) :
  keeps (untracked s0) (set_queue sandboxId q).
Proof. intros st Hst. exact Hst. Qed.

Lemma keeps_update_chains sandboxId
  (f : list (jstring * Chain) -> list (jstring * Chain)) (missing : M unit) :
  keeps (untracked s0) missing ->
  keeps (untracked s0) (update_chains sandboxId f missing).
Proof.
  intros Hmissing st Hst. unfold update_chains, bind, get_sandboxesChains.
  destruct (map_get key_eqb (sandboxesChains st) sandboxId) as [chains|] eqn:E.
  - cbn. unfold untracked in *. cbn [sandboxesChains].
    rewrite map_get_set_other; [exact Hst|].
    intros ->. congruence.
  - now apply Hmissing.
Qed.

Lemma keeps_store_chain sandboxId (chainId : jstring) (c : Chain) :
  keeps (untracked s0) (store_chain sandboxId chainId c).
Proof. apply keeps_update_chains. apply keeps_throw. Qed.

Lemma keeps_lookup_chain sandboxId (chainId : jstring) :
  keeps (untracked s0) (lookup_chain sandboxId chainId).
Proof.
  intros st Hst. unfold lookup_chain, bind, get_sandboxesChains.
  destruct (map_get key_eqb (sandboxesChains st) sandboxId); exact Hst.
Qed.

Ltac keeps_step :=
  match goal with
  | |- keeps _ (ret _) => apply keeps_ret
  | |- keeps _ (throw _) => apply keeps_throw
  | |- keeps _ (lift _) => apply keeps_lift
  | |- keeps _ get_counter => apply keeps_get_counter
  | |- keeps _ get_sandboxesChains => apply keeps_get_sandboxesChains
  | |- keeps _ (set_counter _) => apply keeps_set_counter
  | |- keeps _ (set_inner _) => apply keeps_set_inner
  | |- keeps _ (inner_sandboxMessage _ _) => apply keeps_inner_sandboxMessage
  | |- keeps _ (set_queue _ _) => apply keeps_set_queue
  | |- keeps _ (store_chain _ _ _) => apply keeps_store_chain
  | |- keeps _ (lookup_chain _ _) => apply keeps_lookup_chain
  | |- keeps _ (update_chains _ _ _) => apply keeps_update_chains
  | |- keeps _ (bind _ _) => apply keeps_bind; [|intros ?]
  | |- keeps _ (if ?b then _ else _) => destruct b
  | |- keeps _ (match ?x with _ => _ end) => destruct x
  end.

Lemma keeps_handle sandboxId (toApplication : ToApplication) :
  keeps (untracked s0) (handle sandboxId toApplication).
Proof. destruct toApplication; unfold handle; repeat keeps_step. Qed.

Lemma keeps_pull sandboxId (items : list ToApplication) :
  keeps (untracked s0) (pull sandboxId items).
Proof.
  induction items as [|item rest IH]; cbn [pull]; [apply keeps_ret|].
  apply keeps_bind; [apply keeps_set_queue|intros _].
  apply keeps_bind; [apply keeps_handle|intros [m|]];
    [apply keeps_ret|exact IH].
Qed.

Lemma keeps_nextSandboxMessage sandboxId :
  keeps (untracked s0) (nextSandboxMessage sandboxId).
Proof.
  intros st Hst. unfold nextSandboxMessage.
  destruct (map_get key_eqb (queues (inner st)) sandboxId) as [items|].
  - now apply keeps_pull.
  - exact Hst.
Qed.

Lemma keeps_turn sandboxId : keeps (untracked s0) (turn sandboxId).
Proof.
  intros st Hst. unfold turn.
  destruct (map_get key_eqb (queues (inner st)) sandboxId) as [[|item rest]|];
    try exact Hst.
  revert st Hst.
  apply keeps_bind; [apply keeps_set_queue|intros _].
  apply keeps_bind; [apply keeps_handle|intros _]. apply keeps_ret.
Qed.

Lemma keeps_try_finally {A : Type} (body : completion A) (handler : M unit) :
  keeps (untracked s0) handler ->
  keeps (untracked s0) (try_finally body handler).
Proof.
  intros Hh st Hst. unfold try_finally. specialize (Hh st Hst).
  destruct body; cbn; auto; destruct (handler st); cbn in *; auto.
Qed.

Lemma keeps_sandboxMessage sandboxId (message : ToExtension) :
  keeps (untracked s0) (sandboxMessage sandboxId message).
Proof.
  destruct message; unfold sandboxMessage; cbv zeta;
    repeat first [ apply keeps_try_finally | keeps_step ].
Qed.

Lemma keeps_for_each {A : Type} (l : list A) (body : A -> M unit) :
  (forall x, keeps (untracked s0) (body x)) ->
  keeps (untracked s0) (for_each l body).
Proof.
  intros Hbody. induction l as [|x l IH]; cbn [for_each];
    [apply keeps_ret|].
  apply keeps_bind; [apply Hbody|intros _; exact IH].
Qed.

Lemma keeps_sendPings : keeps (untracked s0) sendPings.
Proof.
  unfold sendPings. apply keeps_bind; [apply keeps_get_sandboxesChains|].
  intros m. apply keeps_for_each. intros entry.
  apply keeps_for_each. intros chain. unfold ping. repeat keeps_step.
Qed.

Lemma map_get_delete_None (m : list (SandboxId * list (jstring * Chain)))
  (k : SandboxId) :
  map_get key_eqb m s0 = None ->
  map_get key_eqb (map_delete key_eqb m k) s0 = None.
Proof.
  induction m as [|[k0 v0] m IH]; cbn [map_delete map_get]; [reflexivity|].
  destruct (key_eqb k0 s0) eqn:E0; [discriminate|].
  intros Hm. destruct (key_eqb k0 k); [now apply IH|].
  cbn [map_get]. rewrite E0. now apply IH.
Qed.

Lemma keeps_deleteSandbox sandboxId :
  keeps (untracked s0) (deleteSandbox sandboxId).
Proof.
  unfold deleteSandbox.
  apply keeps_bind; [apply keeps_inner_deleteSandbox|intros _].
  intros st Hst. unfold bind, get_sandboxesChains. cbn.
  unfold untracked in *. cbn [sandboxesChains].
  now apply map_get_delete_None.
Qed.

Lemma keeps_addSandbox sandboxId :
  sandboxId <> s0 -> keeps (untracked s0) (addSandbox sandboxId).
Proof.
  intros Hne. unfold addSandbox.
  apply keeps_bind; [apply keeps_inner_addSandbox|intros _].
  intros st Hst. unfold bind, get_sandboxesChains. cbn.
  unfold untracked in *. cbn [sandboxesChains].
  now rewrite map_get_set_other.
Qed.

Lemma keeps_run_op (o : op) :
  o <> OpAddSandbox s0 -> keeps (untracked s0) (run_op o).
Proof.
  intros Hne. destruct o as [s|s|s m|s|s|s item| |s item]; cbn [run_op].
  - apply keeps_addSandbox. congruence.
  - apply keeps_deleteSandbox.
  - apply keeps_sandboxMessage.
  - apply keeps_bind; [apply keeps_nextSandboxMessage|intros _].
    apply keeps_ret.
  - apply keeps_turn.
  - apply keeps_bind; [apply keeps_handle|intros _]. apply keeps_ret.
  - apply keeps_sendPings.
  - apply keeps_inner_generates.
Qed.

Lemma untracked_run (ops : list op) :
  (forall o, In o ops -> o <> OpAddSandbox s0) ->
  forall st st', untracked s0 st -> run ops st = Some st' -> untracked s0 st'.
Proof.
  induction ops as [|o ops IH]; intros Hops st st' Hst; cbn [run].
  - intros Heq. injection Heq as <-. exact Hst.
  - pose proof (keeps_run_op o (Hops o (or_introl eq_refl)) st Hst) as Ho.
    unfold after. unfold final in Ho.
    destruct (run_op o st) as [? st1|? st1|]; try discriminate;
      apply IH; auto; intros o' Ho'; apply Hops; now right.
Qed.
End Untracked.

Lemma pinged_nil st : pinged st [] = st.
Proof.
  destruct st as [[q s] m n]. unfold pinged. cbn. now rewrite app_nil_r.
Qed.

Lemma pinged_cons st s c (pairs : list (SandboxId * jstring)) :
  pinged
    (advanced
       (delegated st s (ExtRpc c (health_request (nextHealthCheckRqId st)))))
    pairs
  = pinged st ((s, c) :: pairs).
Proof.
  unfold pinged, advanced, delegated. cbn [inner queues sent sandboxesChains
    nextHealthCheckRqId ping_messages length].
  rewrite <- app_assoc. cbn [app]. now rewrite Nat.iter_succ_r.
Qed.

Lemma ping_known st s c :
  inner_has (inner st) s = true ->
  ping s c st
  = Ok tt (advanced
             (delegated st s
                (ExtRpc c (health_request (nextHealthCheckRqId st))))).
Proof.
  intros Hk. unfold ping, bind, get_counter, inner_sandboxMessage.
  now rewrite Hk.
Qed.

Lemma ping_unknown st s c :
  inner_has (inner st) s = false -> ping s c st = Throw UnknownSandbox st.
Proof.
  intros Hk. unfold ping, bind, get_counter, inner_sandboxMessage.
  now rewrite Hk.
Qed.

Lemma for_each_app {A : Type} (l1 l2 : list A) (body : A -> M unit) st :
  for_each (l1 ++ l2) body st
  = bind (for_each l1 body) (fun _ => for_each l2 body) st.
Proof.
  revert st. induction l1 as [|x l1 IH]; intros st; [reflexivity|].
  cbn [app for_each]. unfold bind.
  destruct (body x st) as [[] st1|e st1|]; [|reflexivity|reflexivity].
  rewrite IH. reflexivity.
Qed.

Lemma for_each_map {A B : Type} (g : A -> B) (l : list A) (body : B -> M unit)
  st :
  for_each (map g l) body st = for_each l (fun x => body (g x)) st.
Proof.
  revert st. induction l as [|x l IH]; intros st; [reflexivity|].
  cbn [map for_each]. unfold bind.
  destruct (body (g x) st) as [[] st1|e st1|]; auto.
Qed.

(** The two nested loops of [#sendPings] visit the tracked pairs in
    order. *)
Lemma sendPings_flat st :
  sendPings st
  = for_each (tracked_pairs (sandboxesChains st))
      (fun p => ping (fst p) (snd p)) st.
Proof.
  unfold sendPings. unfold bind at 1. unfold get_sandboxesChains.
  generalize (sandboxesChains st) as m. intros m. revert st.
  induction m as [|[s chains] m IH]; intros st; [reflexivity|].
  cbn [for_each tracked_pairs flat_map fst snd].
  rewrite for_each_app. unfold bind. rewrite for_each_map. cbn [fst snd].
  destruct (for_each chains (fun chain => ping s (fst chain)) st)
    as [[] st1|e st1|]; auto.
Qed.

(** The pings go out for the tracked pairs in order, as far as the inner
    manager knows the sandboxes. *)
Lemma for_each_ping (pairs : list (SandboxId * jstring)) :
  forall st,
  exists done rest,
    pairs = done ++ rest
    /\ ((rest = []
         /\ for_each pairs (fun p => ping (fst p) (snd p)) st
            = Ok tt (pinged st done))
        \/ (rest <> []
            /\ for_each pairs (fun p => ping (fst p) (snd p)) st
               = Throw UnknownSandbox (pinged st done))).
Proof.
  induction pairs as [|[s c] pairs IH]; intros st.
  - exists [], []. split; [reflexivity|]. left. split; [reflexivity|].
    now rewrite pinged_nil.
  - cbn [for_each fst snd]. unfold bind.
    destruct (inner_has (inner st) s) eqn:Hk.
    + rewrite (ping_known st s c Hk).
      destruct (IH (advanced
                      (delegated st s
                         (ExtRpc c (health_request (nextHealthCheckRqId st))))))
        as (done & rest & Hsplit & Hres).
      exists ((s, c) :: done), rest. split; [now rewrite Hsplit|].
      rewrite pinged_cons in Hres. exact Hres.
    + rewrite (ping_unknown st s c Hk).
      exists [], ((s, c) :: pairs). split; [reflexivity|]. right.
      split; [discriminate|]. now rewrite pinged_nil.
Qed.

Lemma tracked_pairs_sandbox (m : list (SandboxId * list (jstring * Chain)))
  s c :
  In (s, c) (tracked_pairs m) -> In s (map_keys m).
Proof.
  unfold tracked_pairs, map_keys. rewrite in_flat_map.
  intros ([s' chains] & Hentry & Hin). cbn [fst snd] in Hin.
  apply in_map_iff in Hin as ([c' ch] & Heq & _). injection Heq as Hs _.
  subst s'. apply in_map_iff. now exists (s, chains).
Qed.

(** Claim C9.  After [deleteSandbox] succeeded for sandbox S, no chain of S
    has a record; and after any further operations other than [addSandbox]
    of S, a firing of the ping timer sends [system_health] requests for
    tracked (sandbox, chain) pairs only, in the order of the map, none of
    them for S. *)
Theorem teardown st st1 sandboxId :
  deleteSandbox sandboxId st = Ok tt st1 ->
  (forall chainId, chain_record st1 sandboxId chainId = None)
  /\ forall ops st2,
       (forall o, In o ops -> o <> OpAddSandbox sandboxId) ->
       run ops st1 = Some st2 ->
       exists done rest,
         tracked_pairs (sandboxesChains st2) = done ++ rest
         /\ final (sendPings st2) = Some (pinged st2 done)
         /\ forall s c, In (s, c) done -> s <> sandboxId.
Proof.
  intros Hdelete.
  assert (Hgone : untracked sandboxId st1).
  { unfold deleteSandbox, bind, inner_deleteSandbox in Hdelete.
    destruct (inner_has (inner st) sandboxId); [|discriminate].
    cbn in Hdelete. injection Hdelete as <-.
    unfold untracked. cbn [sandboxesChains]. apply map_get_delete_same. }
  split.
  - intros chainId. unfold chain_record. now rewrite Hgone.
  - intros ops st2 Hops Hrun.
    pose proof (untracked_run sandboxId ops Hops st1 st2 Hgone Hrun) as Hst2.
    destruct (for_each_ping (tracked_pairs (sandboxesChains st2)) st2)
      as (done & rest & Hsplit & Hres).
    exists done, rest. split; [exact Hsplit|]. split.
    + rewrite sendPings_flat. destruct Hres as [[_ ->]|[_ ->]]; reflexivity.
    + intros s c Hin ->.
      assert (Hin' : In (sandboxId, c) (tracked_pairs (sandboxesChains st2)))
        by (rewrite Hsplit; apply in_or_app; now left).
      apply tracked_pairs_sandbox in Hin'.
      apply map_get_None_keys in Hst2. contradiction.
Qed.
End Facts.

(** ** The claims on concrete inputs *)

(** [subscribed] is the state of an instance after [subscribing]. *)
Lemma subscribed_reached : run subscribing initial = Some subscribed.
Proof. vm_compute. reflexivity. Qed.



Lemma follow_event_props_shape (event : string) :
  follow_event (follow_event_props "s1" event) (VStr (lit "s1"))
    (Some (VStr (lit event))).
Proof.
  split; [reflexivity|]. split; [reflexivity|].
  exists (Some (VStr (lit "s1"))),
    (Some (VObj [(lit "event", VStr (lit event))])).
  repeat split.
Qed.

(** Claim C2, as amended, on a [newBlock] event followed by an [error]
    message. *)
Lemma other_follow_events_are_consumed_witness :
  let item := AppRpc chainA (follow_event_text "s1" "newBlock") in
  let rest := [AppError chainB (lit "gone")] in
  let st := dequeued subscribed 1%N (item :: rest) in
  handle 1%N item st = Ok Continue st
  /\ nextSandboxMessage 1%N st
     = nextSandboxMessage 1%N (dequeued st 1%N rest).
Proof.
  cbv zeta.
  apply (other_follow_events_are_consumed (SandboxId := N)
           (dequeued subscribed 1%N
              [AppRpc chainA (follow_event_text "s1" "newBlock");
               AppError chainB (lit "gone")])
           1%N chainA
           [(chainA, subscribed_chain)] subscribed_chain (VStr (lit "s1"))
           (follow_event_text "s1" "newBlock")
           (follow_event_props "s1" "newBlock")
           (Some (VStr (lit "newBlock")))
           [AppError chainB (lit "gone")]).
  - reflexivity.
  - reflexivity.
  - reflexivity.
  - vm_compute. reflexivity.
  - apply follow_event_props_shape.
  - reflexivity.
  - reflexivity.
  - reflexivity.
Defined.

(** Claim C2 as stated fails: with the subscription [s1] of chain A active,
    a [newBlock] event on [s1] is not returned by [nextSandboxMessage]; the
    call consumes it and stays pending. *)
Lemma new_block_event_is_not_surfaced :
  let item := AppRpc chainA (follow_event_text "s1" "newBlock") in
  bind (inner_generates 1%N item) (fun _ => nextSandboxMessage 1%N) subscribed
  = Ok None subscribed
  /\ bind (inner_generates 1%N item) (fun _ => nextSandboxMessage 1%N) subscribed
     <> Ok (Some (FromInner item)) subscribed.
Proof. cbv zeta. split; [vm_compute; reflexivity|vm_compute; discriminate]. Qed.

(** Claim C3, on the run [stop_then_chain_ready].  The [stop] case sends its
    request without advancing the counter, so the request for chain A after
    the stop and the request for chain B that gets ready next carry the same
    id ["ready-sub:1"]: the ids of the health-monitoring requests are not
    pairwise distinct. *)
Lemma ready_sub_id_issued_twice :
  option_map (fun st => sent (inner st)) (run stop_then_chain_ready initial)
  = Some [(1%N, ExtRpc chainA (follow_request 0));
          (1%N, ExtRpc chainA (follow_request 1));
          (1%N, ExtRpc chainB (follow_request 1))]
  /\ follow_request 1
     = quoted "{'jsonrpc':'2.0','id':'ready-sub:1','method':'chainHead_unstable_follow','params':[true]}".
Proof. split; vm_compute; reflexivity. Qed.

Lemma stopped_reached : run stopping initial = Some stopped.
Proof. vm_compute. reflexivity. Qed.

(** Claim C4, in the state [stopped].  The [stop] before has sent the id
    ["ready-sub:1"] and left the counter at 1, so the [chain-ready] turn for
    chain B, which does all the claim says, sends its request under the id
    ["ready-sub:1"] again: the id is not fresh. *)
Lemma chain_ready_after_stop_reuses_id :
  issued stopped (ready_sub_id 1)
  /\ handle 1%N (AppChainReady chainB) stopped
     = Ok (Return (FromInner (AppChainReady chainB)))
         (advanced
            (delegated
               (with_chain stopped 1%N [(chainA, new_chain)] chainB new_chain)
               1%N (ExtRpc chainB (follow_request 1))))
  /\ follow_request 1
     = JSON_stringify
         (json_rpc_request (ready_sub_id 1) (lit "chainHead_unstable_follow")
            [VBool true]).
Proof.
  split; [|split; [vm_compute; reflexivity|reflexivity]].
  exists 1%N, chainA, 1%N. left. split; [|reflexivity].
  right. left. reflexivity.
Qed.

(** Claim C5, on the run [stop_twice].  Each [stop] clears the subscription
    of chain A and sends one [chainHead_unstable_follow] request, but leaves
    the counter at 1: the request of the second stop carries the id
    ["ready-sub:1"] of the first, which is not fresh. *)
Lemma second_stop_reuses_ready_sub_id :
  option_map
    (fun st => (sent (inner st), nextHealthCheckRqId st,
                chain_record st 1%N chainA))
    (run stop_twice initial)
  = Some ([(1%N, ExtRpc chainA (follow_request 0));
           (1%N, ExtRpc chainA (follow_request 1));
           (1%N, ExtRpc chainA (follow_request 1))],
          1%N,
          Some {| readySubscriptionId := undefined; isSyncing := true;
                  peers := Some number_zero |}).
Proof. vm_compute. reflexivity. Qed.

Lemma numbered_below_one_sandbox : numbered_below one_sandbox.
Proof. intros s c n [[]|[]]. Qed.

Lemma numbered_below_subscribed : numbered_below subscribed.
Proof.
  intros s c n [[Hin|[]]|[Hin|[]]].
  - assert (Heq : follow_request 0 = follow_request n) by congruence.
    apply follow_request_inj in Heq. subst n. reflexivity.
  - assert (Heq : follow_request 0 = health_request n) by congruence.
    now apply follow_request_not_health in Heq.
Qed.

(** The two transitions on the first chain of a sandbox. *)
Lemma health_transitions_example :
  (handle 1%N (AppChainReady chainA) one_sandbox
   = Ok (Return (FromInner (AppChainReady chainA)))
       (advanced
          (delegated (with_chain one_sandbox 1%N [] chainA new_chain) 1%N
             (ExtRpc chainA (follow_request 0))))
   /\ ~ issued one_sandbox (ready_sub_id 0))
  /\ (handle 1%N (AppRpc chainA (follow_event_text "s1" "initialized")) subscribed
      = Ok (Return ChainsStatusChanged)
          (advanced
             (delegated
                (with_chain subscribed 1%N [(chainA, subscribed_chain)] chainA
                   {| readySubscriptionId := Some (VStr (lit "s1"));
                      isSyncing := false; peers := Some number_zero |})
                1%N (ExtRpc chainA (health_request 1))))
      /\ ~ issued subscribed (health_check_id 1)).
Proof.
  destruct (health_transitions (SandboxId := N) one_sandbox 1%N chainA [])
    as [(Hready & _ & Hfresh) Hlater]; [reflexivity|reflexivity|].
  destruct (Hfresh numbered_below_one_sandbox) as [Hnew _]; [reflexivity|].
  destruct (Hlater subscribed [(chainA, subscribed_chain)] subscribed_chain
              (VStr (lit "s1")) (follow_event_text "s1" "initialized")
              (follow_event_props "s1" "initialized"))
    as (Hinit & _ & Hfresh');
    [reflexivity|reflexivity|reflexivity|reflexivity|vm_compute; reflexivity
    |apply follow_event_props_shape|].
  destruct (Hfresh' numbered_below_subscribed) as [Hnew' _]; [reflexivity|].
  split; split; assumption.
Defined.

(** Claim C6 on a [system_health] response with 7 peers. *)
Lemma peer_update_frame_witness :
  let text :=
    quoted "{'jsonrpc':'2.0','id':'health-check:1','result':{'isSyncing':false,'peers':7,'shouldHavePeers':true}}" in
  handle 1%N (AppRpc chainA text) subscribed
  = Ok (Return ChainsStatusChanged)
      (with_chain subscribed 1%N [(chainA, subscribed_chain)] chainA
         {| readySubscriptionId := Some (VStr (lit "s1")); isSyncing := true;
            peers := Some (VNum (NFin false [7%N] 0)) |}).
Proof.
  cbv zeta.
  destruct (peer_update_frame (SandboxId := N) subscribed 1%N chainA
              [(chainA, subscribed_chain)] subscribed_chain
              (quoted "{'jsonrpc':'2.0','id':'health-check:1','result':{'isSyncing':false,'peers':7,'shouldHavePeers':true}}")
              [(lit "jsonrpc", VStr (lit "2.0"));
               (lit "id", VStr (lit "health-check:1"));
               (lit "result",
                VObj [(lit "isSyncing", VBool false);
                      (lit "peers", VNum (NFin false [7%N] 0));
                      (lit "shouldHavePeers", VBool true)])]
              (lit "health-check:1")
              (VObj [(lit "isSyncing", VBool false);
                     (lit "peers", VNum (NFin false [7%N] 0));
                     (lit "shouldHavePeers", VBool true)])
              (VNum (NFin false [7%N] 0)))
    as (Hstep & _);
    [reflexivity|reflexivity|vm_compute; reflexivity|reflexivity|reflexivity
    |reflexivity|reflexivity|].
  exact Hstep.
Defined.

(** Claim C7, as amended, on a payload that is not JSON. *)
Lemma malformed_rpc_is_delegated_then_rethrown_witness :
  sandboxMessage 1%N (ExtRpc chainA (lit "{jsonrpc:")) one_sandbox
  = Throw JSONSyntaxError
      (delegated one_sandbox 1%N (ExtRpc chainA (lit "{jsonrpc:"))).
Proof.
  pose proof (malformed_rpc_is_delegated_then_rethrown (SandboxId := N)
                one_sandbox 1%N chainA (lit "{jsonrpc:")) as Hthrown.
  cbn [one_sandbox inner inner_has queues map_get key_eqb EqKey_N N.eqb Pos.eqb]
    in Hthrown.
  apply Hthrown. vm_compute. reflexivity.
Defined.

(** Claim C7 as stated fails: on a truncated payload [sandboxMessage]
    delegates the message to the inner manager, which accepts it, and then
    throws the SyntaxError itself; it does not return. *)
Lemma sandboxMessage_fails_on_malformed_json :
  let message := ExtRpc chainA (quoted "{'jsonrpc':'2.0','id':1,") in
  JSON_parse (quoted "{'jsonrpc':'2.0','id':1,") = SyntaxError
  /\ inner_has (inner one_sandbox) 1%N = true
  /\ sandboxMessage 1%N message one_sandbox
     = Throw JSONSyntaxError (delegated one_sandbox 1%N message)
  /\ forall st', sandboxMessage 1%N message one_sandbox <> Ok tt st'.
Proof.
  cbv zeta. repeat split; try (vm_compute; reflexivity).
  intros st'. vm_compute. discriminate.
Qed.

(** Claim C8 on the ids ["bogus:1"] and [5]. *)
Lemma unknown_namespace_is_fatal_witness :
  handle 1%N
    (AppRpc chainA (quoted "{'jsonrpc':'2.0','id':'bogus:1','result':null}"))
    subscribed
  = Throw InvariantError subscribed
  /\ handle 1%N (AppRpc chainA (quoted "{'jsonrpc':'2.0','id':5,'result':null}"))
       subscribed
     = Throw TypeError subscribed.
Proof.
  split.
  - destruct (unknown_namespace_is_fatal (SandboxId := N) subscribed 1%N chainA
                [(chainA, subscribed_chain)]
                (quoted "{'jsonrpc':'2.0','id':'bogus:1','result':null}")
                (VObj [(lit "jsonrpc", VStr (lit "2.0"));
                       (lit "id", VStr (lit "bogus:1"));
                       (lit "result", VNull)])
                (Some (VStr (lit "bogus:1"))))
      as (Hfatal & _ & _);
      [reflexivity|vm_compute; reflexivity|reflexivity|reflexivity|].
    apply (Hfatal (lit "bogus:1")); reflexivity.
  - destruct (unknown_namespace_is_fatal (SandboxId := N) subscribed 1%N chainA
                [(chainA, subscribed_chain)]
                (quoted "{'jsonrpc':'2.0','id':5,'result':null}")
                (VObj [(lit "jsonrpc", VStr (lit "2.0"));
                       (lit "id", VNum (NFin false [5%N] 0));
                       (lit "result", VNull)])
                (Some (VNum (NFin false [5%N] 0))))
      as (_ & Hnot_string & _);
      [reflexivity|vm_compute; reflexivity|reflexivity|reflexivity|].
    apply Hnot_string. discriminate.
Defined.

(** Claim C9 on two sandboxes, the first of which is deleted; the run
    [after_deletion] then tries to bring a chain of the deleted sandbox
    back. *)
Lemma teardown_witness :
  let st1 :=
    {| inner := {| queues := [(2%N, [])]; sent := [] |};
       sandboxesChains := [(2%N, [(chainB, new_chain)])];
       nextHealthCheckRqId := 2 |} in
  deleteSandbox 1%N two_sandboxes = Ok tt st1
  /\ (forall chainId, chain_record st1 1%N chainId = None)
  /\ exists st2,
       run after_deletion st1 = Some st2
       /\ exists done rest,
            tracked_pairs (sandboxesChains st2) = done ++ rest
            /\ final (sendPings st2) = Some (pinged st2 done)
            /\ forall s c, In (s, c) done -> s <> 1%N.
Proof.
  cbv zeta.
  assert (Hdelete :
            deleteSandbox 1%N two_sandboxes
            = Ok tt
                {| inner := {| queues := [(2%N, [])]; sent := [] |};
                   sandboxesChains := [(2%N, [(chainB, new_chain)])];
                   nextHealthCheckRqId := 2 |})
    by reflexivity.
  destruct (teardown (SandboxId := N) two_sandboxes _ 1%N Hdelete)
    as [Hgone Hpings].
  split; [exact Hdelete|]. split; [exact Hgone|].
  eexists. split; [vm_compute; reflexivity|].
  apply (Hpings after_deletion); [|vm_compute; reflexivity].
  intros o Hin. unfold after_deletion in Hin. cbn [In] in Hin.
  repeat (destruct Hin as [<-|Hin]; [discriminate|]). contradiction.
Defined.

(** Claim C10, as amended, on a notification. *)
Lemma notification_wrapped_as_extern_undefined_witness :
  sandboxMessage 1%N
    (ExtRpc chainA (quoted "{'jsonrpc':'2.0','method':'m','params':[]}"))
    one_sandbox
  = Ok tt
      (delegated one_sandbox 1%N
         (ExtRpc chainA
            (quoted "{'jsonrpc':'2.0','method':'m','params':[],'id':'extern:undefined'}"))).
Proof.
  rewrite (notification_wrapped_as_extern_undefined (SandboxId := N)
             one_sandbox 1%N chainA
             (quoted "{'jsonrpc':'2.0','method':'m','params':[]}")
             [(lit "jsonrpc", VStr (lit "2.0")); (lit "method", VStr (lit "m"));
              (lit "params", VArr [])]).
  - reflexivity.
  - vm_compute. reflexivity.
  - reflexivity.
  - reflexivity.
Defined.

(** Claim C10 as stated fails on a notification nested 5000 deep, on an
    engine whose [JSON.stringify] serialises 4500 levels: the payload
    parses to an object without [id], [JSON.stringify] throws a RangeError
    on it, and the [finally] block forwards the payload as it was, without
    an id; [sandboxMessage] then throws. *)
Lemma deep_notification_is_forwarded_without_id :
  let message := ExtRpc chainA deep_notification in
  JSON_parse deep_notification = Parsed (VObj deep_notification_props)
  /\ obj_get deep_notification_props (lit "id") = None
  /\ inner_has (inner one_sandbox) 1%N = true
  /\ sandboxMessage 1%N message one_sandbox
     = Throw RangeError (delegated one_sandbox 1%N message)
  /\ sent (inner (delegated one_sandbox 1%N message)) = [(1%N, message)].
Proof.
  cbv zeta. repeat split; vm_compute; reflexivity.
Qed.

Lemma delimited_no_digit (rest : jstring) : delimited rest -> no_digit_ahead rest.
Proof.
  destruct rest as [|c r]; [easy|]. cbn. intros [->|[->| ->]]; reflexivity.
Qed.

Lemma span_digits_more (s rest : jstring) :
  no_digit_ahead rest ->
  span_digits (s ++ rest)
  = (fst (span_digits s), snd (span_digits s) ++ rest).
Proof.
  intros Hrest. induction s as [|c s IH].
  - cbn [app span_digits fst snd]. destruct rest as [|d r]; [reflexivity|].
    cbn [span_digits]. cbn [no_digit_ahead] in Hrest. now rewrite Hrest.
  - cbn [app span_digits]. destruct (is_digit c); [|reflexivity].
    rewrite IH. destruct (span_digits s) as [ds r]. reflexivity.
Qed.

Lemma parse_int_part_more (s rest : jstring) (ip : list N) (r : jstring) :
  no_digit_ahead rest ->
  parse_int_part s = Parsed (ip, r) ->
  parse_int_part (s ++ rest) = Parsed (ip, r ++ rest).
Proof.
  intros Hrest. destruct s as [|c s]; [discriminate|].
  cbn [app parse_int_part]. destruct (c =? 48)%N.
  - intros Heq. injection Heq as <- <-. reflexivity.
  - destruct (is_digit c); [|discriminate].
    rewrite (span_digits_more s rest Hrest).
    destruct (span_digits s) as [ds r0]. cbn [fst snd].
    intros Heq. injection Heq as <- <-. reflexivity.
Qed.

Lemma parse_frac_more (s rest : jstring) (fp : list N) (r : jstring) :
  delimited rest ->
  parse_frac s = Parsed (fp, r) ->
  parse_frac (s ++ rest) = Parsed (fp, r ++ rest).
Proof.
  intros Hrest. destruct s as [|c s].
  - intros Heq. injection Heq as <- <-. cbn [app].
    destruct rest as [|d r]; [reflexivity|]. cbn [parse_frac].
    replace (d =? 46)%N with false; [reflexivity|].
    symmetry. apply N.eqb_neq. cbn in Hrest. lia.
  - cbn [app parse_frac]. destruct (c =? 46)%N.
    + rewrite (span_digits_more s rest (delimited_no_digit rest Hrest)).
      destruct (span_digits s) as [[|d ds] r0]; [discriminate|].
      cbn [fst snd]. intros Heq. injection Heq as <- <-. reflexivity.
    + intros Heq. injection Heq as <- <-. reflexivity.
Qed.

Lemma parse_exp_digits_more (minus : bool) (s rest : jstring) (ex : Z)
  (r : jstring) :
  delimited rest ->
  parse_exp_digits minus s = Parsed (ex, r) ->
  parse_exp_digits minus (s ++ rest) = Parsed (ex, r ++ rest).
Proof.
  intros Hrest. unfold parse_exp_digits.
  rewrite (span_digits_more s rest (delimited_no_digit rest Hrest)).
  destruct (span_digits s) as [[|d ds] r0]; [discriminate|].
  cbn [fst snd]. intros Heq. injection Heq as <- <-. reflexivity.
Qed.

Lemma parse_exp_more (s rest : jstring) (ex : Z) (r : jstring) :
  delimited rest ->
  parse_exp s = Parsed (ex, r) ->
  parse_exp (s ++ rest) = Parsed (ex, r ++ rest).
Proof.
  intros Hrest. destruct s as [|c s].
  - intros Heq. injection Heq as <- <-. cbn [app].
    destruct rest as [|d r]; [reflexivity|]. cbn [parse_exp].
    replace ((d =? 101)%N || (d =? 69)%N) with false; [reflexivity|].
    symmetry. apply orb_false_iff. split; apply N.eqb_neq; cbn in Hrest; lia.
  - cbn [app parse_exp]. destruct ((c =? 101)%N || (c =? 69)%N).
    + destruct s as [|d s]; [discriminate|]. cbn [app].
      destruct (d =? 43)%N; [now apply parse_exp_digits_more|].
      destruct (d =? 45)%N; [now apply parse_exp_digits_more|].
      apply (parse_exp_digits_more false (d :: s) rest ex r Hrest).
    + intros Heq. injection Heq as <- <-. reflexivity.
Qed.

(** A numeral is read the same when a delimiter follows it. *)
Lemma parse_unsigned_more (neg : bool) (s rest : jstring) (x : number)
  (r : jstring) :
  delimited rest ->
  parse_unsigned neg s = Parsed (x, r) ->
  parse_unsigned neg (s ++ rest) = Parsed (x, r ++ rest).
Proof.
  intros Hrest. unfold parse_unsigned.
  destruct (parse_int_part s) as [[ip s2]| | |] eqn:Ei; try discriminate.
  rewrite (parse_int_part_more s rest ip s2 (delimited_no_digit rest Hrest) Ei).
  destruct (parse_frac s2) as [[fp s3]| | |] eqn:Ef; try discriminate.
  rewrite (parse_frac_more s2 rest fp s3 Hrest Ef).
  destruct (parse_exp s3) as [[ex s4]| | |] eqn:Ee; try discriminate.
  rewrite (parse_exp_more s3 rest ex s4 Hrest Ee).
  destruct (number_of_literal neg ip fp ex); try discriminate.
  cbn [parsed_map]. intros Heq. injection Heq as <- <-. reflexivity.
Qed.



(** * Array indices have one spelling *)

Lemma digits_value_cons (d : N) (r : list N) :
  digits_value (d :: r) = (d * 10 ^ N.of_nat (length r) + digits_value r)%N.
Proof.
  unfold digits_value at 1. cbn [fold_left]. rewrite fold_digits_acc.
  now replace (10 * 0 + d)%N with d by lia.
Qed.

Lemma digits_value_lt (ds : list N) :
  digits_ok ds -> (digits_value ds < 10 ^ N.of_nat (length ds))%N.
Proof.
  induction 1 as [|d r Hd _ IH].
  - cbn. lia.
  - rewrite digits_value_cons. cbn [length].
    rewrite Nat2N.inj_succ, N.pow_succ_r'. nia.
Qed.

Lemma digits_same_length (a b : list N) :
  digits_ok a -> digits_ok b -> length a = length b ->
  digits_value a = digits_value b -> a = b.
Proof.
  intros Ha. revert b. induction Ha as [|d r Hd Hr IH]; intros b Hb Hlen Hval.
  - destruct b; [reflexivity|discriminate].
  - destruct Hb as [|d' r' Hd' Hr']; [discriminate|].
    cbn [length] in Hlen. injection Hlen as Hlen.
    rewrite !digits_value_cons, <- Hlen in Hval.
    pose proof (digits_value_lt r Hr) as H1.
    pose proof (digits_value_lt r' Hr') as H2. rewrite <- Hlen in H2.
    assert (d = d') by nia. subst d'.
    f_equal. apply IH; [assumption|assumption|lia].
Qed.

Lemma digits_value_ge (d : N) (r : list N) :
  d <> 0%N -> (10 ^ N.of_nat (length r) <= digits_value (d :: r))%N.
Proof. intros Hd. rewrite digits_value_cons. nia. Qed.

Lemma digits_unique (a b : list N) :
  digits_ok a -> digits_ok b -> no_leading_zero a -> no_leading_zero b ->
  digits_value a = digits_value b -> a = b.
Proof.
  intros Ha Hb Hna Hnb Hval.
  apply digits_same_length; try assumption.
  destruct (Nat.lt_trichotomy (length a) (length b)) as [Hlt|[Heq|Hgt]];
    [exfalso|exact Heq|exfalso].
  - destruct b as [|d' [|d2 r']]; cbn [length] in Hlt;
      [lia|destruct a; [contradiction|cbn [length] in Hlt; lia]|].
    cbn [no_leading_zero] in Hnb.
    pose proof (digits_value_ge d' (d2 :: r') Hnb) as Hge.
    pose proof (digits_value_lt a Ha) as Hlt'.
    assert (10 ^ N.of_nat (length a) <= 10 ^ N.of_nat (length (d2 :: r')))%N
      by (apply N.pow_le_mono_r; cbn [length] in *; lia).
    lia.
  - destruct a as [|d' [|d2 r']]; cbn [length] in Hgt;
      [lia|destruct b; [contradiction|cbn [length] in Hgt; lia]|].
    cbn [no_leading_zero] in Hna.
    pose proof (digits_value_ge d' (d2 :: r') Hna) as Hge.
    pose proof (digits_value_lt b Hb) as Hlt'.
    assert (10 ^ N.of_nat (length b) <= 10 ^ N.of_nat (length (d2 :: r')))%N
      by (apply N.pow_le_mono_r; cbn [length] in *; lia).
    lia.
Qed.

Lemma digit_val_inj (a b : jstring) :
  forallb is_digit a = true -> forallb is_digit b = true ->
  map digit_val a = map digit_val b -> a = b.
Proof.
  revert b. induction a as [|c a IH]; intros [|c' b]; cbn [map forallb];
    try discriminate; [reflexivity|].
  rewrite !andb_true_iff. intros [Hc Ha] [Hc' Hb] Heq.
  injection Heq as Hcc Hab. f_equal; [|now apply IH].
  unfold is_digit, digit_val in *.
  rewrite andb_true_iff, !N.leb_le in Hc, Hc'. lia.
Qed.

Lemma digits_ok_vals (k : jstring) :
  forallb is_digit k = true -> digits_ok (map digit_val k).
Proof.
  induction k as [|c k IH]; cbn [forallb map]; [constructor|].
  rewrite andb_true_iff. intros [Hc Hk]. constructor; [|now apply IH].
  now apply is_digit_val.
Qed.

Lemma array_index_spec (k : jstring) (i : N) :
  array_index k = Some i ->
  forallb is_digit k = true /\ no_leading_zero (map digit_val k)
  /\ digits_value (map digit_val k) = i.
Proof.
  unfold array_index. destruct k as [|c rest]; [discriminate|].
  destruct (forallb is_digit (c :: rest)) eqn:Ed; [|discriminate].
  cbn [andb].
  destruct (negb (c =? 48)%N
            || match rest with [] => true | _ :: _ => false end) eqn:Ez;
    [|discriminate].
  cbn [andb].
  destruct ((length (c :: rest) <=? 10)%nat
            && (digits_value (map digit_val (c :: rest)) <=? 4294967294)%N);
    [|discriminate].
  intros Heq. injection Heq as <-. repeat split.
  cbn [map no_leading_zero]. destruct rest as [|c2 rest]; [exact I|].
  cbn [map]. rewrite orb_false_r in Ez.
  apply negb_true_iff, N.eqb_neq in Ez.
  cbn [forallb] in Ed. apply andb_true_iff in Ed as [Hc _].
  unfold is_digit, digit_val in *.
  rewrite andb_true_iff, !N.leb_le in Hc. lia.
Qed.

(** Two property names that are the same array index are the same name. *)
Lemma array_index_inj (k k' : jstring) (i : N) :
  array_index k = Some i -> array_index k' = Some i -> k = k'.
Proof.
  intros Hk Hk'.
  apply array_index_spec in Hk as (Hd & Hz & Hv).
  apply array_index_spec in Hk' as (Hd' & Hz' & Hv').
  apply digit_val_inj; try assumption.
  apply digits_unique; try assumption; try (now apply digits_ok_vals).
  congruence.
Qed.


Lemma obj_get_None (props : list (jstring * value)) (k : jstring) :
  obj_get props k = None <-> ~ In k (map fst props).
Proof.
  induction props as [|[k' v'] props IH]; cbn [obj_get map fst In].
  - tauto.
  - destruct (str_eqb k' k) eqn:E.
    + apply str_eqb_eq in E. split; [discriminate|tauto].
    + assert (k' <> k) by (intros ->; rewrite str_eqb_refl in E; discriminate).
      tauto.
Qed.

Lemma obj_replace_keys (props : list (jstring * value)) (k : jstring)
  (v : value) :
  map fst (obj_replace props k v) = map fst props.
Proof.
  induction props as [|[k' v'] props IH]; cbn [obj_replace map fst];
    [reflexivity|].
  destruct (str_eqb k' k); cbn [map fst]; [reflexivity|now rewrite IH].
Qed.

Lemma obj_insert_index_last (props : list (jstring * value)) (i : N)
  (k : jstring) (v : value) :
  Forall (fun k' => key_before k' k) (map fst props) ->
  array_index k = Some i ->
  obj_insert_index props i k v = props ++ [(k, v)].
Proof.
  intros Hall Hk. induction props as [|[k' v'] props IH];
    cbn [obj_insert_index app]; [reflexivity|].
  cbn [map fst] in Hall. inversion Hall as [|? ? Hb Hrest]; subst.
  unfold key_before in Hb. rewrite Hk in Hb.
  destruct (array_index k') as [j|]; [|contradiction].
  apply N.ltb_lt in Hb. rewrite Hb. now rewrite IH.
Qed.

Lemma StronglySorted_snoc {A : Type} (R : A -> A -> Prop) (l : list A) (x : A) :
  StronglySorted R (l ++ [x]) -> StronglySorted R l /\ Forall (fun y => R y x) l.
Proof.
  induction l as [|a l IH]; cbn [app]; intros Hs.
  - split; constructor.
  - apply StronglySorted_inv in Hs as [Hs Ha].
    destruct (IH Hs) as [Hl Hx]. split.
    + constructor; [exact Hl|].
      apply Forall_app in Ha. tauto.
    + constructor; [|exact Hx].
      apply Forall_app in Ha as [_ Ha]. now inversion Ha.
Qed.

Lemma ordered_snoc (props : list (jstring * value)) (k : jstring) (v : value) :
  ordered (props ++ [(k, v)]) ->
  ordered props /\ obj_get props k = None
  /\ Forall (fun k' => key_before k' k) (map fst props).
Proof.
  unfold ordered. rewrite map_app. cbn [map fst]. intros [Hnd Hs].
  apply StronglySorted_snoc in Hs as [Hs Hall].
  apply NoDup_remove in Hnd as [Hnd Hin]. rewrite app_nil_r in Hnd, Hin.
  repeat split; try assumption. now apply obj_get_None.
Qed.

(** A property that comes last in the order is appended. *)
Lemma obj_set_last (props : list (jstring * value)) (k : jstring) (v : value) :
  ordered (props ++ [(k, v)]) -> obj_set props k v = props ++ [(k, v)].
Proof.
  intros Ho. apply ordered_snoc in Ho as (_ & Hget & Hall).
  unfold obj_set. rewrite Hget.
  destruct (array_index k) as [i|] eqn:Ek; [|reflexivity].
  now apply obj_insert_index_last.
Qed.

Lemma ordered_prefix (a b : list (jstring * value)) :
  ordered (a ++ b) -> ordered a.
Proof.
  revert a. induction b as [|[k v] b IH] using rev_ind; intros a.
  - now rewrite app_nil_r.
  - rewrite app_assoc. intros Ho. apply ordered_snoc in Ho as [Ho _].
    now apply IH.
Qed.

(** Setting the properties of an object one by one, in the order of the
    object, builds the object again. *)
Lemma obj_set_rebuild (props acc : list (jstring * value)) :
  ordered (acc ++ props) ->
  fold_left (fun a kv => obj_set a (fst kv) (snd kv)) props acc = acc ++ props.
Proof.
  revert acc. induction props as [|[k v] props IH]; intros acc Ho.
  - cbn [fold_left]. now rewrite app_nil_r.
  - cbn [fold_left fst snd].
    change (acc ++ (k, v) :: props) with (acc ++ [(k, v)] ++ props) in *.
    rewrite app_assoc in *.
    rewrite (obj_set_last acc k v (ordered_prefix _ _ Ho)).
    now apply IH.
Qed.

Lemma obj_insert_index_keys (props : list (jstring * value)) (i : N)
  (k : jstring) (v : value) (x : jstring) :
  In x (map fst (obj_insert_index props i k v))
  <-> x = k \/ In x (map fst props).
Proof.
  induction props as [|[k' v'] props IH]; cbn [obj_insert_index map fst In].
  - intuition.
  - destruct (array_index k') as [j|].
    + destruct (j <? i)%N; cbn [map fst In]; [rewrite IH|]; intuition.
    + cbn [map fst In]. intuition.
Qed.

Lemma key_before_Forall_trans (k k' : jstring) (l : list jstring) :
  key_before k k' -> Forall (key_before k') l -> Forall (key_before k) l.
Proof.
  intros Hb Hall. apply Forall_forall. intros x Hx.
  rewrite Forall_forall in Hall. specialize (Hall x Hx).
  unfold key_before in *.
  destruct (array_index k), (array_index k'), (array_index x);
    try contradiction; try exact I; lia.
Qed.

Lemma obj_insert_index_ordered (props : list (jstring * value)) (i : N)
  (k : jstring) (v : value) :
  ordered props -> ~ In k (map fst props) -> array_index k = Some i ->
  ordered (obj_insert_index props i k v).
Proof.
  unfold ordered. intros [Hnd Hs] Hin Hk.
  induction props as [|[k' v'] props IH]; cbn [obj_insert_index].
  - cbn [map fst]. split; repeat constructor. intros [].
  - cbn [map fst In] in *.
    apply NoDup_cons_iff in Hnd as [Hk' Hnd].
    apply StronglySorted_inv in Hs as [Hs Hall].
    assert (Hnew : NoDup (k :: k' :: map fst props)
                   /\ (key_before k k' ->
                       StronglySorted key_before (k :: k' :: map fst props))).
    { split.
      - constructor; [cbn [In]; tauto|]. constructor; assumption.
      - intros Hb. constructor; [constructor; assumption|].
        constructor; [exact Hb|]. now apply key_before_Forall_trans with k'. }
    destruct Hnew as [Hnd' Hs'].
    destruct (array_index k') as [j|] eqn:Ek'.
    + destruct (j <? i)%N eqn:Eji.
      * destruct IH as [IHnd IHs]; [assumption|assumption|tauto|].
        cbn [map fst]. split.
        -- constructor; [|exact IHnd].
           rewrite obj_insert_index_keys. intros [->|Hx]; tauto.
        -- constructor; [exact IHs|].
           apply Forall_forall. intros x Hx.
           apply obj_insert_index_keys in Hx as [->|Hx].
           ++ unfold key_before. rewrite Ek', Hk. now apply N.ltb_lt.
           ++ rewrite Forall_forall in Hall. now apply Hall.
      * cbn [map fst]. split; [exact Hnd'|]. apply Hs'.
        unfold key_before. rewrite Hk, Ek'.
        apply N.ltb_ge in Eji.
        assert (j <> i).
        { intros ->. apply Hin. left. now apply array_index_inj with i. }
        lia.
    + cbn [map fst]. split; [exact Hnd'|]. apply Hs'.
      unfold key_before. now rewrite Hk, Ek'.
Qed.

(** Assignments keep the order of enumeration. *)
Lemma obj_set_ordered (props : list (jstring * value)) (k : jstring)
  (v : value) :
  ordered props -> ordered (obj_set props k v).
Proof.
  intros Ho. unfold obj_set.
  destruct (obj_get props k) as [old|] eqn:Eg.
  - unfold ordered. rewrite obj_replace_keys. exact Ho.
  - apply obj_get_None in Eg.
    destruct (array_index k) as [i|] eqn:Ek.
    + now apply obj_insert_index_ordered.
    + destruct Ho as [Hnd Hs]. unfold ordered. rewrite map_app. cbn [map fst].
      split.
      * apply NoDup_app; [exact Hnd|repeat constructor; intros []|].
        intros x Hx [<-|[]]. contradiction.
      * clear Hnd Eg. induction (map fst props) as [|a l IH]; cbn [app].
        -- repeat constructor.
        -- apply StronglySorted_inv in Hs as [Hs Hall].
           constructor; [now apply IH|].
           apply Forall_app. split; [exact Hall|].
           constructor; [|constructor].
           unfold key_before. rewrite Ek. now destruct (array_index a).
Qed.


Section PropsForall.
Variable P : value -> Prop.

Lemma obj_replace_Forall (props : list (jstring * value)) (k : jstring)
  (v : value) :
  Forall (fun kv => P (snd kv)) props -> P v ->
  Forall (fun kv => P (snd kv)) (obj_replace props k v).
Proof.
  intros Hp Hv. induction Hp as [|[k' v'] props Hkv Hp IH];
    cbn [obj_replace]; [constructor|].
  destruct (str_eqb k' k); constructor; assumption.
Qed.

Lemma obj_insert_index_Forall (props : list (jstring * value)) (i : N)
  (k : jstring) (v : value) :
  Forall (fun kv => P (snd kv)) props -> P v ->
  Forall (fun kv => P (snd kv)) (obj_insert_index props i k v).
Proof.
  intros Hp Hv. induction Hp as [|[k' v'] props Hkv Hp IH];
    cbn [obj_insert_index]; [repeat constructor; exact Hv|].
  destruct (array_index k') as [j|]; [destruct (j <? i)%N|];
    repeat constructor; assumption.
Qed.

Lemma obj_set_Forall (props : list (jstring * value)) (k : jstring) (v : value) :
  Forall (fun kv => P (snd kv)) props -> P v ->
  Forall (fun kv => P (snd kv)) (obj_set props k v).
Proof.
  intros Hp Hv. unfold obj_set. destruct (obj_get props k).
  - now apply obj_replace_Forall.
  - destruct (array_index k).
    + now apply obj_insert_index_Forall.
    + apply Forall_app. split; [exact Hp|]. constructor; [exact Hv|constructor].
Qed.

Lemma obj_get_Forall (props : list (jstring * value)) (k : jstring) (v : value) :
  Forall (fun kv => P (snd kv)) props -> obj_get props k = Some v -> P v.
Proof.
  intros Hp. induction Hp as [|[k' v'] props Hkv Hp IH]; cbn [obj_get];
    [discriminate|].
  destruct (str_eqb k' k); [|exact IH].
  intros Heq. injection Heq as <-. exact Hkv.
Qed.
End PropsForall.

Lemma ordered_nil : ordered [].
Proof. split; constructor. Qed.

(** The parser returns well-formed values. *)
Lemma parser_well_formed (fuel : nat) :
  (forall s v rest, parse_value fuel s = Parsed (v, rest) -> well_formed v)
  /\ (forall s acc v rest,
        Forall well_formed acc ->
        parse_elements fuel s acc = Parsed (v, rest) -> well_formed v)
  /\ (forall s acc v rest,
        Forall (fun kv => well_formed (snd kv)) acc -> ordered acc ->
        parse_members fuel s acc = Parsed (v, rest) -> well_formed v).
Proof.
  induction fuel as [|fuel (IHv & IHe & IHm)].
  { repeat split; intros; discriminate. }
  repeat split.
  - intros s v rest. cbn [parse_value].
    destruct (skip_ws s) as [|c r]; [discriminate|].
    destruct (c =? 123)%N.
    { destruct (skip_ws r) as [|d r']; [discriminate|].
      destruct (d =? 125)%N.
      - intros Heq. injection Heq as <- _.
        constructor; [constructor|apply ordered_nil].
      - apply IHm; [constructor|apply ordered_nil]. }
    destruct (c =? 91)%N.
    { destruct (skip_ws r) as [|d r']; [discriminate|].
      destruct (d =? 93)%N.
      - intros Heq. injection Heq as <- _. constructor. constructor.
      - apply IHe. constructor. }
    destruct (c =? 34)%N.
    { destruct (parse_string_body r) as [[str rest']| | |]; try discriminate.
      cbn. intros Heq. injection Heq as <- _. constructor. }
    destruct ((c =? 45)%N || is_digit c).
    { destruct (parse_number (c :: r)) as [[x rest']| | |] eqn:En;
        try discriminate.
      cbn. intros Heq. injection Heq as <- _.
      apply parse_number_spec in En as [_ Hx]. now constructor. }
    destruct (startsWith (c :: r) (lit "true"));
      [intros Heq; injection Heq as <- _; constructor|].
    destruct (startsWith (c :: r) (lit "false"));
      [intros Heq; injection Heq as <- _; constructor|].
    destruct (startsWith (c :: r) (lit "null"));
      [intros Heq; injection Heq as <- _; constructor|].
    discriminate.
  - intros s acc v rest Hacc. cbn [parse_elements].
    destruct (parse_value fuel s) as [[v' rest']| | |] eqn:Ev; try discriminate.
    apply IHv in Ev.
    assert (Hacc' : Forall well_formed (acc ++ [v'])).
    { apply Forall_app. split; [exact Hacc|]. constructor; [exact Ev|constructor]. }
    destruct (skip_ws rest') as [|d r']; [discriminate|].
    destruct (d =? 44)%N; [now apply IHe|].
    destruct (d =? 93)%N; [|discriminate].
    intros Heq. injection Heq as <- _. now constructor.
  - intros s acc v rest Hacc Hord. cbn [parse_members].
    destruct (skip_ws s) as [|q r]; [discriminate|].
    destruct (q =? 34)%N; [|discriminate].
    destruct (parse_string_body r) as [[k rest']| | |]; try discriminate.
    destruct (skip_ws rest') as [|colon r1]; [discriminate|].
    destruct (colon =? 58)%N; [|discriminate].
    destruct (parse_value fuel r1) as [[v' rest2]| | |] eqn:Ev; try discriminate.
    apply IHv in Ev.
    pose proof (obj_set_Forall well_formed acc k v' Hacc Ev) as Hacc'.
    pose proof (obj_set_ordered acc k v' Hord) as Hord'.
    destruct (skip_ws rest2) as [|d r2]; [discriminate|].
    destruct (d =? 44)%N; [now apply IHm|].
    destruct (d =? 125)%N; [|discriminate].
    intros Heq. injection Heq as <- _. now constructor.
Qed.

Lemma JSON_parse_well_formed (text : jstring) (v : value) :
  JSON_parse text = Parsed v -> well_formed v.
Proof.
  unfold JSON_parse.
  destruct (parse_value (2 * length text + 2) text) as [[v' rest]| | |] eqn:Ev;
    try discriminate.
  destruct (skip_ws rest); [|discriminate].
  intros Heq. injection Heq as <-.
  destruct (parser_well_formed (2 * length text + 2)) as (Hv & _ & _).
  now apply Hv with text rest.
Qed.


Lemma value_induction (P : value -> Prop) :
  P VNull -> (forall b, P (VBool b)) -> (forall x, P (VNum x)) ->
  (forall s, P (VStr s)) ->
  (forall items, Forall P items -> P (VArr items)) ->
  (forall props, Forall (fun kv => P (snd kv)) props -> P (VObj props)) ->
  forall v, P v.
Proof.
  intros Hn Hb Hx Hs Ha Ho.
  fix IH 1. intros [|b|x|s|items|props].
  - exact Hn.
  - apply Hb.
  - apply Hx.
  - apply Hs.
  - apply Ha. revert items. fix IHl 1. intros [|v l]; constructor;
      [apply IH|apply IHl].
  - apply Ho. revert props. fix IHl 1. intros [|[k v] l]; constructor;
      [apply IH|apply IHl].
Qed.

Lemma join_cons (sep x y : jstring) (l : list jstring) :
  join sep (x :: y :: l) = x ++ sep ++ join sep (y :: l).
Proof. reflexivity. Qed.

Lemma delimited_head (rest : jstring) (c : N) (r : jstring) :
  delimited rest -> rest = c :: r -> is_ws c = false.
Proof. intros Hd ->. cbn in Hd. destruct Hd as [->|[->| ->]]; reflexivity. Qed.

(** The first character of the text of a value. *)
Lemma stringify_head (v : value) :
  well_formed v ->
  exists c tl,
    JSON_stringify v = c :: tl /\ is_ws c = false
    /\ (c =? 93)%N = false /\ (c =? 125)%N = false.
Proof.
  intros Hwf. destruct v as [|[|]|[neg|neg ds e|neg]|s|items|props];
    try (eexists; eexists; split; [reflexivity|repeat split]; fail).
  inversion Hwf as [| |x Hx| | |]; subst. destruct Hx as [Hc Hcl].
  cbn [JSON_stringify Number_toString]. destruct neg.
  - eexists; eexists; split; [reflexivity|repeat split].
  - pose proof (parse_unsigned_toString false ds e Hc Hcl) as Hp.
    destruct (parse_unsigned_head _ _ _ Hp) as (c & tl & Htext & Hdig).
    exists c, tl. cbn [app]. split; [exact Htext|].
    unfold is_digit, is_ws in *. rewrite andb_true_iff, !N.leb_le in Hdig.
    repeat split; try (apply N.eqb_neq; lia).
    repeat (apply orb_false_iff; split); apply N.eqb_neq; lia.
Qed.

Lemma reads_literal (fuel : nat) (c : N) (word r rest : jstring) (v : value) :
  is_ws c = false -> (c =? 123)%N = false -> (c =? 91)%N = false ->
  (c =? 34)%N = false -> (c =? 45)%N || is_digit c = false ->
  (if startsWith (c :: r ++ rest) (lit "true")
   then Parsed (VBool true, skipn 4 (c :: r ++ rest))
   else if startsWith (c :: r ++ rest) (lit "false")
   then Parsed (VBool false, skipn 5 (c :: r ++ rest))
   else if startsWith (c :: r ++ rest) (lit "null")
   then Parsed (VNull, skipn 4 (c :: r ++ rest))
   else SyntaxError) = Parsed (v, rest) ->
  reads (parse_value fuel ((c :: r) ++ rest)) v rest.
Proof.
  intros Hws H1 H2 H3 H4 Hword. destruct fuel as [|fuel]; [now left|].
  right. cbn [app parse_value]. rewrite (skip_ws_no_ws c _ Hws).
  now rewrite H1, H2, H3, H4.
Qed.

Lemma reads_number (fuel : nat) (neg : bool) (s rest : jstring) (x : number) :
  delimited rest ->
  parse_unsigned neg s = Parsed (x, []) ->
  reads (parse_value fuel (((if neg then lit "-" else []) ++ s) ++ rest))
    (VNum x) rest.
Proof.
  intros Hrest Hp. destruct fuel as [|fuel]; [now left|]. right.
  pose proof (parse_unsigned_more neg s rest x [] Hrest Hp) as Hmore.
  cbn [app] in Hmore.
  destruct neg.
  - change ((lit "-" ++ s) ++ rest) with (45%N :: s ++ rest).
    cbn [parse_value]. rewrite skip_ws_no_ws by reflexivity.
    change (45 =? 123)%N with false. change (45 =? 91)%N with false.
    change (45 =? 34)%N with false. change (45 =? 45)%N with true.
    cbn [orb]. cbv iota. unfold parse_number.
    change (45 =? 45)%N with true. cbv iota.
    rewrite Hmore. reflexivity.
  - destruct (parse_unsigned_head _ _ _ Hp) as (c & tl & -> & Hdig).
    destruct (digit_first c Hdig) as (Hws & H123 & H91 & H34 & H45).
    cbn [app parse_value] in *. rewrite skip_ws_no_ws by exact Hws.
    rewrite H123, H91, H34, H45, Hdig. cbn [orb]. cbv iota.
    unfold parse_number. rewrite H45, Hmore. reflexivity.
Qed.

Lemma skip_ws_delimited (rest : jstring) (c : N) (r : jstring) :
  (c = 44%N \/ c = 93%N \/ c = 125%N) -> skip_ws (c :: r) = c :: r.
Proof. intros [->|[->| ->]]; reflexivity. Qed.

(** The elements of an array are read back one after the other. *)
Lemma reads_elements (items : list value) :
  Forall (fun v => well_formed v ->
            forall fuel rest, delimited rest ->
              reads (parse_value fuel (JSON_stringify v ++ rest))
                (normalize v) rest) items ->
  Forall well_formed items -> items <> [] ->
  forall fuel acc rest,
    reads (parse_elements fuel
             (join (lit ",") (map JSON_stringify items) ++ 93%N :: rest) acc)
      (VArr (acc ++ map normalize items)) rest.
Proof.
  intros IH Hwf. induction IH as [|v items Hv _ IHitems]; [congruence|].
  intros _ fuel acc rest. inversion Hwf as [|? ? Hwfv Hwfs]; subst.
  destruct fuel as [|fuel]; [now left|].
  cbn [parse_elements map].
  destruct items as [|v2 items].
  - cbn [map join].
    destruct (Hv Hwfv fuel (93%N :: rest)) as [->| ->];
      [cbn; tauto|now left|].
    right. rewrite skip_ws_no_ws by reflexivity. reflexivity.
  - cbn [map]. rewrite join_cons, <- !app_assoc.
    change (lit "," ++ ?x) with (44%N :: x).
    destruct (Hv Hwfv fuel
                (44%N :: join (lit ",") (JSON_stringify v2 :: map JSON_stringify items)
                   ++ 93%N :: rest)) as [->| ->];
      [cbn; tauto|now left|].
    rewrite skip_ws_no_ws by reflexivity. change (44 =? 44)%N with true. cbv iota.
    specialize (IHitems Hwfs ltac:(discriminate) fuel (acc ++ [normalize v]) rest).
    rewrite <- app_assoc in IHitems. exact IHitems.
Qed.

(** The members of an object are read back one after the other. *)
Lemma reads_members (props : list (jstring * value)) :
  Forall (fun kv => well_formed (snd kv) ->
            forall fuel rest, delimited rest ->
              reads (parse_value fuel (JSON_stringify (snd kv) ++ rest))
                (normalize (snd kv)) rest) props ->
  Forall (fun kv => well_formed (snd kv)) props -> props <> [] ->
  forall fuel acc rest,
    reads (parse_members fuel
             (join (lit ",") (map member_text props) ++ 125%N :: rest) acc)
      (VObj (fold_left (fun a kv => obj_set a (fst kv) (snd kv))
               (normalize_props props) acc)) rest.
Proof.
  intros IH Hwf. induction IH as [|[k v] props Hv _ IHprops]; [congruence|].
  intros _ fuel acc rest. inversion Hwf as [|? ? Hwfv Hwfs]; subst.
  cbn [snd] in Hv, Hwfv.
  destruct fuel as [|fuel]; [now left|].
  unfold normalize_props. cbn [map fold_left fst snd].
  assert (Hkey : forall tail,
            parse_members (S fuel) (member_text (k, v) ++ tail) acc
            = match parse_value fuel (JSON_stringify v ++ tail) with
              | Parsed (v', rest2) =>
                  match skip_ws rest2 with
                  | d :: r2 =>
                      if (d =? 44)%N
                      then parse_members fuel r2 (obj_set acc k v')
                      else if (d =? 125)%N
                      then Parsed (VObj (obj_set acc k v'), r2)
                      else SyntaxError
                  | [] => SyntaxError
                  end
              | SyntaxError => SyntaxError
              | Unsupported => Unsupported
              | OutOfFuel => OutOfFuel
              end).
  { intros tail. unfold member_text, QuoteJSONString. cbn [fst snd].
    cbn [app parse_members]. rewrite skip_ws_no_ws by reflexivity.
    change (34 =? 34)%N with true. cbv iota.
    rewrite <- !app_assoc. cbn [app].
    rewrite parse_quote_body.
    change (lit ":" ++ ?x) with (58%N :: x).
    rewrite skip_ws_no_ws by reflexivity. change (58 =? 58)%N with true.
    reflexivity. }
  destruct props as [|kv2 props].
  - cbn [map join]. rewrite Hkey.
    destruct (Hv Hwfv fuel (125%N :: rest)) as [->| ->];
      [cbn; tauto|now left|].
    right. rewrite skip_ws_no_ws by reflexivity. reflexivity.
  - cbn [map]. rewrite join_cons, <- !app_assoc.
    change (lit "," ++ ?x) with (44%N :: x). rewrite Hkey.
    destruct (Hv Hwfv fuel
                (44%N :: join (lit ",") (member_text kv2 :: map member_text props)
                   ++ 125%N :: rest)) as [->| ->];
      [cbn; tauto|now left|].
    rewrite skip_ws_no_ws by reflexivity. change (44 =? 44)%N with true. cbv iota.
    exact (IHprops Hwfs ltac:(discriminate) fuel (obj_set acc k (normalize v))
             rest).
Qed.

Lemma ordered_normalize (props : list (jstring * value)) :
  ordered props -> ordered (normalize_props props).
Proof.
  unfold ordered, normalize_props. rewrite map_map. cbn [fst].
  intros Ho. exact Ho.
Qed.

(** [JSON.parse] reads the text [JSON.stringify] wrote as the value that
    was written, negative zeros and infinite Numbers apart. *)
Lemma reads_stringify (v : value) :
  well_formed v ->
  forall fuel rest, delimited rest ->
    reads (parse_value fuel (JSON_stringify v ++ rest)) (normalize v) rest.
Proof.
  induction v as [|b|x|s|items IH|props IH] using value_induction;
    intros Hwf fuel rest Hrest.
  - apply (reads_literal fuel 110%N (lit "null") (lit "ull") rest VNull);
      reflexivity.
  - destruct b.
    + apply (reads_literal fuel 116%N (lit "true") (lit "rue") rest (VBool true));
        reflexivity.
    + apply (reads_literal fuel 102%N (lit "false") (lit "alse") rest
               (VBool false)); reflexivity.
  - destruct x as [neg|neg ds e|neg].
    + apply (reads_number fuel false (lit "0") rest (NZero false) Hrest).
      reflexivity.
    + inversion Hwf as [| |x Hx| | |]; subst. destruct Hx as [Hc Hcl].
      apply (reads_number fuel neg (positive_to_string ds e) rest
               (NFin neg ds e) Hrest).
      now apply parse_unsigned_toString.
    + apply (reads_literal fuel 110%N (lit "null") (lit "ull") rest VNull);
        reflexivity.
  - destruct fuel as [|fuel]; [now left|]. right.
    cbn [JSON_stringify normalize]. unfold QuoteJSONString.
    cbn [app parse_value]. rewrite skip_ws_no_ws by reflexivity.
    change (34 =? 123)%N with false. change (34 =? 91)%N with false.
    change (34 =? 34)%N with true. cbv iota.
    rewrite <- app_assoc. cbn [app]. now rewrite parse_quote_body.
  - inversion Hwf as [| | | |? Hitems|]; subst.
    destruct fuel as [|fuel]; [now left|].
    cbn [JSON_stringify normalize].
    change (lit "[" ++ ?x) with (91%N :: x). cbn [app].
    rewrite <- app_assoc. change (lit "]" ++ rest) with (93%N :: rest).
    cbn [parse_value]. rewrite skip_ws_no_ws by reflexivity.
    change (91 =? 123)%N with false. change (91 =? 91)%N with true. cbv iota.
    destruct items as [|v items].
    + right. reflexivity.
    + pose proof (reads_elements (v :: items) IH Hitems ltac:(discriminate)
                    fuel [] rest) as Hread.
      inversion Hitems as [|? ? Hwfv _]; subst.
      destruct (stringify_head v Hwfv) as (c & tl & Hc & Hws & H93 & _).
      assert (Hjoin : exists tl',
                 join (lit ",") (map JSON_stringify (v :: items))
                   ++ 93%N :: rest = c :: tl').
      { cbn [map]. destruct items as [|v2 items].
        - cbn [join]. rewrite Hc. eexists. reflexivity.
        - cbn [map]. rewrite join_cons, Hc. eexists. reflexivity. }
      destruct Hjoin as [tl' Hjoin]. rewrite Hjoin in *.
      rewrite (skip_ws_no_ws c tl' Hws), H93. exact Hread.
  - inversion Hwf as [| | | | |? Hprops Hord]; subst.
    destruct fuel as [|fuel]; [now left|].
    cbn [JSON_stringify normalize].
    change (lit "{" ++ ?x) with (123%N :: x). cbn [app].
    rewrite <- app_assoc. change (lit "}" ++ rest) with (125%N :: rest).
    cbn [parse_value]. rewrite skip_ws_no_ws by reflexivity.
    change (123 =? 123)%N with true. cbv iota.
    destruct props as [|kv props].
    + right. reflexivity.
    + pose proof (reads_members (kv :: props) IH Hprops ltac:(discriminate)
                    fuel [] rest) as Hread.
      rewrite (obj_set_rebuild (normalize_props (kv :: props)) [])
        in Hread by (cbn [app]; now apply ordered_normalize).
      cbn [app] in Hread.
      assert (Hjoin : exists tl',
                 join (lit ",") (map member_text (kv :: props))
                   ++ 125%N :: rest = 34%N :: tl').
      { cbn [map]. destruct props as [|kv2 props].
        - cbn [join]. eexists. reflexivity.
        - cbn [map]. rewrite join_cons. eexists. reflexivity. }
      destruct Hjoin as [tl' Hjoin].
      change (map (fun kv0 => QuoteJSONString (fst kv0) ++ lit ":"
                                ++ JSON_stringify (snd kv0)) (kv :: props))
        with (map member_text (kv :: props)).
      rewrite Hjoin in *.
      rewrite skip_ws_no_ws by reflexivity. change (34 =? 125)%N with false.
      exact Hread.
Qed.

(** [JSON.parse (JSON.stringify v)] is [v], negative zeros and infinite
    Numbers apart. *)
Lemma JSON_parse_stringify (v : value) :
  well_formed v -> JSON_parse (JSON_stringify v) = Parsed (normalize v).
Proof.
  intros Hwf.
  pose proof (JSON_parse_fuel (JSON_stringify v)) as Hfuel.
  unfold JSON_parse in *.
  pose proof (reads_stringify v Hwf (2 * length (JSON_stringify v) + 2) [] I)
    as Hread.
  rewrite app_nil_r in Hread.
  destruct Hread as [Hread|Hread]; rewrite Hread in *; [congruence|].
  reflexivity.
Qed.



(** * Objects after an assignment *)

Lemma obj_insert_index_get (props : list (jstring * value)) (i : N)
  (k : jstring) (v : value) (k' : jstring) :
  obj_get props k = None ->
  obj_get (obj_insert_index props i k v) k'
  = if str_eqb k k' then Some v else obj_get props k'.
Proof.
  induction props as [|[k0 v0] props IH]; cbn [obj_insert_index obj_get];
    [reflexivity|].
  destruct (str_eqb k0 k) eqn:E0; [discriminate|]. intros Hnone.
  assert (Hpush : obj_get ((k, v) :: (k0, v0) :: props) k'
                  = if str_eqb k k' then Some v
                    else if str_eqb k0 k' then Some v0 else obj_get props k')
    by reflexivity.
  destruct (array_index k0) as [j|]; [destruct (j <? i)%N|]; try exact Hpush.
  cbn [obj_get]. rewrite (IH Hnone).
  destruct (str_eqb k0 k') eqn:E1; [|reflexivity].
  apply str_eqb_eq in E1. subst k'. now rewrite str_eqb_neq
    by (intros ->; rewrite str_eqb_refl in E0; discriminate).
Qed.

Lemma obj_get_app (a b : list (jstring * value)) (k : jstring) :
  obj_get (a ++ b) k
  = match obj_get a k with Some v => Some v | None => obj_get b k end.
Proof.
  induction a as [|[k0 v0] a IH]; cbn [app obj_get]; [reflexivity|].
  now destruct (str_eqb k0 k).
Qed.

Lemma obj_replace_get_other (props : list (jstring * value)) (k : jstring)
  (v : value) (k' : jstring) :
  k' <> k -> obj_get (obj_replace props k v) k' = obj_get props k'.
Proof.
  intros Hne. induction props as [|[k0 v0] props IH];
    cbn [obj_replace obj_get]; [reflexivity|].
  destruct (str_eqb k0 k) eqn:E0; cbn [obj_get].
  - apply str_eqb_eq in E0. subst k0.
    now rewrite str_eqb_neq by congruence.
  - now rewrite IH.
Qed.

(** Reading a property after an assignment. *)
Lemma obj_get_set_same (props : list (jstring * value)) (k : jstring)
  (v : value) :
  obj_get (obj_set props k v) k = Some v.
Proof.
  unfold obj_set. destruct (obj_get props k) as [old|] eqn:Eg.
  - now apply obj_get_replace with old.
  - destruct (array_index k).
    + rewrite obj_insert_index_get by exact Eg. now rewrite str_eqb_refl.
    + rewrite obj_get_app, Eg. cbn [obj_get]. now rewrite str_eqb_refl.
Qed.

Lemma obj_get_set_other (props : list (jstring * value)) (k : jstring)
  (v : value) (k' : jstring) :
  k' <> k -> obj_get (obj_set props k v) k' = obj_get props k'.
Proof.
  intros Hne. unfold obj_set. destruct (obj_get props k) as [old|] eqn:Eg.
  - now apply obj_replace_get_other.
  - assert (Hf : str_eqb k k' = false) by (apply str_eqb_neq; congruence).
    destruct (array_index k).
    + rewrite obj_insert_index_get by exact Eg. now rewrite Hf.
    + rewrite obj_get_app. destruct (obj_get props k'); [reflexivity|].
      cbn [obj_get]. now rewrite Hf.
Qed.

Lemma obj_get_normalize (props : list (jstring * value)) (k : jstring) :
  obj_get (normalize_props props) k = option_map normalize (obj_get props k).
Proof.
  unfold normalize_props.
  induction props as [|[k0 v0] props IH]; cbn [map obj_get fst snd];
    [reflexivity|].
  now destruct (str_eqb k0 k).
Qed.

Lemma well_formed_set (props : list (jstring * value)) (k : jstring)
  (v : value) :
  well_formed (VObj props) -> well_formed v ->
  well_formed (VObj (obj_set props k v)).
Proof.
  intros Hwf Hv. inversion Hwf as [| | | | |? Hprops Hord]; subst.
  constructor; [now apply obj_set_Forall|now apply obj_set_ordered].
Qed.

(** * The requests of the class as JSON texts *)

Lemma json_rpc_request_well_formed (id method : jstring) (params : list value) :
  Forall well_formed params ->
  well_formed (json_rpc_request id method params).
Proof.
  intros Hp. unfold json_rpc_request. constructor.
  - repeat constructor. exact Hp.
  - split; cbn [map fst].
    + repeat constructor; cbn [In]; intros H;
        repeat (destruct H as [H|H]; [discriminate|]); exact H.
    + repeat constructor.
Qed.

Lemma follow_request_parsed (n : N) :
  JSON_parse (follow_request n)
  = Parsed (json_rpc_request (ready_sub_id n)
              (lit "chainHead_unstable_follow") [VBool true]).
Proof.
  unfold follow_request. rewrite JSON_parse_stringify; [reflexivity|].
  apply json_rpc_request_well_formed. repeat constructor.
Qed.

Lemma health_request_parsed (n : N) :
  JSON_parse (health_request n)
  = Parsed (json_rpc_request (health_check_id n) (lit "system_health") []).
Proof.
  unfold health_request. rewrite JSON_parse_stringify; [reflexivity|].
  apply json_rpc_request_well_formed. constructor.
Qed.

Lemma internal_request_parsed (text : jstring) :
  internal_request text ->
  exists props,
    JSON_parse text = Parsed (VObj props)
    /\ exists id, obj_get props (lit "id") = Some (VStr id)
                  /\ startsWith id (lit "extern:") = false.
Proof.
  intros [n [->| ->]].
  - rewrite follow_request_parsed. eexists. split; [reflexivity|].
    exists (ready_sub_id n). split; reflexivity.
  - rewrite health_request_parsed. eexists. split; [reflexivity|].
    exists (health_check_id n). split; reflexivity.
Qed.

(** What the [try] block has done when it completes. *)
Lemma wrap_id_normal `{Engine} (text text' : jstring) :
  wrap_id text = Normal text' ->
  exists v id wrapped,
    JSON_parse text = Parsed v
    /\ get_prop (Some v) (lit "id") = Normal id
    /\ set_prop v (lit "id")
         (VStr (concat_js (lit "extern:") (option_map JSON_stringify id)))
       = Normal wrapped
    /\ text' = JSON_stringify wrapped.
Proof.
  unfold wrap_id, JSON_parse_js.
  destruct (JSON_parse text) as [v| | |]; try discriminate.
  cbn [completion_bind].
  destruct (get_prop (Some v) (lit "id")) as [id| |] eqn:Eg;
    try discriminate.
  cbn [completion_bind]. unfold JSON_stringify_js.
  destruct (within_stack id); [|discriminate]. cbn [completion_bind].
  destruct (set_prop v (lit "id") _) as [wrapped| |] eqn:Es;
    try discriminate.
  cbn [completion_bind]. unfold JSON_stringify_object.
  destruct (within_stack (Some wrapped)); [|discriminate].
  intros Heq. exists v, id, wrapped. repeat split; congruence.
Qed.

(** The payload [sandboxMessage] forwards after wrapping the id is never
    one of the requests of the class. *)
Lemma wrapped_not_internal `{Engine} (text text' : jstring) :
  wrap_id text = Normal text' -> ~ internal_request text'.
Proof.
  intros Hw.
  destruct (wrap_id_normal text text' Hw) as (v & id & wrapped & Ep & _ & Es & ->).
  apply JSON_parse_well_formed in Ep.
  destruct v as [|b|x|s|items|props]; cbn [set_prop] in Es;
    try discriminate.
  - (* an array *)
    intros Hint.
    assert (Hwrapped : wrapped = VArr items) by congruence.
    subst wrapped. clear Es.
    apply internal_request_parsed in Hint as (props & Hp & _).
    rewrite (JSON_parse_stringify (VArr items) Ep) in Hp. discriminate.
  - (* an object *)
    intros Hint.
    set (w := concat_js (lit "extern:") (option_map JSON_stringify id)) in *.
    assert (Hwrapped : wrapped = VObj (obj_set props (lit "id") (VStr w)))
      by congruence.
    subst wrapped. clear Es.
    apply internal_request_parsed in Hint as (props' & Hp & id' & Hid & Hpre).
    rewrite JSON_parse_stringify in Hp
      by (apply well_formed_set; [exact Ep|constructor]).
    injection Hp as <-.
    change (map (fun kv => (fst kv, normalize (snd kv)))
              (obj_set props (lit "id") (VStr w)))
      with (normalize_props (obj_set props (lit "id") (VStr w))) in Hid.
    rewrite obj_get_normalize, obj_get_set_same in Hid.
    cbn [option_map normalize] in Hid. injection Hid as <-.
    unfold w, concat_js in Hpre.
    destruct (option_map JSON_stringify id);
      rewrite startsWith_app in Hpre; discriminate.
Qed.

(** A payload that is not the JSON text of an object is not one of the
    requests of the class. *)
Lemma unparsed_not_internal (text : jstring) :
  (forall props, JSON_parse text <> Parsed (VObj props)) ->
  ~ internal_request text.
Proof.
  intros Hno Hint.
  apply internal_request_parsed in Hint as (props & Hp & _).
  now apply (Hno props).
Qed.

(** The [try] block completes on a request of the class: its nesting is
    within the limit of the engine. *)
Lemma wrap_id_own `{Engine} (id method : jstring) (params : list value)
  (text : jstring) :
  JSON_parse text = Parsed (json_rpc_request id method params) ->
  (depth (VArr params) <= 1)%nat ->
  exists text', wrap_id text = Normal text'.
Proof.
  intros Hp Hparams. unfold wrap_id, JSON_parse_js. rewrite Hp.
  unfold json_rpc_request. cbn [completion_bind get_prop].
  change (obj_get _ (lit "id")) with (Some (VStr id)).
  unfold JSON_stringify_js.
  rewrite within_stack_flat by reflexivity.
  cbn [completion_bind set_prop option_map concat_js].
  rewrite JSON_stringify_object_fits; [eauto|].
  etransitivity; [apply depth_obj_set_flat; reflexivity|].
  pose proof stack_limit_own as Hown.
  rewrite !depth_obj_cons. cbn [snd]. rewrite depth_obj.
  cbn [fold_right depth] in *. lia.
Qed.

(** The payload is forwarded as it is when the wrapping fails, and it is
    then none of the requests of the class. *)
Lemma wrap_id_fails `{Engine} (text : jstring) (e : exn) :
  wrap_id text = Abrupt e -> ~ internal_request text.
Proof.
  intros Hw [n [->| ->]].
  - destruct (wrap_id_own _ _ _ _ (follow_request_parsed n)) as [t Ht];
      [cbn; lia|congruence].
  - destruct (wrap_id_own _ _ _ _ (health_request_parsed n)) as [t Ht];
      [cbn; lia|congruence].
Qed.



Section Effects.
Context {SandboxId : Type} `{EqKey SandboxId} `{Engine}.
Implicit Types (st : state (SandboxId := SandboxId)) (sandboxId : SandboxId).

Lemma touches_only_refl sandboxId st : touches_only sandboxId st st.
Proof. split; reflexivity. Qed.

Lemma touches_only_set sandboxId st chains chains' :
  map_get key_eqb (sandboxesChains st) sandboxId = Some chains ->
  map_keys (map_set key_eqb (sandboxesChains st) sandboxId chains')
  = map_keys (sandboxesChains st)
  /\ forall s, s <> sandboxId ->
       map_get key_eqb (map_set key_eqb (sandboxesChains st) sandboxId chains') s
       = map_get key_eqb (sandboxesChains st) s.
Proof.
  intros Hc. split.
  - now apply map_keys_set_present with chains.
  - intros s Hs. apply map_get_set_other. congruence.
Qed.

Ltac run_handle :=
  unfold handle, lookup_chain, store_chain, update_chains, JSON_parse_js,
    bind, lift, ret, throw, get_sandboxesChains, set_sandboxesChains,
    get_counter, set_counter, inner_sandboxMessage, set_inner;
  repeat match goal with
         | |- context [match ?x with _ => _ end] =>
             lazymatch x with
             | context [match _ with _ => _ end] => fail
             | _ => destruct x eqn:?
             end
         end.

Lemma handle_summary sandboxId (toApplication : ToApplication) st st' :
  final (handle sandboxId toApplication st) = Some st' ->
  queues (inner st') = queues (inner st)
  /\ touches_only sandboxId st st'
  /\ sends_at_most_one sandboxId st st'.
Proof.
  destruct toApplication as [chainId|chainId text|chainId msg|type];
    run_handle; cbn [final]; intros Heq; try discriminate;
    injection Heq as <-; cbn [inner queues sent sandboxesChains
                                nextHealthCheckRqId];
    (split; [reflexivity|]);
    (split;
     [ first [ split; reflexivity
             | eapply touches_only_set; eassumption ]
     | first [ left; split; reflexivity
             | right; left; eexists; split; [reflexivity|];
               first [left; reflexivity|right; reflexivity]
             | right; right; eexists; split; reflexivity ] ]).
Qed.
End Effects.



Section MoreMapFacts.
Context {K V : Type} `{EqKey K}.

Lemma map_set_absent (m : list (K * V)) (k : K) (v : V) :
  map_get key_eqb m k = None -> map_set key_eqb m k v = m ++ [(k, v)].
Proof.
  induction m as [|[k0 v0] m IH]; cbn [map_get map_set app]; [reflexivity|].
  destruct (key_eqb k0 k); [discriminate|]. intros Hg. now rewrite IH.
Qed.

Lemma map_keys_deleted (m : list (K * V)) (k : K) :
  map_keys (map_delete key_eqb m k)
  = filter (fun x => negb (key_eqb x k)) (map_keys m).
Proof.
  unfold map_keys. induction m as [|[k0 v0] m IH];
    cbn [map_delete map fst filter]; [reflexivity|].
  destruct (key_eqb k0 k); cbn [negb map fst]; now rewrite IH.
Qed.

Lemma map_delete_absent (m : list (K * V)) (k : K) :
  map_get key_eqb m k = None -> map_delete key_eqb m k = m.
Proof.
  induction m as [|[k0 v0] m IH]; cbn [map_get map_delete]; [reflexivity|].
  destruct (key_eqb k0 k); [discriminate|]. intros Hg. now rewrite IH.
Qed.

Lemma map_delete_app (m m' : list (K * V)) (k : K) :
  map_delete key_eqb (m ++ m') k
  = map_delete key_eqb m k ++ map_delete key_eqb m' k.
Proof.
  induction m as [|[k0 v0] m IH]; cbn [app map_delete]; [reflexivity|].
  destruct (key_eqb k0 k); cbn [app]; now rewrite IH.
Qed.

Lemma map_get_delete_other (m : list (K * V)) (k k' : K) :
  k <> k' ->
  map_get key_eqb (map_delete key_eqb m k) k' = map_get key_eqb m k'.
Proof.
  intros Hne. induction m as [|[k0 v0] m IH]; cbn [map_delete map_get];
    [reflexivity|].
  destruct (key_eqb k0 k) eqn:E; cbn [map_get].
  - apply key_eqb_eq in E. subst k0. now rewrite key_eqb_neq.
  - now rewrite IH.
Qed.
End MoreMapFacts.

Section Requests.
Context {SandboxId : Type} `{EqKey SandboxId} `{Engine}.
Implicit Types (st : state (SandboxId := SandboxId)) (sandboxId : SandboxId).

Lemma request_step_from st0 st st' :
  sent (inner st0) = sent (inner st) ->
  nextHealthCheckRqId st0 = nextHealthCheckRqId st ->
  request_step st st' -> request_step st0 st'.
Proof.
  intros Hs Hn [s Hstep|s m Hsent Hcount Hm].
  - apply step_internal with s. unfold sends_at_most_one in *.
    rewrite Hs, Hn. exact Hstep.
  - apply step_client with s m; [rewrite Hs|rewrite Hn|]; assumption.
Qed.

Lemma request_steps_from st0 st st' :
  sent (inner st0) = sent (inner st) ->
  nextHealthCheckRqId st0 = nextHealthCheckRqId st ->
  request_steps st st' -> request_steps st0 st'.
Proof.
  intros Hs Hn Hsteps. destruct Hsteps as [st st' Hs' Hn'|st st1 st' Hstep Hrest].
  - apply steps_nil; congruence.
  - apply steps_cons with st1; [|exact Hrest].
    now apply request_step_from with st.
Qed.

Lemma request_steps_trans st st1 st' :
  request_steps st st1 -> request_steps st1 st' -> request_steps st st'.
Proof.
  intros H1 H2. induction H1 as [st st1 Hs Hn|st st0 st1 Hstep _ IH].
  - apply request_steps_from with st1; [symmetry|symmetry|]; assumption.
  - apply steps_cons with st0; [exact Hstep|now apply IH].
Qed.

Lemma request_steps_one st st' : request_step st st' -> request_steps st st'.
Proof. intros Hs. apply steps_cons with st'; [exact Hs|]. now apply steps_nil. Qed.

Lemma touches_only_trans sandboxId st st1 st' :
  touches_only sandboxId st st1 -> touches_only sandboxId st1 st' ->
  touches_only sandboxId st st'.
Proof.
  intros [Hk1 Ho1] [Hk2 Ho2]. split; [congruence|].
  intros s Hs. rewrite Ho2, Ho1; auto.
Qed.

(** The counter never goes back. *)
Lemma request_step_counter st st' :
  request_step st st' -> (nextHealthCheckRqId st <= nextHealthCheckRqId st')%N.
Proof.
  intros [s [[_ Hn]|[(c & _ & [Hn|Hn])|(c & _ & Hn)]]|s m _ Hn _];
    rewrite Hn; try lia; apply js_succ_le.
Qed.

Lemma request_steps_counter st st' :
  request_steps st st' -> (nextHealthCheckRqId st <= nextHealthCheckRqId st')%N.
Proof.
  induction 1 as [st st' _ Hn|st st1 st' Hstep _ IH]; [lia|].
  apply request_step_counter in Hstep. lia.
Qed.

Lemma sent_entry_text (s s' : SandboxId) (c c' t t' : jstring) :
  (s, ExtRpc c t) = (s', ExtRpc c' t') -> t = t'.
Proof. intros Heq. now injection Heq. Qed.

Lemma sent_entry_message (s s' : SandboxId) (m m' : ToExtension) :
  (s, m) = (s', m') -> m = m'.
Proof. intros Heq. now injection Heq. Qed.

Lemma request_step_numbered st st' :
  request_step st st' -> (nextHealthCheckRqId st' < 2 ^ 53)%N ->
  numbered st -> numbered st'.
Proof.
  intros Hstep Hbound Hnum.
  pose proof (request_step_counter st st' Hstep) as Hle.
  assert (Hlt : (nextHealthCheckRqId st < js_succ (nextHealthCheckRqId st))%N)
    by (apply js_succ_lt; lia).
  intros s c n. destruct (Hnum s c n) as [Hh Hf].
  destruct Hstep as [s0 [[Hs Hn]|[(c0 & Hs & Hn)|(c0 & Hs & Hn)]]|s0 m Hs Hn Hm];
    rewrite Hs; rewrite ?in_app_iff; cbn [In]; split.
  - rewrite Hn. exact Hh.
  - rewrite Hn. exact Hf.
  - intros [Hin|[Heq|[]]]; [specialize (Hh Hin); lia|].
    apply sent_entry_text in Heq. now apply follow_request_not_health in Heq.
  - intros [Hin|[Heq|[]]]; [specialize (Hf Hin); lia|].
    apply sent_entry_text in Heq. apply follow_request_inj in Heq. subst n. lia.
  - intros [Hin|[Heq|[]]]; [specialize (Hh Hin); lia|].
    apply sent_entry_text in Heq. apply health_request_inj in Heq. subst n. lia.
  - intros [Hin|[Heq|[]]]; [specialize (Hf Hin); lia|].
    apply sent_entry_text in Heq. symmetry in Heq.
    now apply follow_request_not_health in Heq.
  - intros [Hin|[Heq|[]]]; [specialize (Hh Hin); lia|].
    apply sent_entry_message in Heq. exfalso.
    apply (Hm c (health_request n)); [now symmetry|]. exists n. now right.
  - intros [Hin|[Heq|[]]]; [specialize (Hf Hin); lia|].
    apply sent_entry_message in Heq. exfalso.
    apply (Hm c (follow_request n)); [now symmetry|]. exists n. now left.
Qed.

Lemma request_steps_numbered st st' :
  request_steps st st' -> (nextHealthCheckRqId st' < 2 ^ 53)%N ->
  numbered st -> numbered st'.
Proof.
  induction 1 as [st st' Hs Hn|st st1 st' Hstep Hrest IH]; intros Hbound Hnum.
  - intros s c n. rewrite Hs, Hn. apply Hnum.
  - apply IH; [exact Hbound|].
    apply (request_step_numbered st st1 Hstep); [|exact Hnum].
    apply request_steps_counter in Hrest. lia.
Qed.
End Requests.



Section Operations.
Context {SandboxId : Type} `{EqKey SandboxId} `{Engine}.
Implicit Types (st : state (SandboxId := SandboxId)) (sandboxId : SandboxId).

Lemma dequeued_same sandboxId st q rest :
  map_get key_eqb (queues (inner st)) sandboxId = Some q ->
  same_sandboxes st (dequeued st sandboxId rest)
  /\ map_get key_eqb (queues (inner (dequeued st sandboxId rest))) sandboxId
     = Some rest
  /\ touches_only sandboxId st (dequeued st sandboxId rest)
  /\ sent (inner (dequeued st sandboxId rest)) = sent (inner st)
  /\ nextHealthCheckRqId (dequeued st sandboxId rest) = nextHealthCheckRqId st.
Proof.
  intros Hq. unfold same_sandboxes, touches_only, dequeued.
  cbn [inner queues sent sandboxesChains nextHealthCheckRqId].
  split; [split; [now apply map_keys_set_present with q|reflexivity]|].
  split; [apply map_get_set_same|]. repeat split.
Qed.

Lemma same_sandboxes_trans st st1 st' :
  same_sandboxes st st1 -> same_sandboxes st1 st' -> same_sandboxes st st'.
Proof. intros [H1 H2] [H3 H4]. split; congruence. Qed.

(** One turn of the loop after the inner manager handed over a message. *)
Lemma dequeue_handle_summary sandboxId (item : ToApplication) st st2 q rest :
  map_get key_eqb (queues (inner st)) sandboxId = Some q ->
  final (handle sandboxId item (dequeued st sandboxId rest)) = Some st2 ->
  same_sandboxes st st2
  /\ map_get key_eqb (queues (inner st2)) sandboxId = Some rest
  /\ touches_only sandboxId st st2
  /\ request_step st st2.
Proof.
  intros Hq Hfinal.
  destruct (dequeued_same sandboxId st q rest Hq)
    as (Hsame & Hq1 & Htouch1 & Hsent1 & Hn1).
  destruct (handle_summary sandboxId item _ st2 Hfinal)
    as (Hqs & Htouch & Hsend).
  split; [|split; [|split]].
  - apply same_sandboxes_trans with (dequeued st sandboxId rest);
      [exact Hsame|]. split; [congruence|apply Htouch].
  - congruence.
  - now apply touches_only_trans with (dequeued st sandboxId rest).
  - apply request_step_from with (dequeued st sandboxId rest);
      [now symmetry|now symmetry|]. now apply step_internal with sandboxId.
Qed.

Lemma pull_summary sandboxId (items : list ToApplication) :
  forall st st' q,
    map_get key_eqb (queues (inner st)) sandboxId = Some q ->
    final (pull sandboxId items st) = Some st' ->
    same_sandboxes st st'
    /\ touches_only sandboxId st st'
    /\ request_steps st st'.
Proof.
  induction items as [|item rest IH]; intros st st' q Hq.
  - cbn [pull]. unfold ret. cbn [final]. intros Heq.
    injection Heq as <-. split; [split; reflexivity|].
    split; [apply touches_only_refl|now apply steps_nil].
  - cbn [pull]. unfold bind at 1. unfold set_queue, set_inner.
    cbv beta iota. fold (dequeued st sandboxId rest).
    unfold bind.
    pose proof (fun st2 => dequeue_handle_summary sandboxId item st st2 q rest Hq)
      as Hsum.
    destruct (handle sandboxId item (dequeued st sandboxId rest))
      as [[m|] st2|e st2|]; cbn [final] in *; try discriminate.
    + unfold ret. cbn [final]. intros Heq. injection Heq as <-.
      destruct (Hsum st2 eq_refl) as (Hs & _ & Ht & Hr).
      split; [exact Hs|]. split; [exact Ht|now apply request_steps_one].
    + intros Hfinal.
      destruct (Hsum st2 eq_refl) as (Hs & Hq2 & Ht & Hr).
      destruct (IH st2 st' rest Hq2 Hfinal) as (Hs' & Ht' & Hr').
      split; [now apply same_sandboxes_trans with st2|].
      split; [now apply touches_only_trans with st2|].
      now apply steps_cons with st2.
    + intros Heq. injection Heq as <-.
      destruct (Hsum st2 eq_refl) as (Hs & _ & Ht & Hr).
      split; [exact Hs|]. split; [exact Ht|now apply request_steps_one].
Qed.

Lemma nextSandboxMessage_summary sandboxId st st' :
  final (nextSandboxMessage sandboxId st) = Some st' ->
  same_sandboxes st st' /\ touches_only sandboxId st st'
  /\ request_steps st st'.
Proof.
  unfold nextSandboxMessage.
  destruct (map_get key_eqb (queues (inner st)) sandboxId) as [items|] eqn:Eq.
  - intros Hfinal. exact (pull_summary sandboxId items st st' items Eq Hfinal).
  - cbn [final]. intros Heq. injection Heq as <-.
    split; [split; reflexivity|].
    split; [apply touches_only_refl|now apply steps_nil].
Qed.

Lemma resume_summary sandboxId (item : ToApplication) st st' :
  final (handle sandboxId item st) = Some st' ->
  same_sandboxes st st' /\ touches_only sandboxId st st'
  /\ request_steps st st'.
Proof.
  intros Hfinal.
  destruct (handle_summary sandboxId item st st' Hfinal) as (Hq & Ht & Hs).
  split; [split; [congruence|apply Ht]|]. split; [exact Ht|].
  apply request_steps_one. now apply step_internal with sandboxId.
Qed.

Lemma turn_summary sandboxId st st' :
  final (turn sandboxId st) = Some st' ->
  same_sandboxes st st' /\ touches_only sandboxId st st'
  /\ request_steps st st'.
Proof.
  unfold turn.
  destruct (map_get key_eqb (queues (inner st)) sandboxId)
    as [[|item rest]|] eqn:Eq;
    try (cbn [final]; intros Heq; injection Heq as <-;
         split; [split; reflexivity|];
         split; [apply touches_only_refl|now apply steps_nil]).
  unfold bind at 1. unfold set_queue, set_inner. cbv beta iota.
  fold (dequeued st sandboxId rest).
  unfold bind.
  pose proof (fun st2 => dequeue_handle_summary sandboxId item st st2 _ rest Eq)
    as Hsum.
  destruct (handle sandboxId item (dequeued st sandboxId rest))
    as [a st2|e st2|]; unfold ret; cbn [final] in *; try discriminate;
    intros Heq; injection Heq as <-;
    destruct (Hsum st2 eq_refl) as (Hs & _ & Ht & Hr);
    (split; [exact Hs|]); (split; [exact Ht|now apply request_steps_one]).
Qed.

Lemma sandboxMessage_steps sandboxId (message : ToExtension) st st' :
  final (sandboxMessage sandboxId message st) = Some st' ->
  queues (inner st') = queues (inner st)
  /\ touches_only sandboxId st st'
  /\ nextHealthCheckRqId st' = nextHealthCheckRqId st
  /\ (sent (inner st') = sent (inner st)
      \/ exists m, sent (inner st') = sent (inner st) ++ [(sandboxId, m)]
                   /\ client_message m).
Proof.
  destruct message as [chainId text|chainId|type]; unfold sandboxMessage.
  - cbv zeta. unfold bind, try_finally, inner_sandboxMessage, set_inner, ret.
    destruct (wrap_id text) as [text'|e|] eqn:Ew;
      destruct (inner_has (inner st) sandboxId);
      cbn [final]; intros Heq; try discriminate; injection Heq as <-;
      cbn [inner queues sent sandboxesChains nextHealthCheckRqId];
      (split; [reflexivity|]); (split; [split; reflexivity|]);
      (split; [reflexivity|]); try (left; reflexivity);
      right; eexists; (split; [reflexivity|]);
      intros c t Heq; injection Heq as _ <-.
    + now apply wrapped_not_internal with text.
    + now apply wrap_id_fails with e.
  - unfold update_chains, bind, get_sandboxesChains, set_sandboxesChains,
      throw, inner_sandboxMessage, set_inner.
    destruct (map_get key_eqb (sandboxesChains st) sandboxId) as [chains|]
      eqn:Ec; cbn [inner];
      [destruct (inner_has (inner st) sandboxId)|];
      cbn [final]; intros Heq; injection Heq as <-;
      cbn [inner queues sent sandboxesChains nextHealthCheckRqId];
      (split; [reflexivity|]);
      (split; [first [split; reflexivity
                     |eapply touches_only_set; eassumption]|]);
      (split; [reflexivity|]); try (left; reflexivity).
    right. eexists. split; [reflexivity|]. intros c t Heq. discriminate.
  - unfold inner_sandboxMessage, set_inner.
    destruct (inner_has (inner st) sandboxId);
      cbn [final]; intros Heq; injection Heq as <-;
      cbn [inner queues sent sandboxesChains nextHealthCheckRqId];
      (split; [reflexivity|]); (split; [split; reflexivity|]);
      (split; [reflexivity|]); try (left; reflexivity).
    right. eexists. split; [reflexivity|]. intros c t Heq. discriminate.
Qed.

Lemma pinged_steps (pairs : list (SandboxId * jstring)) :
  forall st, request_steps st (pinged st pairs).
Proof.
  induction pairs as [|[s c] pairs IH]; intros st.
  - rewrite pinged_nil. now apply steps_nil.
  - rewrite <- pinged_cons.
    apply steps_cons
      with (advanced
              (delegated st s
                 (ExtRpc c (health_request (nextHealthCheckRqId st)))));
      [|apply IH].
    apply step_internal with s. right. right. exists c. split; reflexivity.
Qed.

Lemma sendPings_final st :
  exists done rest,
    tracked_pairs (sandboxesChains st) = done ++ rest
    /\ final (sendPings st) = Some (pinged st done)
    /\ (rest = [] \/ exists s c, In (s, c) rest
                                  /\ inner_has (inner st) s = false).
Proof.
  rewrite sendPings_flat.
  generalize (tracked_pairs (sandboxesChains st)) as pairs.
  intros pairs.
  assert (Hgen : forall st0,
            queues (inner st0) = queues (inner st) ->
            exists done rest,
              pairs = done ++ rest
              /\ final (for_each pairs (fun p => ping (fst p) (snd p)) st0)
                 = Some (pinged st0 done)
              /\ (rest = [] \/ exists s c, In (s, c) rest
                                  /\ inner_has (inner st) s = false)).
  { induction pairs as [|[s c] pairs IH]; intros st0 Hq.
    - exists [], []. rewrite pinged_nil.
      split; [reflexivity|]. split; [reflexivity|now left].
    - cbn [for_each fst snd]. unfold bind.
      destruct (inner_has (inner st0) s) eqn:Hk.
      + rewrite (ping_known st0 s c Hk).
        destruct (IH (advanced
                        (delegated st0 s
                           (ExtRpc c (health_request (nextHealthCheckRqId st0))))))
          as (done & rest & Hsplit & Hfin & Hrest); [exact Hq|].
        exists ((s, c) :: done), rest. subst pairs.
        rewrite pinged_cons in Hfin.
        split; [reflexivity|]. split; [exact Hfin|exact Hrest].
      + rewrite (ping_unknown st0 s c Hk).
        exists [], ((s, c) :: pairs). rewrite pinged_nil.
        split; [reflexivity|]. split; [reflexivity|].
        right. exists s, c. split; [now left|].
        unfold inner_has in *. now rewrite <- Hq. }
  apply Hgen. reflexivity.
Qed.
End Operations.



Section Runs.
Context {SandboxId : Type} `{EqKey SandboxId} `{Engine}.
Implicit Types (st : state (SandboxId := SandboxId)) (sandboxId : SandboxId).

Lemma same_fields_steps st st' :
  sent (inner st') = sent (inner st) ->
  nextHealthCheckRqId st' = nextHealthCheckRqId st ->
  request_steps st st'.
Proof. intros. now apply steps_nil. Qed.

Lemma addSandbox_final sandboxId st st' :
  final (addSandbox sandboxId st) = Some st' ->
  sent (inner st') = sent (inner st)
  /\ nextHealthCheckRqId st' = nextHealthCheckRqId st
  /\ (synced st -> synced st').
Proof.
  unfold addSandbox, bind, inner_addSandbox, set_inner, get_sandboxesChains,
    set_sandboxesChains.
  destruct (inner_has (inner st) sandboxId) eqn:Hk; cbn [final];
    intros Heq; injection Heq as <-;
    cbn [inner sent queues sandboxesChains nextHealthCheckRqId];
    (split; [reflexivity|]); (split; [reflexivity|]); [tauto|].
  unfold synced. cbn [inner queues sandboxesChains]. intros Hs.
  assert (Hnone : map_get key_eqb (sandboxesChains st) sandboxId = None).
  { apply map_get_None_keys. rewrite Hs. apply map_get_None_keys.
    unfold inner_has in Hk.
    now destruct (map_get key_eqb (queues (inner st)) sandboxId). }
  rewrite (map_set_absent _ _ _ Hnone). unfold map_keys in *.
  rewrite !map_app. now rewrite Hs.
Qed.

Lemma deleteSandbox_final sandboxId st st' :
  final (deleteSandbox sandboxId st) = Some st' ->
  sent (inner st') = sent (inner st)
  /\ nextHealthCheckRqId st' = nextHealthCheckRqId st
  /\ (synced st -> synced st').
Proof.
  unfold deleteSandbox, bind, inner_deleteSandbox, set_inner,
    get_sandboxesChains, set_sandboxesChains.
  destruct (inner_has (inner st) sandboxId) eqn:Hk; cbn [final];
    intros Heq; injection Heq as <-;
    cbn [inner sent queues sandboxesChains nextHealthCheckRqId];
    (split; [reflexivity|]); (split; [reflexivity|]); [|tauto].
  unfold synced. cbn [inner queues sandboxesChains]. intros Hs.
  now rewrite !map_keys_deleted, Hs.
Qed.

Lemma inner_generates_final sandboxId (item : ToApplication) st st' :
  final (inner_generates sandboxId item st) = Some st' ->
  sent (inner st') = sent (inner st)
  /\ nextHealthCheckRqId st' = nextHealthCheckRqId st
  /\ same_sandboxes st st'.
Proof.
  unfold inner_generates, set_inner.
  destruct (map_get key_eqb (queues (inner st)) sandboxId) as [q|] eqn:Eq;
    cbn [final]; intros Heq; injection Heq as <-;
    cbn [inner sent queues sandboxesChains nextHealthCheckRqId];
    (split; [reflexivity|]); (split; [reflexivity|]); split;
    cbn [inner queues sandboxesChains]; try reflexivity.
  now apply map_keys_set_present with q.
Qed.

Lemma same_sandboxes_synced st st' :
  same_sandboxes st st' -> synced st -> synced st'.
Proof. unfold synced. intros [Hq Hc] Hs. congruence. Qed.

(** Every operation sends its requests numbered by the counter, and keeps
    the two registries of sandboxes in step. *)
Lemma after_summary (o : op) st st' :
  after o st = Some st' ->
  request_steps st st' /\ (synced st -> synced st').
Proof.
  unfold after. destruct o as [s|s|s m|s|s|s item| |s item]; cbn [run_op].
  - intros Hf. destruct (addSandbox_final s st st' Hf) as (Hs & Hn & Hsync).
    split; [now apply steps_nil|exact Hsync].
  - intros Hf. destruct (deleteSandbox_final s st st' Hf) as (Hs & Hn & Hsync).
    split; [now apply steps_nil|exact Hsync].
  - intros Hf.
    destruct (sandboxMessage_steps s m st st' Hf) as (Hq & [Hk _] & Hn & Hsent).
    split.
    + destruct Hsent as [Hsent|(m' & Hsent & Hm)]; [now apply steps_nil|].
      apply request_steps_one. now apply step_client with s m'.
    + apply same_sandboxes_synced. split; [now rewrite Hq|exact Hk].
  - unfold bind. intros Hf.
    assert (Hf' : final (nextSandboxMessage s st) = Some st').
    { destruct (nextSandboxMessage s st) as [a st1|e st1|]; exact Hf. }
    destruct (nextSandboxMessage_summary s st st' Hf') as (Hs & _ & Hr).
    split; [exact Hr|now apply same_sandboxes_synced].
  - intros Hf. destruct (turn_summary s st st' Hf) as (Hs & _ & Hr).
    split; [exact Hr|now apply same_sandboxes_synced].
  - unfold bind. intros Hf.
    assert (Hf' : final (handle s item st) = Some st').
    { destruct (handle s item st) as [a st1|e st1|]; exact Hf. }
    destruct (resume_summary s item st st' Hf') as (Hs & _ & Hr).
    split; [exact Hr|now apply same_sandboxes_synced].
  - intros Hf. destruct (sendPings_final st) as (done & rest & _ & Hfin & _).
    rewrite Hfin in Hf. injection Hf as <-.
    split; [apply pinged_steps|]. unfold synced, pinged.
    cbn [inner queues sandboxesChains]. tauto.
  - intros Hf.
    destruct (inner_generates_final s item st st' Hf) as (Hs & Hn & Hsame).
    split; [now apply steps_nil|now apply same_sandboxes_synced].
Qed.

Lemma run_summary (ops : list op) :
  forall st st',
    run ops st = Some st' ->
    request_steps st st' /\ (synced st -> synced st').
Proof.
  induction ops as [|o ops IH]; intros st st'; cbn [run].
  - intros Heq. injection Heq as <-. split; [now apply steps_nil|tauto].
  - destruct (after o st) as [st1|] eqn:Eo; [|discriminate].
    intros Hrun. destruct (after_summary o st st1 Eo) as [Hr1 Hs1].
    destruct (IH st1 st' Hrun) as [Hr Hs].
    split; [now apply request_steps_trans with st1|tauto].
Qed.

Lemma synced_initial : synced (initial (SandboxId := SandboxId)).
Proof. reflexivity. Qed.

Lemma numbered_initial : numbered (initial (SandboxId := SandboxId)).
Proof. intros s c n. split; intros []. Qed.

(** In step with the inner manager, the pings go out for every tracked
    pair. *)
Lemma for_each_ping_known (pairs : list (SandboxId * jstring)) :
  forall st,
    (forall s c, In (s, c) pairs -> inner_has (inner st) s = true) ->
    for_each pairs (fun p => ping (fst p) (snd p)) st = Ok tt (pinged st pairs).
Proof.
  induction pairs as [|[s c] pairs IH]; intros st Hknown.
  - cbn [for_each]. unfold ret. now rewrite pinged_nil.
  - cbn [for_each fst snd]. unfold bind.
    rewrite (ping_known st s c) by (apply (Hknown s c); now left).
    rewrite IH; [now rewrite pinged_cons|].
    intros s' c' Hin. cbn [advanced delegated inner].
    unfold inner_has. cbn [queues]. apply (Hknown s' c'). now right.
Qed.

Lemma sendPings_synced st :
  synced st ->
  sendPings st = Ok tt (pinged st (tracked_pairs (sandboxesChains st))).
Proof.
  intros Hs. rewrite sendPings_flat. apply for_each_ping_known.
  intros s c Hin. apply (tracked_pairs_sandbox _ s c) in Hin.
  rewrite Hs in Hin. unfold inner_has.
  destruct (map_get key_eqb (queues (inner st)) s) eqn:E; [reflexivity|].
  apply map_get_None_keys in E. contradiction.
Qed.
End Runs.

(** * Wrapping and unwrapping keep the payload *)

Lemma obj_replace_normalize (props : list (jstring * value)) (k : jstring)
  (v : value) :
  normalize_props (obj_replace props k v)
  = obj_replace (normalize_props props) k (normalize v).
Proof.
  unfold normalize_props.
  induction props as [|[k0 v0] props IH]; cbn [obj_replace map fst snd];
    [reflexivity|].
  destruct (str_eqb k0 k); cbn [map fst snd]; [reflexivity|now rewrite IH].
Qed.

Lemma obj_insert_index_normalize (props : list (jstring * value)) (i : N)
  (k : jstring) (v : value) :
  normalize_props (obj_insert_index props i k v)
  = obj_insert_index (normalize_props props) i k (normalize v).
Proof.
  unfold normalize_props.
  induction props as [|[k0 v0] props IH]; cbn [obj_insert_index map fst snd];
    [reflexivity|].
  destruct (array_index k0) as [j|]; [destruct (j <? i)%N|];
    cbn [map fst snd]; try reflexivity.
  now rewrite IH.
Qed.

Lemma obj_set_normalize (props : list (jstring * value)) (k : jstring)
  (v : value) :
  normalize_props (obj_set props k v)
  = obj_set (normalize_props props) k (normalize v).
Proof.
  unfold obj_set. rewrite obj_get_normalize.
  destruct (obj_get props k); cbn [option_map].
  - apply obj_replace_normalize.
  - destruct (array_index k).
    + apply obj_insert_index_normalize.
    + unfold normalize_props. now rewrite map_app.
Qed.

(** The text of an object after an assignment to [id], read again. *)
Lemma reparse_with_id (props : list (jstring * value)) (v : value) :
  well_formed (VObj props) -> well_formed v ->
  JSON_parse (JSON_stringify (VObj (obj_set props (lit "id") v)))
  = Parsed (VObj (obj_set (normalize_props props) (lit "id") (normalize v))).
Proof.
  intros Hp Hv. rewrite JSON_parse_stringify by now apply well_formed_set.
  cbn [normalize]. fold (normalize_props (obj_set props (lit "id") v)).
  now rewrite obj_set_normalize.
Qed.

Lemma other_members_kept (props : list (jstring * value)) (k : jstring)
  (v : value) :
  k <> lit "id" ->
  obj_get (obj_set (normalize_props props) (lit "id") v) k
  = option_map normalize (obj_get props k).
Proof.
  intros Hk. rewrite obj_get_set_other by exact Hk. apply obj_get_normalize.
Qed.

Section Wrapping.
Context {SandboxId : Type} `{EqKey SandboxId} `{Engine}.
Implicit Types (st : state (SandboxId := SandboxId)) (sandboxId : SandboxId).

(** Property X1.  [sandboxMessage] changes nothing of the payload of a
    request but the [id].  When the engine serialises the id and the object
    with the wrapped id, the text forwarded is the JSON text of the client's
    object with the wrapped id in the place of the id (after the other
    members when there was none), every other member with its value, a
    negative zero printed as [0] and an infinite Number as [null].  When
    one of the two is nested beyond the limit of the engine,
    [JSON.stringify] throws a RangeError: the text goes to the inner
    manager as it was, its id not wrapped, and [sandboxMessage] throws. *)
Theorem wrap_keeps_payload st sandboxId chainId text props :
  JSON_parse text = Parsed (VObj props) ->
  inner_has (inner st) sandboxId = true ->
  let id := obj_get props (lit "id") in
  let wrapped :=
    VStr (concat_js (lit "extern:") (option_map JSON_stringify id)) in
  let serialised :=
    within_stack id
    && within_stack (Some (VObj (obj_set props (lit "id") wrapped))) in
  (serialised = true ->
   exists text',
     sandboxMessage sandboxId (ExtRpc chainId text) st
     = Ok tt (delegated st sandboxId (ExtRpc chainId text'))
     /\ JSON_parse text'
        = Parsed (VObj (obj_set (normalize_props props) (lit "id") wrapped))
     /\ forall k, k <> lit "id" ->
          obj_get (obj_set (normalize_props props) (lit "id") wrapped) k
          = option_map normalize (obj_get props k))
  /\ (serialised = false ->
      sandboxMessage sandboxId (ExtRpc chainId text) st
      = Throw RangeError (delegated st sandboxId (ExtRpc chainId text))).
Proof.
  intros Hparse Hknown id wrapped serialised.
  assert (Hrun : sandboxMessage sandboxId (ExtRpc chainId text) st
                 = if serialised
                   then Ok tt
                          (delegated st sandboxId
                             (ExtRpc chainId
                                (JSON_stringify
                                   (VObj (obj_set props (lit "id") wrapped)))))
                   else Throw RangeError
                          (delegated st sandboxId (ExtRpc chainId text))).
  { unfold sandboxMessage, wrap_id, JSON_parse_js. rewrite Hparse.
    cbn [completion_bind get_prop]. fold id.
    unfold JSON_stringify_js, JSON_stringify_object. subst serialised.
    destruct (within_stack id); cbn [completion_bind set_prop andb].
    - fold wrapped.
      destruct (within_stack
                  (Some (VObj (obj_set props (lit "id") wrapped))));
        unfold bind, try_finally;
        rewrite inner_sandboxMessage_known by exact Hknown; reflexivity.
    - unfold bind, try_finally.
      rewrite inner_sandboxMessage_known by exact Hknown. reflexivity. }
  split; intros Hs; rewrite Hs in Hrun; [|exact Hrun].
  exists (JSON_stringify (VObj (obj_set props (lit "id") wrapped))).
  split; [exact Hrun|]. split.
  - apply reparse_with_id; [|constructor].
    now apply JSON_parse_well_formed with text.
  - intros k Hk. now apply other_members_kept.
Qed.

(** Property X2.  [nextSandboxMessage] changes nothing of a response to a
    client but the [id].  When the engine serialises the response with the
    id restored, the text returned is the JSON text of the response object
    with the client's id in the place of the wrapped one, and the state
    stays as it is.  When that object is nested beyond the limit of the
    engine, [JSON.stringify] throws a RangeError and the turn throws, the
    state unchanged: the response is not delivered. *)
Theorem unwrap_keeps_payload st sandboxId chainId chains text props idtext X :
  map_get key_eqb (sandboxesChains st) sandboxId = Some chains ->
  JSON_parse text = Parsed (VObj props) ->
  obj_get props (lit "id") = Some (VStr (lit "extern:" ++ idtext)) ->
  JSON_parse idtext = Parsed X ->
  let serialised :=
    within_stack (Some (VObj (obj_set props (lit "id") X))) in
  (serialised = true ->
   exists text',
     handle sandboxId (AppRpc chainId text) st
     = Ok (Return (FromInner (AppRpc chainId text'))) st
     /\ JSON_parse text'
        = Parsed (VObj (obj_set (normalize_props props) (lit "id")
                          (normalize X)))
     /\ forall k, k <> lit "id" ->
          obj_get (obj_set (normalize_props props) (lit "id") (normalize X)) k
          = option_map normalize (obj_get props k))
  /\ (serialised = false ->
      handle sandboxId (AppRpc chainId text) st = Throw RangeError st).
Proof.
  intros Hchains Hparse Hid HX serialised.
  assert (Hrun : handle sandboxId (AppRpc chainId text) st
                 = if serialised
                   then Ok (Return
                              (FromInner
                                 (AppRpc chainId
                                    (JSON_stringify
                                       (VObj (obj_set props (lit "id") X))))))
                          st
                   else Throw RangeError st).
  { unfold handle, lookup_chain, JSON_parse_js.
    unfold bind, get_sandboxesChains, lift, ret, throw.
    cbv beta iota. rewrite Hchains. cbv beta iota. rewrite Hparse.
    cbv beta iota. cbn [get_prop]. rewrite Hid.
    change (truthy (Some (VStr (lit "extern:" ++ idtext)))) with true.
    cbv beta iota. rewrite startsWith_app.
    change 7%nat with (length (lit "extern:")). rewrite slice_app, HX.
    cbv beta iota. cbn [set_prop]. unfold JSON_stringify_object.
    fold serialised. now destruct serialised. }
  split; intros Hs; rewrite Hs in Hrun; [|exact Hrun].
  exists (JSON_stringify (VObj (obj_set props (lit "id") X))).
  split; [exact Hrun|]. split.
  - apply reparse_with_id.
    + now apply JSON_parse_well_formed with text.
    + now apply JSON_parse_well_formed with idtext.
  - intros k Hk. now apply other_members_kept.
Qed.

(** Property X3.  A payload that is a JSON array (a batch) is forwarded
    written anew, and no id in it is wrapped, when the engine serialises the
    array.  When the array is nested beyond the limit of the engine,
    [JSON.stringify] throws a RangeError: the text goes to the inner
    manager as it was and [sandboxMessage] throws. *)
Theorem batch_payload_forwarded_unwrapped st sandboxId chainId text items :
  JSON_parse text = Parsed (VArr items) ->
  inner_has (inner st) sandboxId = true ->
  (within_stack (Some (VArr items)) = true ->
   exists text',
     sandboxMessage sandboxId (ExtRpc chainId text) st
     = Ok tt (delegated st sandboxId (ExtRpc chainId text'))
     /\ JSON_parse text' = Parsed (VArr (map normalize items)))
  /\ (within_stack (Some (VArr items)) = false ->
      sandboxMessage sandboxId (ExtRpc chainId text) st
      = Throw RangeError (delegated st sandboxId (ExtRpc chainId text))).
Proof.
  intros Hparse Hknown.
  assert (Hrun : sandboxMessage sandboxId (ExtRpc chainId text) st
                 = if within_stack (Some (VArr items))
                   then Ok tt
                          (delegated st sandboxId
                             (ExtRpc chainId (JSON_stringify (VArr items))))
                   else Throw RangeError
                          (delegated st sandboxId (ExtRpc chainId text))).
  { unfold sandboxMessage, wrap_id, JSON_parse_js. rewrite Hparse.
    cbn [completion_bind get_prop]. unfold JSON_stringify_js.
    change (within_stack undefined) with true.
    cbn [completion_bind set_prop]. unfold JSON_stringify_object.
    destruct (within_stack (Some (VArr items)));
      unfold bind, try_finally;
      rewrite inner_sandboxMessage_known by exact Hknown; reflexivity. }
  split; intros Hs; rewrite Hs in Hrun; [|exact Hrun].
  exists (JSON_stringify (VArr items)). split; [exact Hrun|].
  rewrite JSON_parse_stringify; [reflexivity|].
  now apply JSON_parse_well_formed with text.
Qed.

(** Property X4.  A payload that is the JSON text of [null], a boolean, a
    Number or a string makes [sandboxMessage] throw a TypeError, after the
    message went to the inner manager as it was. *)
Theorem primitive_payload_is_delegated_then_rejected
  st sandboxId chainId text v :
  JSON_parse text = Parsed v ->
  is_primitive v = true ->
  inner_has (inner st) sandboxId = true ->
  sandboxMessage sandboxId (ExtRpc chainId text) st
  = Throw TypeError (delegated st sandboxId (ExtRpc chainId text)).
Proof.
  intros Hparse Hprim Hknown.
  unfold sandboxMessage, wrap_id, JSON_parse_js. rewrite Hparse.
  destruct v as [|b|x|s|items|props]; try discriminate;
    cbn [completion_bind get_prop set_prop]; unfold bind, try_finally;
    rewrite inner_sandboxMessage_known by exact Hknown; reflexivity.
Qed.

(** Property X5.  A response whose id is ["extern:"] followed by a text that
    is not JSON makes the turn throw the SyntaxError of [JSON.parse], the
    state unchanged. Such is the response to a client's notification, which
    went out under the id ["extern:undefined"]: it cannot be delivered. *)
Theorem unreadable_extern_id_throws
  st sandboxId chainId chains text props idtext :
  map_get key_eqb (sandboxesChains st) sandboxId = Some chains ->
  JSON_parse text = Parsed (VObj props) ->
  obj_get props (lit "id") = Some (VStr (lit "extern:" ++ idtext)) ->
  JSON_parse idtext = SyntaxError ->
  handle sandboxId (AppRpc chainId text) st = Throw JSONSyntaxError st
  /\ JSON_parse (lit "undefined") = SyntaxError.
Proof.
  intros Hchains Hparse Hid Hbad. split; [|reflexivity].
  unfold handle, lookup_chain, JSON_parse_js.
  unfold bind, get_sandboxesChains, lift, ret, throw.
  cbv beta iota. rewrite Hchains. cbv beta iota. rewrite Hparse.
  cbv beta iota. cbn [get_prop]. rewrite Hid.
  change (truthy (Some (VStr (lit "extern:" ++ idtext)))) with true.
  cbv beta iota. rewrite startsWith_app.
  change 7%nat with (length (lit "extern:")). rewrite slice_app, Hbad.
  reflexivity.
Qed.

(** Property X6.  Whatever a client injects, the message [sandboxMessage]
    hands to the inner manager is none of the requests of the class: the
    requests of the class among the messages sent are those there were before. *)
Theorem client_cannot_forge_internal_request
  st st' sandboxId (message : ToExtension) :
  final (sandboxMessage sandboxId message st) = Some st' ->
  forall s chainId text,
    internal_request text ->
    In (s, ExtRpc chainId text) (sent (inner st')) ->
    In (s, ExtRpc chainId text) (sent (inner st)).
Proof.
  intros Hfinal s chainId text Hint Hin.
  destruct (sandboxMessage_steps sandboxId message st st' Hfinal)
    as (_ & _ & _ & [Hsent|(m & Hsent & Hm)]); rewrite Hsent in Hin;
    [exact Hin|].
  apply in_app_iff in Hin as [Hin|[Heq|[]]]; [exact Hin|].
  apply sent_entry_message in Heq. now contradiction (Hm chainId text).
Qed.
End Wrapping.

Section Reachable.
Context {SandboxId : Type} `{EqKey SandboxId} `{Engine}.
Implicit Types (st : state (SandboxId := SandboxId)) (sandboxId : SandboxId).

(** * The requests sent, in order *)

Lemma snoc_split {A : Type} (l l1 l2 : list A) (x a : A) :
  l ++ [x] = l1 ++ a :: l2 ->
  (l2 = [] /\ l1 = l /\ a = x)
  \/ exists l2', l2 = l2' ++ [x] /\ l = l1 ++ a :: l2'.
Proof.
  intros Heq. destruct l2 as [|b l2] using rev_ind.
  - left. apply app_inj_tail in Heq as [Hl Hx]. subst. auto.
  - right.
    change (l1 ++ a :: l2 ++ [b]) with (l1 ++ (a :: l2) ++ [b]) in Heq.
    rewrite app_assoc in Heq. apply app_inj_tail in Heq as [Hl Hx]. subst.
    exists l2. split; reflexivity.
Qed.

Lemma health_ascending_same st st' :
  sent (inner st') = sent (inner st) -> health_ascending st ->
  health_ascending st'.
Proof. unfold health_ascending. intros ->. auto. Qed.

Lemma health_ascending_step st st' :
  request_step st st' -> (nextHealthCheckRqId st < 2 ^ 53)%N ->
  numbered st -> health_ascending st -> health_ascending st'.
Proof.
  intros Hstep Hbound Hnum Hasc l1 l2 s c n s' c' n' Hsplit Hin.
  assert (Hnew : forall s0 m,
            sent (inner st') = sent (inner st) ++ [(s0, m)] ->
            (forall c0 k, m = ExtRpc c0 (health_request k) ->
               k = nextHealthCheckRqId st) ->
            (n < n')%N).
  { intros s0 m Hsent Hm. rewrite Hsent in Hsplit.
    apply snoc_split in Hsplit as [(-> & _ & _)|(l2' & -> & Hs)];
      [contradiction|].
    apply in_app_iff in Hin as [Hin|[Heq|[]]].
    - now apply (Hasc l1 l2' s c n s' c' n').
    - apply sent_entry_message in Heq.
      rewrite (Hm c' n' Heq).
      apply (Hnum s c n). rewrite Hs. apply in_or_app. right. now left. }
  destruct Hstep as [s0 [[Hs Hn]|[(c0 & Hs & Hn)|(c0 & Hs & Hn)]]|s0 m Hs Hn Hm].
  - rewrite Hs in Hsplit. now apply (Hasc l1 l2 s c n s' c' n').
  - apply (Hnew _ _ Hs). intros c1 k Heq. exfalso.
    assert (Ht : follow_request (nextHealthCheckRqId st) = health_request k)
      by congruence.
    now apply follow_request_not_health in Ht.
  - apply (Hnew _ _ Hs). intros c1 k Heq.
    assert (Ht : health_request (nextHealthCheckRqId st) = health_request k)
      by congruence.
    apply health_request_inj in Ht. now symmetry.
  - apply (Hnew _ _ Hs). intros c1 k Heq. exfalso.
    apply (Hm c1 (health_request k) Heq). exists k. now right.
Qed.

Lemma request_steps_ascending st st' :
  request_steps st st' -> (nextHealthCheckRqId st' < 2 ^ 53)%N ->
  numbered st -> health_ascending st ->
  numbered st' /\ health_ascending st'.
Proof.
  induction 1 as [st st' Hs Hn|st st1 st' Hstep Hrest IH];
    intros Hbound Hnum Hasc.
  - split; [|now apply health_ascending_same with st].
    intros s c n. rewrite Hs, Hn. apply Hnum.
  - pose proof (request_steps_counter _ _ Hrest) as Hle.
    pose proof (request_step_counter _ _ Hstep) as Hle1.
    apply IH; [exact Hbound| |].
    + apply (request_step_numbered _ _ Hstep); [lia|exact Hnum].
    + apply (health_ascending_step _ _ Hstep); [lia|exact Hnum|exact Hasc].
Qed.

Lemma health_ascending_initial :
  health_ascending (initial (SandboxId := SandboxId)).
Proof.
  intros l1 l2 s c n s' c' n' Hsplit. cbn in Hsplit.
  now destruct l1.
Qed.

(** Property X7.  In every state an instance can reach, the sandboxes with
    chain records are exactly those the inner manager knows, in the same
    order. *)
Theorem registries_stay_in_step (ops : list op) st :
  run ops initial = Some st -> synced st.
Proof.
  intros Hrun. destruct (run_summary ops _ _ Hrun) as [_ Hs].
  apply Hs. apply synced_initial.
Qed.

(** Property X8.  In every state an instance can reach, a firing of the timer
    completes: it sends one [system_health] request for every tracked
    (sandbox, chain) pair, in the order of the maps, and leaves the records as
    they are. *)
Theorem pings_reach_every_tracked_pair (ops : list op) st :
  run ops initial = Some st ->
  sendPings st = Ok tt (pinged st (tracked_pairs (sandboxesChains st))).
Proof.
  intros Hrun. apply sendPings_synced.
  destruct (run_summary ops _ _ Hrun) as [_ Hs]. apply Hs. apply synced_initial.
Qed.

(** Property X9.  While the counter is below 2^53, every [system_health]
    request sent is numbered below the counter and every
    [chainHead_unstable_follow] request at most the counter, whatever the
    clients injected; so the id of the next [system_health] request has not
    been used by a request sent so far. *)
Theorem requests_numbered_by_counter (ops : list op) st :
  run ops initial = Some st ->
  (nextHealthCheckRqId st < 2 ^ 53)%N ->
  numbered st
  /\ forall s c,
       ~ In (s, ExtRpc c (health_request (nextHealthCheckRqId st)))
           (sent (inner st)).
Proof.
  intros Hrun Hbound. destruct (run_summary ops _ _ Hrun) as [Hsteps _].
  assert (Hnum : numbered st)
    by (apply (request_steps_numbered _ _ Hsteps Hbound); apply numbered_initial).
  split; [exact Hnum|]. intros s c Hin.
  destruct (Hnum s c (nextHealthCheckRqId st)) as [Hlt _].
  specialize (Hlt Hin). lia.
Qed.

(** Property X10.  While the counter is below 2^53, no two [system_health]
    requests sent carry the same id: the numbers of the requests ascend. *)
Theorem health_check_ids_never_repeat (ops : list op) st :
  run ops initial = Some st ->
  (nextHealthCheckRqId st < 2 ^ 53)%N ->
  forall l1 l2 s c n s' c' n',
    sent (inner st) = l1 ++ (s, ExtRpc c (health_request n)) :: l2 ->
    In (s', ExtRpc c' (health_request n')) l2 ->
    (n < n')%N /\ health_check_id n <> health_check_id n'.
Proof.
  intros Hrun Hbound l1 l2 s c n s' c' n' Hsplit Hin.
  destruct (run_summary ops _ _ Hrun) as [Hsteps _].
  destruct (request_steps_ascending _ _ Hsteps Hbound numbered_initial
              health_ascending_initial) as [_ Hasc].
  pose proof (Hasc l1 l2 s c n s' c' n' Hsplit Hin) as Hlt.
  split; [exact Hlt|]. intros Heq. apply health_check_id_inj in Heq. lia.
Qed.

(** Property X11.  The counter never goes back, over any operations from any
    state. *)
Theorem counter_never_decreases (ops : list op) st st' :
  run ops st = Some st' ->
  (nextHealthCheckRqId st <= nextHealthCheckRqId st')%N.
Proof.
  intros Hrun. destruct (run_summary ops _ _ Hrun) as [Hsteps _].
  now apply request_steps_counter.
Qed.

(** Property X12.  One turn of the loop of [nextSandboxMessage], whether it
    returns, goes on or throws, leaves the queues of the inner manager and the
    records of the other sandboxes as they are, and sends at most one message:
    a request of the class, to the chain engine of the sandbox it serves. *)
Theorem turn_sends_at_most_one_request
  sandboxId (toApplication : ToApplication) st st' :
  final (handle sandboxId toApplication st) = Some st' ->
  queues (inner st') = queues (inner st)
  /\ touches_only sandboxId st st'
  /\ sends_at_most_one sandboxId st st'.
Proof. apply handle_summary. Qed.

(** * One firing of the timer *)

Lemma iter_js_succ (k : nat) (n : N) :
  (n + N.of_nat k <= 2 ^ 53)%N ->
  Nat.iter k js_succ n = (n + N.of_nat k)%N.
Proof.
  revert n. induction k as [|k IH]; intros n Hb.
  - cbn. lia.
  - rewrite Nat.iter_succ_r. unfold js_succ at 2.
    replace (n <? 2 ^ 53)%N with true by (symmetry; apply N.ltb_lt; lia).
    rewrite IH; lia.
Qed.

Lemma ping_messages_consecutive (pairs : list (SandboxId * jstring)) (n : N) :
  (n + N.of_nat (length pairs) <= 2 ^ 53)%N ->
  ping_messages pairs n = consecutive_pings pairs n.
Proof.
  revert n. induction pairs as [|[s c] pairs IH]; intros n Hb; [reflexivity|].
  cbn [ping_messages consecutive_pings length] in *.
  unfold js_succ.
  replace (n <? 2 ^ 53)%N with true by (symmetry; apply N.ltb_lt; lia).
  rewrite IH; [reflexivity|lia].
Qed.

Lemma consecutive_pings_nth (pairs : list (SandboxId * jstring)) :
  forall n i s c,
    nth_error pairs i = Some (s, c) ->
    nth_error (consecutive_pings pairs n) i
    = Some (s, ExtRpc c (health_request (n + N.of_nat i))).
Proof.
  induction pairs as [|[s0 c0] pairs IH]; intros n [|i] s c;
    cbn [nth_error consecutive_pings]; try discriminate.
  - intros Heq. injection Heq as -> ->. now rewrite N.add_0_r.
  - intros Hnth. rewrite (IH (n + 1)%N i s c Hnth). do 4 f_equal. lia.
Qed.

(** Property X13.  A firing of the timer numbers its requests consecutively
    from the counter on: the i-th tracked pair gets the id ["health-check:" +
    (n+i)] and the counter ends at n plus the number of pairs, as long as that
    stays within 2^53. *)
Theorem pings_numbered_consecutively st :
  synced st ->
  let pairs := tracked_pairs (sandboxesChains st) in
  let n := nextHealthCheckRqId st in
  (n + N.of_nat (length pairs) <= 2 ^ 53)%N ->
  exists st',
    sendPings st = Ok tt st'
    /\ sent (inner st') = sent (inner st) ++ consecutive_pings pairs n
    /\ nextHealthCheckRqId st' = (n + N.of_nat (length pairs))%N
    /\ sandboxesChains st' = sandboxesChains st
    /\ forall i s c,
         nth_error pairs i = Some (s, c) ->
         nth_error (consecutive_pings pairs n) i
         = Some (s, ExtRpc c (health_request (n + N.of_nat i))).
Proof.
  intros Hs pairs n Hb. exists (pinged st pairs).
  split; [now apply sendPings_synced|].
  unfold pinged. cbn [inner sent sandboxesChains nextHealthCheckRqId].
  fold n. rewrite ping_messages_consecutive, iter_js_succ by exact Hb.
  repeat split. intros i s c. apply consecutive_pings_nth.
Qed.

Lemma iter_js_succ_top (k : nat) : Nat.iter k js_succ (2 ^ 53)%N = (2 ^ 53)%N.
Proof.
  induction k as [|k IH]; [reflexivity|].
  change (Nat.iter (S k) js_succ (2 ^ 53)%N)
    with (js_succ (Nat.iter k js_succ (2 ^ 53)%N)).
  now rewrite IH.
Qed.

Lemma ping_messages_top (pairs : list (SandboxId * jstring)) :
  ping_messages pairs (2 ^ 53)
  = map (fun p => (fst p, ExtRpc (snd p) (health_request (2 ^ 53)))) pairs.
Proof.
  induction pairs as [|[s c] pairs IH]; [reflexivity|].
  cbn [ping_messages map fst snd].
  change (js_succ (2 ^ 53)) with (2 ^ 53)%N. now rewrite IH.
Qed.

(** Property X14.  Once the counter has reached 2^53 it stays there, since
    [2^53 + 1] rounds back to [2^53]: every request of a firing then carries
    the same id ["health-check:9007199254740992"]. *)
Theorem counter_saturates_at_2_53 st :
  synced st ->
  nextHealthCheckRqId st = (2 ^ 53)%N ->
  exists st',
    sendPings st = Ok tt st'
    /\ sent (inner st')
       = sent (inner st)
           ++ map (fun p => (fst p, ExtRpc (snd p) (health_request (2 ^ 53))))
                (tracked_pairs (sandboxesChains st))
    /\ nextHealthCheckRqId st' = (2 ^ 53)%N
    /\ health_check_id (2 ^ 53) = lit "health-check:9007199254740992".
Proof.
  intros Hs Hn. exists (pinged st (tracked_pairs (sandboxesChains st))).
  split; [now apply sendPings_synced|].
  unfold pinged. cbn [inner sent nextHealthCheckRqId].
  rewrite Hn, ping_messages_top, iter_js_succ_top. repeat split.
Qed.
End Reachable.

Section Registry.
Context {SandboxId : Type} `{EqKey SandboxId} `{Engine}.
Implicit Types (st : state (SandboxId := SandboxId)) (sandboxId : SandboxId).

(** * addSandbox and deleteSandbox *)

Lemma inner_has_get st sandboxId :
  inner_has (inner st) sandboxId = false ->
  map_get key_eqb (queues (inner st)) sandboxId = None.
Proof.
  unfold inner_has.
  now destruct (map_get key_eqb (queues (inner st)) sandboxId).
Qed.

Lemma synced_unknown st sandboxId :
  synced st -> inner_has (inner st) sandboxId = false ->
  map_get key_eqb (sandboxesChains st) sandboxId = None.
Proof.
  intros Hs Hk. apply map_get_None_keys. rewrite Hs.
  apply map_get_None_keys. now apply inner_has_get.
Qed.

(** Property X15.  [addSandbox] of a sandbox the inner manager knows throws
    and changes nothing: the chain records of the sandbox stay. For a new
    sandbox it registers the sandbox with the inner manager and with an empty
    map of chains, and changes nothing else. *)
Theorem addSandbox_outcome st sandboxId :
  (inner_has (inner st) sandboxId = true ->
   addSandbox sandboxId st = Throw DuplicateSandbox st)
  /\ (inner_has (inner st) sandboxId = false ->
      exists st',
        addSandbox sandboxId st = Ok tt st'
        /\ inner_has (inner st') sandboxId = true
        /\ map_get key_eqb (sandboxesChains st') sandboxId = Some []
        /\ (forall s, s <> sandboxId ->
              map_get key_eqb (sandboxesChains st') s
              = map_get key_eqb (sandboxesChains st) s)
        /\ sent (inner st') = sent (inner st)
        /\ nextHealthCheckRqId st' = nextHealthCheckRqId st).
Proof.
  unfold addSandbox, bind, inner_addSandbox, set_inner, get_sandboxesChains,
    set_sandboxesChains.
  split; intros Hk; rewrite Hk; [reflexivity|].
  eexists. split; [reflexivity|].
  cbn [inner queues sent sandboxesChains nextHealthCheckRqId].
  split; [|split; [|split; [|split; reflexivity]]].
  - unfold inner_has. cbn [queues].
    assert (Hg : map_get key_eqb (queues (inner st) ++ [(sandboxId, [])])
                   sandboxId = Some []).
    { rewrite <- (map_set_absent _ _ _ (inner_has_get st sandboxId Hk)).
      apply map_get_set_same. }
    now rewrite Hg.
  - apply map_get_set_same.
  - intros s Hs. apply map_get_set_other. congruence.
Qed.

(** Property X16.  Adding a sandbox and deleting it again leaves the instance
    as it was. *)
Theorem add_then_delete_restores st sandboxId :
  synced st ->
  inner_has (inner st) sandboxId = false ->
  bind (addSandbox sandboxId) (fun _ => deleteSandbox sandboxId) st = Ok tt st.
Proof.
  intros Hs Hk.
  pose proof (inner_has_get st sandboxId Hk) as Hq.
  pose proof (synced_unknown st sandboxId Hs Hk) as Hc.
  unfold bind, addSandbox, bind, inner_addSandbox, set_inner,
    get_sandboxesChains, set_sandboxesChains.
  rewrite Hk. unfold deleteSandbox, bind, inner_deleteSandbox, set_inner,
    get_sandboxesChains, set_sandboxesChains.
  cbn [inner queues sent sandboxesChains nextHealthCheckRqId].
  assert (Hg : inner_has {| queues := queues (inner st) ++ [(sandboxId, [])];
                            sent := sent (inner st) |} sandboxId = true).
  { unfold inner_has. cbn [queues].
    rewrite <- (map_set_absent _ _ _ Hq). now rewrite map_get_set_same. }
  rewrite Hg. cbn [inner queues sent sandboxesChains nextHealthCheckRqId].
  rewrite (map_set_absent _ _ _ Hc), !map_delete_app.
  rewrite (map_delete_absent _ _ Hq), (map_delete_absent _ _ Hc).
  cbn [map_delete]. rewrite key_eqb_refl, !app_nil_r.
  destruct st as [[q s] m n]. reflexivity.
Qed.

(** Property X17.  [deleteSandbox] of a sandbox the inner manager does not
    know throws and changes nothing. For a known sandbox it forgets the
    sandbox in both registries; the other sandboxes, the messages sent and the
    counter stay as they are. *)
Theorem deleteSandbox_outcome st sandboxId :
  (inner_has (inner st) sandboxId = false ->
   deleteSandbox sandboxId st = Throw UnknownSandbox st)
  /\ (inner_has (inner st) sandboxId = true ->
      exists st',
        deleteSandbox sandboxId st = Ok tt st'
        /\ inner_has (inner st') sandboxId = false
        /\ map_get key_eqb (sandboxesChains st') sandboxId = None
        /\ (forall s, s <> sandboxId ->
              map_get key_eqb (sandboxesChains st') s
              = map_get key_eqb (sandboxesChains st) s
              /\ map_get key_eqb (queues (inner st')) s
                 = map_get key_eqb (queues (inner st)) s)
        /\ sent (inner st') = sent (inner st)
        /\ nextHealthCheckRqId st' = nextHealthCheckRqId st).
Proof.
  unfold deleteSandbox, bind, inner_deleteSandbox, set_inner,
    get_sandboxesChains, set_sandboxesChains.
  split; intros Hk; rewrite Hk; [reflexivity|].
  eexists. split; [reflexivity|].
  cbn [inner queues sent sandboxesChains nextHealthCheckRqId].
  split; [|split; [|split; [|split; reflexivity]]].
  - unfold inner_has. cbn [queues]. now rewrite map_get_delete_same.
  - apply map_get_delete_same.
  - intros s Hs. split; apply map_get_delete_other; congruence.
Qed.
End Registry.

Section Messages.
Context {SandboxId : Type} `{EqKey SandboxId} `{Engine}.
Implicit Types (st : state (SandboxId := SandboxId)) (sandboxId : SandboxId).

(** * Chains that come and go *)

Lemma chain_record_set st sandboxId (chains chains' : list (jstring * Chain))
  s c :
  map_get key_eqb (sandboxesChains st) sandboxId = Some chains ->
  (s = sandboxId -> map_get str_eqb chains' c = map_get str_eqb chains c) ->
  chain_record
    {| inner := inner st;
       sandboxesChains := map_set key_eqb (sandboxesChains st) sandboxId chains';
       nextHealthCheckRqId := nextHealthCheckRqId st |} s c
  = chain_record st s c.
Proof.
  intros Hchains Hsame. unfold chain_record. cbn [sandboxesChains].
  destruct (key_eqb sandboxId s) eqn:E.
  - apply key_eqb_eq in E. subst s.
    rewrite map_get_set_same, Hchains. now apply Hsame.
  - rewrite map_get_set_other; [reflexivity|].
    intros ->. rewrite key_eqb_refl in E. discriminate.
Qed.

Lemma chain_deleted_other (chains : list (jstring * Chain)) (c c' : jstring) :
  c' <> c ->
  map_get str_eqb (map_delete str_eqb chains c) c' = map_get str_eqb chains c'.
Proof.
  intros Hne.
  exact (map_get_delete_other (K := jstring) chains c c' (not_eq_sym Hne)).
Qed.

(** Property X18.  A [remove-chain] message takes the record of the chain
    away, whether or not there was one, and goes on to the inner manager as it
    is; the other records and the counter stay. For a sandbox without chain
    records [sandboxMessage] throws a TypeError before the inner manager is
    called. *)
Theorem remove_chain_outcome st sandboxId chainId :
  (map_get key_eqb (sandboxesChains st) sandboxId = None ->
   sandboxMessage sandboxId (ExtRemoveChain chainId) st = Throw TypeError st)
  /\ (forall chains,
        map_get key_eqb (sandboxesChains st) sandboxId = Some chains ->
        inner_has (inner st) sandboxId = true ->
        exists st',
          sandboxMessage sandboxId (ExtRemoveChain chainId) st = Ok tt st'
          /\ chain_record st' sandboxId chainId = None
          /\ (forall s c, (s, c) <> (sandboxId, chainId) ->
                chain_record st' s c = chain_record st s c)
          /\ sent (inner st')
             = sent (inner st) ++ [(sandboxId, ExtRemoveChain chainId)]
          /\ queues (inner st') = queues (inner st)
          /\ nextHealthCheckRqId st' = nextHealthCheckRqId st).
Proof.
  unfold sandboxMessage, update_chains, bind, get_sandboxesChains,
    set_sandboxesChains, throw, inner_sandboxMessage, set_inner.
  split.
  - intros Hnone. now rewrite Hnone.
  - intros chains Hchains Hknown. rewrite Hchains. cbn [inner].
    rewrite Hknown. eexists. split; [reflexivity|].
    split; [|split; [|repeat split]].
    + unfold chain_record. cbn [sandboxesChains].
      rewrite map_get_set_same.
      exact (map_get_delete_same (K := jstring) chains chainId).
    + intros s c Hne.
      apply (chain_record_set st sandboxId chains
               (map_delete str_eqb chains chainId) s c Hchains).
      intros ->. apply chain_deleted_other. congruence.
Qed.

(** Property X19.  An [error] message takes the record of the chain away and
    is returned as it is, also when the chain or the sandbox has no record;
    nothing is sent and the other records stay. *)
Theorem error_item_forgets_chain st sandboxId chainId errorMessage :
  exists st',
    handle sandboxId (AppError chainId errorMessage) st
    = Ok (Return (FromInner (AppError chainId errorMessage))) st'
    /\ chain_record st' sandboxId chainId = None
    /\ (forall s c, (s, c) <> (sandboxId, chainId) ->
          chain_record st' s c = chain_record st s c)
    /\ inner st' = inner st
    /\ nextHealthCheckRqId st' = nextHealthCheckRqId st.
Proof.
  unfold handle, update_chains, bind, get_sandboxesChains,
    set_sandboxesChains, ret.
  destruct (map_get key_eqb (sandboxesChains st) sandboxId) as [chains|]
    eqn:Hchains.
  - eexists. split; [reflexivity|]. split; [|split; [|split; reflexivity]].
    + unfold chain_record. cbn [sandboxesChains].
      rewrite map_get_set_same.
      exact (map_get_delete_same (K := jstring) chains chainId).
    + intros s c Hne.
      apply (chain_record_set st sandboxId chains
               (map_delete str_eqb chains chainId) s c Hchains).
      intros ->. apply chain_deleted_other. congruence.
  - exists st. split; [reflexivity|]. split; [|repeat split].
    unfold chain_record. now rewrite Hchains.
Qed.

(** Property X20.  For a chain without record (after [remove-chain] or an
    [error]) in a tracked sandbox, a response to a request of the class and an
    event of [chainHead_unstable_followEvent] make the turn throw a TypeError
    and change nothing. *)
Theorem response_for_untracked_chain_throws
  st sandboxId chainId chains text props :
  map_get key_eqb (sandboxesChains st) sandboxId = Some chains ->
  map_get str_eqb chains chainId = None ->
  JSON_parse text = Parsed (VObj props) ->
  (forall id,
     obj_get props (lit "id") = Some (VStr id) ->
     startsWith id (lit "health-check:") = true
     \/ startsWith id (lit "ready-sub:") = true ->
     handle sandboxId (AppRpc chainId text) st = Throw TypeError st)
  /\ (truthy (obj_get props (lit "id")) = false ->
      obj_get props (lit "method")
      = Some (VStr (lit "chainHead_unstable_followEvent")) ->
      handle sandboxId (AppRpc chainId text) st = Throw TypeError st).
Proof.
  intros Hchains Hchain Hparse.
  split.
  - intros id Hid Hprefix.
    unfold handle, lookup_chain, JSON_parse_js.
    unfold bind, get_sandboxesChains, lift, ret, throw.
    cbv beta iota. rewrite Hchains. cbv beta iota. rewrite Hparse.
    cbv beta iota. cbn [get_prop]. rewrite Hid, Hchain.
    destruct Hprefix as [Hp|Hp].
    + destruct (health_check_prefix id Hp) as [Ht He].
      rewrite Ht, He, Hp. cbv beta iota.
      now destruct (obj_get props (lit "result")).
    + destruct (ready_sub_prefix id Hp) as (Ht & He & Hh).
      rewrite Ht, He, Hh, Hp. cbv beta iota.
      now destruct (obj_get props (lit "result")).
  - intros Hid Hmethod.
    unfold handle, lookup_chain, JSON_parse_js.
    unfold bind, get_sandboxesChains, lift, ret, throw.
    cbv beta iota. rewrite Hchains. cbv beta iota. rewrite Hparse.
    cbv beta iota. cbn [get_prop]. rewrite Hid, Hmethod, Hchain.
    cbn [strict_eq]. rewrite str_eqb_refl. cbv beta iota.
    destruct (get_prop (obj_get props (lit "params")) (lit "subscription"))
      as [sub|e|] eqn:Es; cbv beta iota; try reflexivity.
    + apply get_prop_abrupt in Es. now subst e.
    + destruct (obj_get props (lit "params")) as [[| | | | |]|];
        discriminate.
Qed.

(** Property X21.  A response whose id starts with ["ready-sub:"] stores
    whatever its [result] is as the subscription of the chain ([undefined]
    when there is none) and is consumed: nothing is returned and nothing is
    sent. *)
Theorem subscription_is_stored st sandboxId chainId chains c text props id :
  map_get key_eqb (sandboxesChains st) sandboxId = Some chains ->
  map_get str_eqb chains chainId = Some c ->
  JSON_parse text = Parsed (VObj props) ->
  obj_get props (lit "id") = Some (VStr id) ->
  startsWith id (lit "ready-sub:") = true ->
  let c' := {| readySubscriptionId := obj_get props (lit "result");
               isSyncing := isSyncing c; peers := peers c |} in
  let st' := with_chain st sandboxId chains chainId c' in
  handle sandboxId (AppRpc chainId text) st = Ok Continue st'
  /\ chain_record st' sandboxId chainId = Some c'
  /\ inner st' = inner st
  /\ nextHealthCheckRqId st' = nextHealthCheckRqId st.
Proof.
  intros Hchains Hchain Hparse Hid Hp c' st'.
  destruct (ready_sub_prefix id Hp) as (Ht & He & Hh).
  split; [|split; [apply chain_record_with_chain|split; reflexivity]].
  unfold handle, lookup_chain, JSON_parse_js.
  unfold bind, get_sandboxesChains, lift, ret, throw.
  cbv beta iota. rewrite Hchains. cbv beta iota. rewrite Hparse.
  cbv beta iota. cbn [get_prop]. rewrite Hid, Ht, He, Hh, Hp, Hchain.
  cbv beta iota.
  rewrite (store_chain_tracked st sandboxId chainId chains _ Hchains).
  reflexivity.
Qed.

(** Property X22.  A notification that is not an event on the subscription of
    the chain (another method, or another subscription) is returned as it is,
    text and all, and changes nothing. *)
Theorem other_notifications_pass_through
  st sandboxId chainId chains text props :
  map_get key_eqb (sandboxesChains st) sandboxId = Some chains ->
  JSON_parse text = Parsed (VObj props) ->
  truthy (obj_get props (lit "id")) = false ->
  (strict_eq (obj_get props (lit "method"))
     (Some (VStr (lit "chainHead_unstable_followEvent"))) = false ->
   handle sandboxId (AppRpc chainId text) st
   = Ok (Return (FromInner (AppRpc chainId text))) st)
  /\ (forall c subscription,
        map_get str_eqb chains chainId = Some c ->
        get_prop (obj_get props (lit "params")) (lit "subscription")
        = Normal subscription ->
        strict_eq subscription (readySubscriptionId c) = false ->
        handle sandboxId (AppRpc chainId text) st
        = Ok (Return (FromInner (AppRpc chainId text))) st).
Proof.
  intros Hchains Hparse Hid. split.
  - intros Hmethod.
    unfold handle, lookup_chain, JSON_parse_js.
    unfold bind, get_sandboxesChains, lift, ret, throw.
    cbv beta iota. rewrite Hchains. cbv beta iota. rewrite Hparse.
    cbv beta iota. cbn [get_prop]. now rewrite Hid, Hmethod.
  - intros c subscription Hchain Hsub Hne.
    unfold handle, lookup_chain, JSON_parse_js.
    unfold bind, get_sandboxesChains, lift, ret, throw.
    cbv beta iota. rewrite Hchains. cbv beta iota. rewrite Hparse.
    cbv beta iota. cbn [get_prop]. rewrite Hid. cbv beta iota.
    destruct (strict_eq (obj_get props (lit "method"))
                (Some (VStr (lit "chainHead_unstable_followEvent"))));
      [|reflexivity].
    now rewrite Hsub, Hchain, Hne.
Qed.
End Messages.

Section Chains.
Context {SandboxId : Type} `{EqKey SandboxId} `{Engine}.
Implicit Types (st : state (SandboxId := SandboxId)) (sandboxId : SandboxId).

(** * allChains *)

Lemma report_outcome (chainInfo : Listing.InnerChainInfo) st :
  match Listing.apiInfo chainInfo with
  | Some api =>
      match chain_record st (Listing.sandboxId api) (Listing.chainId api) with
      | Some chain =>
          Listing.report chainInfo st
          = Ok {| Listing.peers := peers chain;
                  Listing.isSyncing := isSyncing chain;
                  Listing.info := chainInfo |} st
      | None => Listing.report chainInfo st = Throw TypeError st
      end
  | None =>
      Listing.report chainInfo st
      = Ok {| Listing.peers := Some number_zero; Listing.isSyncing := true;
              Listing.info := chainInfo |} st
  end.
Proof.
  unfold Listing.report, chain_record, bind, get_sandboxesChains, ret, throw.
  destruct (Listing.apiInfo chainInfo) as [api|]; [|reflexivity].
  destruct (map_get key_eqb (sandboxesChains st) (Listing.sandboxId api))
    as [chains|]; [|reflexivity].
  destruct (map_get str_eqb chains (Listing.chainId api)) as [[r i p]|];
    reflexivity.
Qed.

Lemma report_reported (chainInfo : Listing.InnerChainInfo) st o st' :
  Listing.report chainInfo st = Ok o st' ->
  st' = st /\ Listing.info o = chainInfo /\ reported st o.
Proof.
  pose proof (report_outcome chainInfo st) as Hout. unfold reported.
  destruct (Listing.apiInfo chainInfo) as [api|] eqn:Ea.
  - destruct (chain_record st (Listing.sandboxId api) (Listing.chainId api))
      as [chain|] eqn:Ec; rewrite Hout; [|discriminate].
    intros Heq. injection Heq as <- <-. cbn [Listing.info].
    rewrite Ea. repeat split. exists chain. now rewrite Ec.
  - rewrite Hout. intros Heq. injection Heq as <- <-. cbn [Listing.info].
    rewrite Ea. repeat split.
Qed.

Lemma report_state (chainInfo : Listing.InnerChainInfo) st :
  (exists o, Listing.report chainInfo st = Ok o st)
  \/ Listing.report chainInfo st = Throw TypeError st.
Proof.
  pose proof (report_outcome chainInfo st) as Hout.
  destruct (Listing.apiInfo chainInfo) as [api|];
    [destruct (chain_record st (Listing.sandboxId api) (Listing.chainId api))|];
    eauto.
Qed.

Lemma allChains_state (innerChains : list Listing.InnerChainInfo) st :
  (exists out, Listing.allChains innerChains st = Ok out st)
  \/ Listing.allChains innerChains st = Throw TypeError st.
Proof.
  unfold Listing.allChains.
  induction innerChains as [|chainInfo rest IH]; cbn [Listing.array_map].
  - left. now exists [].
  - unfold bind.
    destruct (report_state chainInfo st) as [[o Ho]|Ho]; rewrite Ho;
      [|right; reflexivity].
    destruct IH as [[out Hout]|Hout]; rewrite Hout; [|right; reflexivity].
    left. now exists (o :: out).
Qed.

(** Property X23.  The getter [allChains] reports every chain the inner
    manager lists, in the same order and with the same description: a chain of
    a sandbox with the [peers] and [isSyncing] of its record, a well-known
    chain with [peers = 0] and [isSyncing = true]. It changes nothing. *)
Theorem allChains_reports (innerChains : list Listing.InnerChainInfo) st :
  (forall chainInfo api,
     In chainInfo innerChains -> Listing.apiInfo chainInfo = Some api ->
     chain_record st (Listing.sandboxId api) (Listing.chainId api) <> None) ->
  exists out,
    Listing.allChains innerChains st = Ok out st
    /\ map Listing.info out = innerChains
    /\ Forall (reported st) out.
Proof.
  unfold Listing.allChains.
  induction innerChains as [|chainInfo rest IH]; intros Htracked;
    cbn [Listing.array_map].
  - exists []. repeat split. constructor.
  - destruct IH as (out & Hout & Hinfo & Hrep).
    { intros ci api Hin. apply Htracked. now right. }
    unfold bind at 1.
    pose proof (report_outcome chainInfo st) as Hone.
    pose proof (report_reported chainInfo st) as Hrep1.
    pose proof (Htracked chainInfo) as Hthis.
    destruct (Listing.apiInfo chainInfo) as [api|] eqn:Ea.
    + specialize (Hthis api (or_introl eq_refl) eq_refl).
      destruct (chain_record st (Listing.sandboxId api) (Listing.chainId api))
        as [chain|] eqn:Ec; [|contradiction].
      rewrite Hone in *. unfold bind. rewrite Hout.
      destruct (Hrep1 _ _ eq_refl) as (_ & Hi & Hr).
      eexists. split; [reflexivity|]. cbn [map]. rewrite Hinfo.
      split; [reflexivity|]. now constructor.
    + rewrite Hone in *. unfold bind. rewrite Hout.
      destruct (Hrep1 _ _ eq_refl) as (_ & Hi & Hr).
      eexists. split; [reflexivity|]. cbn [map]. rewrite Hinfo.
      split; [reflexivity|]. now constructor.
Qed.

(** Property X24.  When the inner manager lists a chain of a sandbox that has
    no record (its [chain-ready] message was not read yet, or an [error] or a
    [remove-chain] message took the record away), the getter [allChains]
    throws a TypeError: no chain is reported. *)
Theorem allChains_throws_on_untracked_chain
  (innerChains : list Listing.InnerChainInfo) st chainInfo api :
  In chainInfo innerChains ->
  Listing.apiInfo chainInfo = Some api ->
  chain_record st (Listing.sandboxId api) (Listing.chainId api) = None ->
  Listing.allChains innerChains st = Throw TypeError st.
Proof.
  unfold Listing.allChains.
  induction innerChains as [|first rest IH]; intros Hin Ha Hc;
    [contradiction|].
  cbn [Listing.array_map]. unfold bind at 1.
  destruct Hin as [->|Hin].
  - pose proof (report_outcome chainInfo st) as Hone.
    rewrite Ha, Hc in Hone. now rewrite Hone.
  - destruct (report_state first st) as [[o ->]| ->]; [|reflexivity].
    unfold bind. now rewrite (IH Hin Ha Hc).
Qed.

(** * The queue of a sandbox *)

Lemma pull_cons sandboxId (item : ToApplication) (rest : list ToApplication)
  st :
  pull sandboxId (item :: rest) st
  = match handle sandboxId item (dequeued st sandboxId rest) with
    | Ok (Return m) st' => Ok (Some m) st'
    | Ok Continue st' => pull sandboxId rest st'
    | Throw e st' => Throw e st'
    | OutsideModel => OutsideModel
    end.
Proof.
  cbn [pull]. unfold bind, set_queue, set_inner, ret.
  fold (dequeued st sandboxId rest).
  now destruct (handle sandboxId item (dequeued st sandboxId rest))
    as [[m|] st'|e st'|].
Qed.

Lemma handle_swallows_rpc_only sandboxId (item : ToApplication) st :
  inner_has (inner st) sandboxId = true ->
  match handle sandboxId item st with
  | Ok (Return _) _ => True
  | Ok Continue _ => is_rpc item = true
  | Throw _ _ => is_rpc item = true
  | OutsideModel => True
  end.
Proof.
  intros Hk. destruct item as [c|c text|c msg|type]; cbn [is_rpc].
  - unfold handle, update_chains, bind, get_sandboxesChains,
      set_sandboxesChains, get_counter, set_counter, inner_sandboxMessage,
      set_inner, ret.
    destruct (map_get key_eqb (sandboxesChains st) sandboxId); cbn [inner];
      now rewrite Hk.
  - now destruct (handle sandboxId (AppRpc c text) st) as [[m|] st'|e st'|].
  - unfold handle, update_chains, bind, get_sandboxesChains,
      set_sandboxesChains, ret.
    now destruct (map_get key_eqb (sandboxesChains st) sandboxId).
  - exact I.
Qed.

Lemma pull_queue sandboxId (items : list ToApplication) :
  forall st q,
    map_get key_eqb (queues (inner st)) sandboxId = Some q ->
    match pull sandboxId items st with
    | Ok (Some _) st' =>
        exists skipped item rest,
          items = skipped ++ item :: rest
          /\ forallb is_rpc skipped = true
          /\ map_get key_eqb (queues (inner st')) sandboxId = Some rest
    | Ok None st' =>
        forallb is_rpc items = true
        /\ map_get key_eqb (queues (inner st')) sandboxId
           = Some (match items with [] => q | _ => [] end)
    | Throw _ st' =>
        exists skipped item rest,
          items = skipped ++ item :: rest
          /\ forallb is_rpc skipped = true /\ is_rpc item = true
          /\ map_get key_eqb (queues (inner st')) sandboxId = Some rest
    | OutsideModel => True
    end.
Proof.
  induction items as [|item rest IH]; intros st q Hq.
  - cbn [pull]. unfold ret. split; [reflexivity|exact Hq].
  - rewrite pull_cons.
    destruct (dequeued_same sandboxId st q rest Hq) as (_ & Hq1 & _).
    assert (Hk : inner_has (inner (dequeued st sandboxId rest)) sandboxId
                 = true) by (unfold inner_has; now rewrite Hq1).
    pose proof (handle_swallows_rpc_only sandboxId item _ Hk) as Hrpc.
    pose proof (handle_summary sandboxId item (dequeued st sandboxId rest))
      as Hsum.
    destruct (handle sandboxId item (dequeued st sandboxId rest))
      as [[m|] st2|e st2|]; cbn [final] in Hsum.
    + destruct (Hsum st2 eq_refl) as (Hqs & _).
      exists [], item, rest. repeat split. congruence.
    + destruct (Hsum st2 eq_refl) as (Hqs & _).
      assert (Hq2 : map_get key_eqb (queues (inner st2)) sandboxId = Some rest)
        by congruence.
      specialize (IH st2 rest Hq2).
      destruct (pull sandboxId rest st2) as [[m|] st'|e st'|].
      * destruct IH as (skipped & item' & rest' & -> & Hs & Hq').
        exists (item :: skipped), item', rest'. cbn [forallb app].
        rewrite Hrpc, Hs. repeat split. exact Hq'.
      * destruct IH as [Hall Hq']. cbn [forallb]. rewrite Hrpc, Hall.
        split; [reflexivity|]. rewrite Hq'. now destruct rest.
      * destruct IH as (skipped & item' & rest' & -> & Hs & Hi & Hq').
        exists (item :: skipped), item', rest'. cbn [forallb app].
        rewrite Hrpc, Hs. repeat split; assumption.
      * exact I.
    + destruct (Hsum st2 eq_refl) as (Hqs & _).
      exists [], item, rest. repeat split; [exact Hrpc|congruence].
    + exact I.
Qed.

(** Property X25.  [nextSandboxMessage] reads the queue of the sandbox in
    order. When it returns a message, everything before that message was an
    [rpc] message it consumed, and what came after is what the inner manager
    still holds; when it stays pending the whole queue was [rpc] messages it
    consumed; when it throws, the message that made it throw was an [rpc]
    message, which is gone from the queue like those before it. *)
Theorem nextSandboxMessage_reads_in_order sandboxId st items :
  map_get key_eqb (queues (inner st)) sandboxId = Some items ->
  match nextSandboxMessage sandboxId st with
  | Ok (Some _) st' =>
      exists skipped item rest,
        items = skipped ++ item :: rest
        /\ forallb is_rpc skipped = true
        /\ map_get key_eqb (queues (inner st')) sandboxId = Some rest
  | Ok None st' =>
      forallb is_rpc items = true
      /\ map_get key_eqb (queues (inner st')) sandboxId = Some []
  | Throw _ st' =>
      exists skipped item rest,
        items = skipped ++ item :: rest
        /\ forallb is_rpc skipped = true /\ is_rpc item = true
        /\ map_get key_eqb (queues (inner st')) sandboxId = Some rest
  | OutsideModel => True
  end.
Proof.
  intros Hq. unfold nextSandboxMessage. rewrite Hq.
  pose proof (pull_queue sandboxId items st items Hq) as Hpull.
  destruct (pull sandboxId items st) as [[m|] st'|e st'|]; try exact Hpull.
  destruct Hpull as [Hall Hq']. split; [exact Hall|].
  rewrite Hq'. now destruct items.
Qed.
End Chains.

Section Lifecycle.
Context {SandboxId : Type} `{EqKey SandboxId} `{Engine}.
Implicit Types (st : state (SandboxId := SandboxId)) (sandboxId : SandboxId).

Lemma view_known st sandboxId chains items :
  sandbox_view st sandboxId chains items ->
  inner_has (inner st) sandboxId = true.
Proof. intros [_ Hq]. unfold inner_has. now rewrite Hq. Qed.

Lemma view_dequeued st sandboxId chains items rest :
  sandbox_view st sandboxId chains items ->
  sandbox_view (dequeued st sandboxId rest) sandboxId chains rest.
Proof.
  intros [Hc Hq]. split; [exact Hc|]. unfold dequeued. cbn [inner queues].
  apply map_get_set_same.
Qed.

Lemma view_with_chain st sandboxId chains items chainId c :
  sandbox_view st sandboxId chains items ->
  sandbox_view (with_chain st sandboxId chains chainId c) sandboxId
    (map_set str_eqb chains chainId c) items.
Proof.
  intros [Hc Hq]. split; [|exact Hq]. unfold with_chain.
  cbn [sandboxesChains]. apply map_get_set_same.
Qed.

Lemma view_delegated st sandboxId chains items s m :
  sandbox_view st sandboxId chains items ->
  sandbox_view (delegated st s m) sandboxId chains items.
Proof. intros Hv. exact Hv. Qed.

Lemma view_advanced st sandboxId chains items :
  sandbox_view st sandboxId chains items ->
  sandbox_view (advanced st) sandboxId chains items.
Proof. intros Hv. exact Hv. Qed.

Lemma nextSandboxMessage_cons st sandboxId chains item rest :
  sandbox_view st sandboxId chains (item :: rest) ->
  nextSandboxMessage sandboxId st
  = match handle sandboxId item (dequeued st sandboxId rest) with
    | Ok (Return m) st' => Ok (Some m) st'
    | Ok Continue st' => pull sandboxId rest st'
    | Throw e st' => Throw e st'
    | OutsideModel => OutsideModel
    end.
Proof.
  intros [_ Hq]. unfold nextSandboxMessage. rewrite Hq. apply pull_cons.
Qed.

Lemma nextSandboxMessage_pull st sandboxId chains items :
  sandbox_view st sandboxId chains items ->
  nextSandboxMessage sandboxId st = pull sandboxId items st.
Proof. intros [_ Hq]. unfold nextSandboxMessage. now rewrite Hq. Qed.

(** A [chain-ready] message at the head of the queue. *)
Lemma chain_ready_read st sandboxId chains chainId rest :
  sandbox_view st sandboxId chains (AppChainReady chainId :: rest) ->
  exists st1,
    nextSandboxMessage sandboxId st
    = Ok (Some (FromInner (AppChainReady chainId))) st1
    /\ sandbox_view st1 sandboxId (map_set str_eqb chains chainId new_chain)
         rest.
Proof.
  intros Hv. rewrite (nextSandboxMessage_cons _ _ _ _ _ Hv).
  pose proof (view_dequeued _ _ _ _ rest Hv) as Hd.
  rewrite (chain_ready_transition _ sandboxId chainId chains (proj1 Hd)
             (view_known _ _ _ _ Hd)).
  eexists. split; [reflexivity|].
  apply view_advanced, view_delegated. now apply view_with_chain.
Qed.

(** The response that carries the subscription, at the head of the
    queue. *)
Lemma ready_sub_transition st sandboxId chainId chains c text props id :
  map_get key_eqb (sandboxesChains st) sandboxId = Some chains ->
  map_get str_eqb chains chainId = Some c ->
  JSON_parse text = Parsed (VObj props) ->
  obj_get props (lit "id") = Some (VStr id) ->
  startsWith id (lit "ready-sub:") = true ->
  handle sandboxId (AppRpc chainId text) st
  = Ok Continue
      (with_chain st sandboxId chains chainId
         {| readySubscriptionId := obj_get props (lit "result");
            isSyncing := isSyncing c; peers := peers c |}).
Proof.
  intros Hchains Hchain Hparse Hid Hp.
  destruct (ready_sub_prefix id Hp) as (Ht & He & Hh).
  unfold handle, lookup_chain, JSON_parse_js.
  unfold bind, get_sandboxesChains, lift, ret, throw.
  cbv beta iota. rewrite Hchains. cbv beta iota. rewrite Hparse.
  cbv beta iota. cbn [get_prop]. rewrite Hid, Ht, He, Hh, Hp, Hchain.
  cbv beta iota.
  rewrite (store_chain_tracked st sandboxId chainId chains _ Hchains).
  reflexivity.
Qed.

Lemma subscription_read st sandboxId chains chainId c text props id rest :
  sandbox_view st sandboxId chains (AppRpc chainId text :: rest) ->
  map_get str_eqb chains chainId = Some c ->
  JSON_parse text = Parsed (VObj props) ->
  obj_get props (lit "id") = Some (VStr id) ->
  startsWith id (lit "ready-sub:") = true ->
  exists st1,
    nextSandboxMessage sandboxId st = nextSandboxMessage sandboxId st1
    /\ sandbox_view st1 sandboxId
         (map_set str_eqb chains chainId
            {| readySubscriptionId := obj_get props (lit "result");
               isSyncing := isSyncing c; peers := peers c |})
         rest.
Proof.
  intros Hv Hchain Hparse Hid Hp.
  rewrite (nextSandboxMessage_cons _ _ _ _ _ Hv).
  pose proof (view_dequeued _ _ _ _ rest Hv) as Hd.
  rewrite (ready_sub_transition _ sandboxId chainId chains c text props id
             (proj1 Hd) Hchain Hparse Hid Hp).
  eexists. split.
  - symmetry. apply nextSandboxMessage_pull with
      (map_set str_eqb chains chainId
         {| readySubscriptionId := obj_get props (lit "result");
            isSyncing := isSyncing c; peers := peers c |}).
    now apply view_with_chain.
  - now apply view_with_chain.
Qed.

(** The [initialized] event at the head of the queue. *)
Lemma initialized_read st sandboxId chains chainId c sub text props rest :
  sandbox_view st sandboxId chains (AppRpc chainId text :: rest) ->
  map_get str_eqb chains chainId = Some c ->
  readySubscriptionId c = Some sub ->
  JSON_parse text = Parsed (VObj props) ->
  follow_event props sub (Some (VStr (lit "initialized"))) ->
  exists st1,
    nextSandboxMessage sandboxId st = Ok (Some ChainsStatusChanged) st1
    /\ sandbox_view st1 sandboxId
         (map_set str_eqb chains chainId
            {| readySubscriptionId := readySubscriptionId c;
               isSyncing := false; peers := peers c |})
         rest.
Proof.
  intros Hv Hchain Hsub Hparse Hshape.
  rewrite (nextSandboxMessage_cons _ _ _ _ _ Hv).
  pose proof (view_dequeued _ _ _ _ rest Hv) as Hd.
  rewrite (initialized_transition _ sandboxId chainId chains c sub text props
             (proj1 Hd) Hchain Hsub (view_known _ _ _ _ Hd) Hparse Hshape).
  eexists. split; [reflexivity|].
  apply view_advanced, view_delegated. now apply view_with_chain.
Qed.

(** The response to a [system_health] request at the head of the queue. *)
Lemma health_response_transition st sandboxId chainId chains c text props id
  result :
  map_get key_eqb (sandboxesChains st) sandboxId = Some chains ->
  map_get str_eqb chains chainId = Some c ->
  JSON_parse text = Parsed (VObj props) ->
  obj_get props (lit "id") = Some (VStr id) ->
  startsWith id (lit "health-check:") = true ->
  get_prop (obj_get props (lit "result")) (lit "peers") = Normal result ->
  handle sandboxId (AppRpc chainId text) st
  = Ok (Return ChainsStatusChanged)
      (with_chain st sandboxId chains chainId
         {| readySubscriptionId := readySubscriptionId c;
            isSyncing := isSyncing c; peers := result |}).
Proof.
  intros Hchains Hchain Hparse Hid Hp Hpeers.
  destruct (health_check_prefix id Hp) as [Ht He].
  unfold handle, lookup_chain, JSON_parse_js.
  unfold bind, get_sandboxesChains, lift, ret, throw.
  cbv beta iota. rewrite Hchains. cbv beta iota. rewrite Hparse.
  cbv beta iota. cbn [get_prop]. rewrite Hid, Ht, He, Hp, Hchain, Hpeers.
  cbv beta iota.
  rewrite (store_chain_tracked st sandboxId chainId chains _ Hchains).
  reflexivity.
Qed.

Lemma health_response_read st sandboxId chains chainId c text props id result
  rest :
  sandbox_view st sandboxId chains (AppRpc chainId text :: rest) ->
  map_get str_eqb chains chainId = Some c ->
  JSON_parse text = Parsed (VObj props) ->
  obj_get props (lit "id") = Some (VStr id) ->
  startsWith id (lit "health-check:") = true ->
  get_prop (obj_get props (lit "result")) (lit "peers") = Normal result ->
  exists st1,
    nextSandboxMessage sandboxId st = Ok (Some ChainsStatusChanged) st1
    /\ sandbox_view st1 sandboxId
         (map_set str_eqb chains chainId
            {| readySubscriptionId := readySubscriptionId c;
               isSyncing := isSyncing c; peers := result |})
         rest.
Proof.
  intros Hv Hchain Hparse Hid Hp Hpeers.
  rewrite (nextSandboxMessage_cons _ _ _ _ _ Hv).
  pose proof (view_dequeued _ _ _ _ rest Hv) as Hd.
  rewrite (health_response_transition _ sandboxId chainId chains c text props
             id result (proj1 Hd) Hchain Hparse Hid Hp Hpeers).
  eexists. split; [reflexivity|]. now apply view_with_chain.
Qed.

(** What [allChains] says of a chain of the sandbox. *)
Lemma allChains_view st sandboxId chains items chainId c chainName :
  sandbox_view st sandboxId chains items ->
  map_get str_eqb chains chainId = Some c ->
  Listing.allChains [api_chain chainName sandboxId chainId] st
  = Ok [{| Listing.peers := peers c; Listing.isSyncing := isSyncing c;
           Listing.info := api_chain chainName sandboxId chainId |}] st.
Proof.
  intros [Hc _] Hchain.
  pose proof (report_outcome (api_chain chainName sandboxId chainId) st)
    as Hone.
  unfold api_chain in *. cbn [Listing.apiInfo Listing.sandboxId
                               Listing.chainId] in Hone.
  unfold chain_record in Hone. rewrite Hc, Hchain in Hone.
  unfold Listing.allChains. cbn [Listing.array_map]. unfold bind, ret.
  now rewrite Hone.
Qed.

Lemma chain_set_same (chains : list (jstring * Chain)) (chainId : jstring)
  (c : Chain) :
  map_get str_eqb (map_set str_eqb chains chainId c) chainId = Some c.
Proof. exact (map_get_set_same (K := jstring) chains chainId c). Qed.

(** Property X26.  The life of a chain as the caller sees it. The
    [chain-ready] message is returned, and [allChains] then reports the chain
    as syncing, without peers. Once the response with the subscription and the
    [initialized] event on that subscription were read, [nextSandboxMessage]
    has returned [chains-status-changed] and [allChains] reports the chain as
    in sync. After the response to the [system_health] request it has returned
    [chains-status-changed] again and [allChains] reports the peers of the
    response. *)
Theorem health_shows_in_allChains
  st sandboxId chainId chainName chains rest
  response props1 id1 sub event props2 health props3 id3 n :
  sandbox_view st sandboxId chains
    (AppChainReady chainId :: AppRpc chainId response :: AppRpc chainId event
       :: AppRpc chainId health :: rest) ->
  JSON_parse response = Parsed (VObj props1) ->
  obj_get props1 (lit "id") = Some (VStr id1) ->
  startsWith id1 (lit "ready-sub:") = true ->
  obj_get props1 (lit "result") = Some sub ->
  JSON_parse event = Parsed (VObj props2) ->
  follow_event props2 sub (Some (VStr (lit "initialized"))) ->
  JSON_parse health = Parsed (VObj props3) ->
  obj_get props3 (lit "id") = Some (VStr id3) ->
  startsWith id3 (lit "health-check:") = true ->
  get_prop (obj_get props3 (lit "result")) (lit "peers") = Normal n ->
  let chainInfo := api_chain chainName sandboxId chainId in
  exists st1 st2 st3,
    nextSandboxMessage sandboxId st
    = Ok (Some (FromInner (AppChainReady chainId))) st1
    /\ Listing.allChains [chainInfo] st1
       = Ok [{| Listing.peers := Some number_zero; Listing.isSyncing := true;
                Listing.info := chainInfo |}] st1
    /\ nextSandboxMessage sandboxId st1 = Ok (Some ChainsStatusChanged) st2
    /\ Listing.allChains [chainInfo] st2
       = Ok [{| Listing.peers := Some number_zero; Listing.isSyncing := false;
                Listing.info := chainInfo |}] st2
    /\ nextSandboxMessage sandboxId st2 = Ok (Some ChainsStatusChanged) st3
    /\ Listing.allChains [chainInfo] st3
       = Ok [{| Listing.peers := n; Listing.isSyncing := false;
                Listing.info := chainInfo |}] st3
    /\ exists chains3, sandbox_view st3 sandboxId chains3 rest.
Proof.
  intros Hv Hp1 Hid1 Hpre1 Hsub Hp2 Hev Hp3 Hid3 Hpre3 Hn chainInfo.
  destruct (chain_ready_read _ _ _ _ _ Hv) as (st1 & Hr1 & Hv1).
  destruct (subscription_read _ _ _ _ new_chain _ _ _ _ Hv1
              (chain_set_same _ _ _) Hp1 Hid1 Hpre1) as (st1' & Hr1' & Hv1').
  rewrite Hsub in Hv1'. cbn [isSyncing peers new_chain] in Hv1'.
  destruct (initialized_read _ _ _ _ _ sub _ _ _ Hv1'
              (chain_set_same _ _ _) eq_refl Hp2 Hev) as (st2 & Hr2 & Hv2).
  cbn [readySubscriptionId peers] in Hv2.
  destruct (health_response_read _ _ _ _ _ _ _ _ n _ Hv2
              (chain_set_same _ _ _) Hp3 Hid3 Hpre3 Hn) as (st3 & Hr3 & Hv3).
  cbn [readySubscriptionId isSyncing] in Hv3.
  exists st1, st2, st3.
  split; [exact Hr1|]. split.
  { apply (allChains_view _ _ _ _ _ new_chain chainName Hv1).
    apply chain_set_same. }
  split; [now rewrite Hr1'|]. split.
  { exact (allChains_view _ _ _ _ _ _ chainName Hv2 (chain_set_same _ _ _)). }
  split; [exact Hr3|]. split.
  { exact (allChains_view _ _ _ _ _ _ chainName Hv3 (chain_set_same _ _ _)). }
  eexists. exact Hv3.
Qed.
End Lifecycle.

(** ** The further properties on concrete inputs *)

(** The request [client_request] goes out with the id ["extern:7"] and its
    other members as they were. *)
Lemma wrap_keeps_payload_witness :
  (exists text',
     sandboxMessage 1%N (ExtRpc chainA client_request) one_sandbox
     = Ok tt (delegated one_sandbox 1%N (ExtRpc chainA text'))
     /\ JSON_parse text'
        = Parsed
            (VObj [(lit "jsonrpc", VStr (lit "2.0"));
                   (lit "id", VStr (lit "extern:7"));
                   (lit "method", VStr (lit "m"));
                   (lit "params",
                    VArr [VNum (NFin false [1%N] 0); VStr (lit "a")])]))
  /\ sandboxMessage 1%N (ExtRpc chainA deep_request) one_sandbox
     = Throw RangeError
         (delegated one_sandbox 1%N (ExtRpc chainA deep_request)).
Proof.
  split.
  - destruct (wrap_keeps_payload (SandboxId := N) one_sandbox 1%N chainA
                client_request client_request_props)
      as [Hfits _]; [vm_compute; reflexivity|reflexivity|].
    destruct (Hfits eq_refl) as (text' & Hsend & Hparse & _).
    exists text'. split; [exact Hsend|exact Hparse].
  - destruct (wrap_keeps_payload (SandboxId := N) one_sandbox 1%N chainA
                deep_request deep_request_props)
      as [_ Hdeep]; [vm_compute; reflexivity|reflexivity|].
    apply Hdeep. vm_compute. reflexivity.
Defined.

(** The response [client_response] comes back with the id [7]; its result
    [[-0, 1e999]] is written as [[0, null]]. *)
Lemma unwrap_keeps_payload_witness :
  (exists text',
     handle 1%N (AppRpc chainA client_response) subscribed
     = Ok (Return (FromInner (AppRpc chainA text'))) subscribed
     /\ JSON_parse text'
        = Parsed
            (VObj [(lit "jsonrpc", VStr (lit "2.0"));
                   (lit "id", VNum (NFin false [7%N] 0));
                   (lit "result", VArr [VNum (NZero false); VNull])]))
  /\ handle 1%N (AppRpc chainA deep_response) subscribed
     = Throw RangeError subscribed.
Proof.
  split.
  - destruct (unwrap_keeps_payload (SandboxId := N) subscribed 1%N chainA
                [(chainA, subscribed_chain)] client_response
                client_response_props (lit "7") (VNum (NFin false [7%N] 0)))
      as [Hfits _];
      [reflexivity|vm_compute; reflexivity|reflexivity
      |vm_compute; reflexivity|].
    destruct (Hfits eq_refl) as (text' & Hread & Hparse & _).
    exists text'. split; [exact Hread|exact Hparse].
  - destruct (unwrap_keeps_payload (SandboxId := N) subscribed 1%N chainA
                [(chainA, subscribed_chain)] deep_response
                deep_response_props (lit "1") (VNum (NFin false [1%N] 0)))
      as [_ Hdeep];
      [reflexivity|vm_compute; reflexivity|reflexivity
      |vm_compute; reflexivity|].
    apply Hdeep. vm_compute. reflexivity.
Defined.

(** The batch [batch_request] goes out with the ids 1 and 2 as they
    were. *)
Lemma batch_payload_forwarded_unwrapped_witness :
  (exists text',
     sandboxMessage 1%N (ExtRpc chainA batch_request) one_sandbox
     = Ok tt (delegated one_sandbox 1%N (ExtRpc chainA text'))
     /\ JSON_parse text' = Parsed (VArr batch_items))
  /\ sandboxMessage 1%N (ExtRpc chainA deep_batch) one_sandbox
     = Throw RangeError
         (delegated one_sandbox 1%N (ExtRpc chainA deep_batch)).
Proof.
  split.
  - destruct (batch_payload_forwarded_unwrapped (SandboxId := N) one_sandbox
                1%N chainA batch_request batch_items)
      as [Hfits _]; [vm_compute; reflexivity|reflexivity|].
    destruct (Hfits eq_refl) as (text' & Hsend & Hparse).
    exists text'. split; [exact Hsend|exact Hparse].
  - destruct (batch_payload_forwarded_unwrapped (SandboxId := N) one_sandbox
                1%N chainA deep_batch [nested_value 4999])
      as [_ Hdeep]; [vm_compute; reflexivity|reflexivity|].
    apply Hdeep. vm_compute. reflexivity.
Defined.

(** The payload [null] is handed to the inner manager and then rejected. *)
Lemma primitive_payload_is_delegated_then_rejected_witness :
  sandboxMessage 1%N (ExtRpc chainA (lit "null")) one_sandbox
  = Throw TypeError (delegated one_sandbox 1%N (ExtRpc chainA (lit "null"))).
Proof.
  apply (primitive_payload_is_delegated_then_rejected (SandboxId := N)
           one_sandbox 1%N chainA (lit "null") VNull);
    [vm_compute; reflexivity|reflexivity|reflexivity].
Defined.

(** The response to a notification, which carries the id
    ["extern:undefined"], is not delivered. *)
Lemma unreadable_extern_id_throws_witness :
  handle 1%N (AppRpc chainA notification_response) subscribed
  = Throw JSONSyntaxError subscribed.
Proof.
  apply (unreadable_extern_id_throws (SandboxId := N) subscribed 1%N chainA
           [(chainA, subscribed_chain)] notification_response
           [(lit "jsonrpc", VStr (lit "2.0"));
            (lit "id", VStr (lit "extern:undefined"));
            (lit "result", VNull)]
           (lit "undefined"));
    [reflexivity|vm_compute; reflexivity|reflexivity|vm_compute; reflexivity].
Defined.

(** A client that sends the very text of the request [health-check:0]
    does not get it to the inner manager: no such request was sent. *)
Lemma client_cannot_forge_internal_request_witness :
  exists st',
    final (sandboxMessage 1%N (ExtRpc chainA (health_request 0)) subscribed)
    = Some st'
    /\ ~ In (1%N, ExtRpc chainA (health_request 0)) (sent (inner st')).
Proof.
  destruct (final (sandboxMessage 1%N (ExtRpc chainA (health_request 0))
                     subscribed)) as [st'|] eqn:Hfinal;
    [|vm_compute in Hfinal; discriminate].
  exists st'. split; [reflexivity|]. intros Hin.
  pose proof (client_cannot_forge_internal_request (SandboxId := N) subscribed
                st' 1%N (ExtRpc chainA (health_request 0)) Hfinal 1%N chainA
                (health_request 0)
                (ex_intro _ 0%N (or_intror eq_refl)) Hin) as Hold.
  cbn [subscribed inner sent In] in Hold.
  destruct Hold as [Heq|[]].
  assert (Ht : follow_request 0 = health_request 0) by congruence.
  now apply follow_request_not_health in Ht.
Defined.

(** After the run [busy_run] the two registries hold the same
    sandboxes. *)
Lemma registries_stay_in_step_witness :
  exists st, run busy_run initial = Some st /\ synced st.
Proof.
  destruct (run busy_run initial) as [st|] eqn:Hrun;
    [|vm_compute in Hrun; discriminate].
  exists st. split; [reflexivity|].
  exact (registries_stay_in_step (SandboxId := N) busy_run st Hrun).
Defined.

(** After the run [busy_run] a firing of the timer completes. *)
Lemma pings_reach_every_tracked_pair_witness :
  exists st,
    run busy_run initial = Some st
    /\ sendPings st = Ok tt (pinged st (tracked_pairs (sandboxesChains st))).
Proof.
  destruct (run busy_run initial) as [st|] eqn:Hrun;
    [|vm_compute in Hrun; discriminate].
  exists st. split; [reflexivity|].
  exact (pings_reach_every_tracked_pair (SandboxId := N) busy_run st Hrun).
Defined.

Lemma busy_run_counter (st : state (SandboxId := N)) :
  run busy_run initial = Some st -> nextHealthCheckRqId st = 5%N.
Proof.
  intros Hrun. vm_compute in Hrun. injection Hrun as <-. reflexivity.
Qed.

(** After the run [busy_run], in which a client sent the text of a
    [system_health] request of its own, the requests are numbered below the
    counter. *)
Lemma requests_numbered_by_counter_witness :
  exists st,
    run busy_run initial = Some st
    /\ numbered st
    /\ forall s c,
         ~ In (s, ExtRpc c (health_request (nextHealthCheckRqId st)))
             (sent (inner st)).
Proof.
  destruct (run busy_run initial) as [st|] eqn:Hrun;
    [|vm_compute in Hrun; discriminate].
  exists st. split; [reflexivity|].
  apply (requests_numbered_by_counter (SandboxId := N) busy_run st Hrun).
  rewrite (busy_run_counter st Hrun). reflexivity.
Defined.

(** After the run [busy_run] the [system_health] requests sent are numbered
    in ascending order. *)
Lemma health_check_ids_never_repeat_witness :
  exists st,
    run busy_run initial = Some st
    /\ forall l1 l2 s c n s' c' n',
         sent (inner st) = l1 ++ (s, ExtRpc c (health_request n)) :: l2 ->
         In (s', ExtRpc c' (health_request n')) l2 ->
         (n < n')%N /\ health_check_id n <> health_check_id n'.
Proof.
  destruct (run busy_run initial) as [st|] eqn:Hrun;
    [|vm_compute in Hrun; discriminate].
  exists st. split; [reflexivity|].
  apply (health_check_ids_never_repeat (SandboxId := N) busy_run st Hrun).
  rewrite (busy_run_counter st Hrun). reflexivity.
Defined.

(** From [subscribed], where the counter is 1, a [stop] event and a firing
    of the timer do not take the counter below 1. *)
Lemma counter_never_decreases_witness :
  exists st',
    run [OpInnerGenerates 1%N (AppRpc chainA (follow_event_text "s1" "stop"));
         OpNextSandboxMessage 1%N; OpSendPings] subscribed = Some st'
    /\ (1 <= nextHealthCheckRqId st')%N.
Proof.
  destruct (run [OpInnerGenerates 1%N
                   (AppRpc chainA (follow_event_text "s1" "stop"));
                 OpNextSandboxMessage 1%N; OpSendPings] subscribed)
    as [st'|] eqn:Hrun; [|vm_compute in Hrun; discriminate].
  exists st'. split; [reflexivity|].
  exact (counter_never_decreases (SandboxId := N) _ subscribed st' Hrun).
Defined.

(** The turn that reads a [stop] event in [subscribed] sends one request
    and keeps the counter. *)
Lemma turn_sends_at_most_one_request_witness :
  exists st',
    final (handle 1%N (AppRpc chainA (follow_event_text "s1" "stop"))
             subscribed) = Some st'
    /\ queues (inner st') = queues (inner subscribed)
    /\ touches_only 1%N subscribed st'
    /\ sends_at_most_one 1%N subscribed st'.
Proof.
  destruct (final (handle 1%N (AppRpc chainA (follow_event_text "s1" "stop"))
                     subscribed)) as [st'|] eqn:Hfinal;
    [|vm_compute in Hfinal; discriminate].
  exists st'. split; [reflexivity|].
  exact (turn_sends_at_most_one_request (SandboxId := N) 1%N _ subscribed st'
           Hfinal).
Defined.

(** In [two_sandboxes], where the counter is 2, a firing of the timer sends
    the requests [health-check:2] and [health-check:3] and leaves the
    counter at 4. *)
Lemma pings_numbered_consecutively_witness :
  exists st',
    sendPings two_sandboxes = Ok tt st'
    /\ sent (inner st')
       = [(1%N, ExtRpc chainA (health_request 2));
          (2%N, ExtRpc chainB (health_request 3))]
    /\ nextHealthCheckRqId st' = 4%N.
Proof.
  destruct (pings_numbered_consecutively (SandboxId := N) two_sandboxes)
    as (st' & Hsend & Hsent & Hcounter & _);
    [reflexivity|vm_compute; discriminate|].
  exists st'. split; [exact Hsend|]. split; [exact Hsent|exact Hcounter].
Defined.

(** In [saturated] the three requests of a firing of the timer carry the
    same id and the counter stays. *)
Lemma counter_saturates_at_2_53_witness :
  exists st',
    sendPings saturated = Ok tt st'
    /\ sent (inner st')
       = [(1%N, ExtRpc chainA (health_request (2 ^ 53)));
          (1%N, ExtRpc chainB (health_request (2 ^ 53)));
          (2%N, ExtRpc chainA (health_request (2 ^ 53)))]
    /\ nextHealthCheckRqId st' = (2 ^ 53)%N.
Proof.
  destruct (counter_saturates_at_2_53 (SandboxId := N) saturated)
    as (st' & Hsend & Hsent & Hcounter & _); [reflexivity|reflexivity|].
  exists st'. split; [exact Hsend|]. split; [exact Hsent|exact Hcounter].
Defined.

(** In [subscribed] the sandbox 1 cannot be added again, and its chain A
    stays; the sandbox 2 can be added. *)
Lemma addSandbox_outcome_witness :
  addSandbox 1%N subscribed = Throw DuplicateSandbox subscribed
  /\ exists st',
       addSandbox 2%N subscribed = Ok tt st'
       /\ map_get key_eqb (sandboxesChains st') 2%N = Some []
       /\ chain_record st' 1%N chainA = Some subscribed_chain.
Proof.
  destruct (addSandbox_outcome (SandboxId := N) subscribed 1%N) as [Hdup _].
  destruct (addSandbox_outcome (SandboxId := N) subscribed 2%N) as [_ Hnew].
  split; [apply Hdup; reflexivity|].
  destruct (Hnew eq_refl) as (st' & Hadd & _ & Hempty & Hothers & _).
  exists st'. split; [exact Hadd|]. split; [exact Hempty|].
  unfold chain_record. rewrite (Hothers 1%N) by discriminate. reflexivity.
Defined.

(** Adding the sandbox 2 to [subscribed] and deleting it again gives
    [subscribed]. *)
Lemma add_then_delete_restores_witness :
  bind (addSandbox 2%N) (fun _ => deleteSandbox 2%N) subscribed
  = Ok tt subscribed.
Proof.
  apply (add_then_delete_restores (SandboxId := N) subscribed 2%N);
    reflexivity.
Defined.

(** In [two_sandboxes] the sandbox 3 cannot be deleted; deleting the
    sandbox 1 leaves the chain B of the sandbox 2. *)
Lemma deleteSandbox_outcome_witness :
  deleteSandbox 3%N two_sandboxes = Throw UnknownSandbox two_sandboxes
  /\ exists st',
       deleteSandbox 1%N two_sandboxes = Ok tt st'
       /\ map_get key_eqb (sandboxesChains st') 1%N = None
       /\ chain_record st' 2%N chainB = Some new_chain.
Proof.
  destruct (deleteSandbox_outcome (SandboxId := N) two_sandboxes 3%N)
    as [Hunknown _].
  destruct (deleteSandbox_outcome (SandboxId := N) two_sandboxes 1%N)
    as [_ Hknown].
  split; [apply Hunknown; reflexivity|].
  destruct (Hknown eq_refl) as (st' & Hdel & _ & Hgone & Hothers & _).
  exists st'. split; [exact Hdel|]. split; [exact Hgone|].
  unfold chain_record. destruct (Hothers 2%N) as [Hc _]; [discriminate|].
  rewrite Hc. reflexivity.
Defined.

(** A [remove-chain] message for chain A in [subscribed] takes the record
    away; in a new instance, which has no sandbox, it throws. *)
Lemma remove_chain_outcome_witness :
  sandboxMessage 1%N (ExtRemoveChain chainA) initial = Throw TypeError initial
  /\ exists st',
       sandboxMessage 1%N (ExtRemoveChain chainA) subscribed = Ok tt st'
       /\ chain_record st' 1%N chainA = None
       /\ sent (inner st')
          = [(1%N, ExtRpc chainA (follow_request 0));
             (1%N, ExtRemoveChain chainA)].
Proof.
  destruct (remove_chain_outcome (SandboxId := N) initial 1%N chainA)
    as [Huntracked _].
  destruct (remove_chain_outcome (SandboxId := N) subscribed 1%N chainA)
    as [_ Htracked].
  split; [apply Huntracked; reflexivity|].
  destruct (Htracked [(chainA, subscribed_chain)] eq_refl eq_refl)
    as (st' & Hsend & Hgone & _ & Hsent & _).
  exists st'. split; [exact Hsend|]. split; [exact Hgone|exact Hsent].
Defined.

(** In [one_sandbox], where chain A has no record, the response
    [health_response] makes the turn throw. *)
Lemma response_for_untracked_chain_throws_witness :
  handle 1%N (AppRpc chainA health_response) one_sandbox
  = Throw TypeError one_sandbox.
Proof.
  destruct (response_for_untracked_chain_throws (SandboxId := N) one_sandbox
              1%N chainA [] health_response health_response_props)
    as [Hresponse _];
    [reflexivity|reflexivity|vm_compute; reflexivity|].
  apply (Hresponse (lit "health-check:1")); [reflexivity|].
  left. reflexivity.
Defined.

(** In [stopped], where chain A has no subscription, the response
    [subscription_response] stores the subscription [s1]. *)
Lemma subscription_is_stored_witness :
  handle 1%N (AppRpc chainA subscription_response) stopped
  = Ok Continue
      (with_chain stopped 1%N [(chainA, new_chain)] chainA subscribed_chain).
Proof.
  destruct (subscription_is_stored (SandboxId := N) stopped 1%N chainA
              [(chainA, new_chain)] new_chain subscription_response
              subscription_response_props (lit "ready-sub:0"))
    as [Hstored _];
    [reflexivity|reflexivity|vm_compute; reflexivity|reflexivity|reflexivity|].
  exact Hstored.
Defined.

(** In [subscribed] an event on the subscription [x9], which is not the
    one of the class, is returned as it is. *)
Lemma other_notifications_pass_through_witness :
  handle 1%N (AppRpc chainA foreign_event) subscribed
  = Ok (Return (FromInner (AppRpc chainA foreign_event))) subscribed.
Proof.
  destruct (other_notifications_pass_through (SandboxId := N) subscribed 1%N
              chainA [(chainA, subscribed_chain)] foreign_event
              (follow_event_props "x9" "newBlock"))
    as [_ Hother];
    [reflexivity|vm_compute; reflexivity|reflexivity|].
  apply (Hother subscribed_chain (Some (VStr (lit "x9"))));
    reflexivity.
Defined.

(** In [subscribed], [allChains] reports a well-known chain with the fixed
    values and chain A of the sandbox 1 with those of its record. *)
Lemma allChains_reports_witness :
  let polkadot :=
    {| Listing.chainName := lit "polkadot"; Listing.apiInfo := None |} in
  let chain := api_chain (lit "A") 1%N chainA in
  Listing.allChains [polkadot; chain] subscribed
  = Ok [{| Listing.peers := Some number_zero; Listing.isSyncing := true;
           Listing.info := polkadot |};
        {| Listing.peers := Some number_zero; Listing.isSyncing := true;
           Listing.info := chain |}] subscribed.
Proof.
  cbv zeta.
  destruct (allChains_reports (SandboxId := N)
              [{| Listing.chainName := lit "polkadot";
                  Listing.apiInfo := None |};
               api_chain (lit "A") 1%N chainA] subscribed)
    as (out & Hout & _).
  { intros chainInfo api [<-|[<-|[]]] Ha; [discriminate|].
    injection Ha as <-. discriminate. }
  rewrite Hout. vm_compute in Hout. injection Hout as <-. reflexivity.
Defined.

(** In [one_sandbox], where chain A has no record yet, [allChains] throws
    when the inner manager lists chain A. *)
Lemma allChains_throws_on_untracked_chain_witness :
  Listing.allChains
    [{| Listing.chainName := lit "polkadot"; Listing.apiInfo := None |};
     api_chain (lit "A") 1%N chainA] one_sandbox
  = Throw TypeError one_sandbox.
Proof.
  apply (allChains_throws_on_untracked_chain (SandboxId := N) _ one_sandbox
           (api_chain (lit "A") 1%N chainA)
           {| Listing.chainId := chainA; Listing.sandboxId := 1%N |});
    [right; left; reflexivity|reflexivity|reflexivity].
Defined.

(** With a [newBlock] event of the subscription of the class, a
    [chain-ready] message and an [error] message in the queue,
    [nextSandboxMessage] consumes the event, returns the [chain-ready]
    message and leaves the [error] message. *)
Lemma nextSandboxMessage_reads_in_order_witness :
  let items :=
    [AppRpc chainA (follow_event_text "s1" "newBlock");
     AppChainReady chainB; AppError chainB (lit "gone")] in
  exists st',
    nextSandboxMessage 1%N (dequeued subscribed 1%N items)
    = Ok (Some (FromInner (AppChainReady chainB))) st'
    /\ exists skipped item rest,
         items = skipped ++ item :: rest
         /\ forallb is_rpc skipped = true
         /\ map_get key_eqb (queues (inner st')) 1%N = Some rest.
Proof.
  cbv zeta.
  pose proof (nextSandboxMessage_reads_in_order (SandboxId := N) 1%N
                (dequeued subscribed 1%N
                   [AppRpc chainA (follow_event_text "s1" "newBlock");
                    AppChainReady chainB; AppError chainB (lit "gone")])
                _ eq_refl) as Hread.
  destruct (nextSandboxMessage 1%N
              (dequeued subscribed 1%N
                 [AppRpc chainA (follow_event_text "s1" "newBlock");
                  AppChainReady chainB; AppError chainB (lit "gone")]))
    as [[m|] st'|e st'|] eqn:Hnext;
    try (vm_compute in Hnext; discriminate).
  exists st'. split; [|exact Hread].
  vm_compute in Hnext. injection Hnext as <- <-. reflexivity.
Defined.

(** The life of chain A in the sandbox 1: syncing without peers, then in
    sync, then with 7 peers. *)
Lemma health_shows_in_allChains_witness :
  let chainInfo := api_chain (lit "A") 1%N chainA in
  exists st1 st2 st3,
    nextSandboxMessage 1%N awaiting
    = Ok (Some (FromInner (AppChainReady chainA))) st1
    /\ Listing.allChains [chainInfo] st1
       = Ok [{| Listing.peers := Some number_zero; Listing.isSyncing := true;
                Listing.info := chainInfo |}] st1
    /\ nextSandboxMessage 1%N st1 = Ok (Some ChainsStatusChanged) st2
    /\ Listing.allChains [chainInfo] st2
       = Ok [{| Listing.peers := Some number_zero; Listing.isSyncing := false;
                Listing.info := chainInfo |}] st2
    /\ nextSandboxMessage 1%N st2 = Ok (Some ChainsStatusChanged) st3
    /\ Listing.allChains [chainInfo] st3
       = Ok [{| Listing.peers := Some (VNum (NFin false [7%N] 0));
                Listing.isSyncing := false;
                Listing.info := chainInfo |}] st3.
Proof.
  cbv zeta.
  destruct (health_shows_in_allChains (SandboxId := N) awaiting 1%N chainA
              (lit "A") [] []
              subscription_response subscription_response_props
              (lit "ready-sub:0") (VStr (lit "s1"))
              (follow_event_text "s1" "initialized")
              (follow_event_props "s1" "initialized")
              health_response health_response_props (lit "health-check:1")
              (Some (VNum (NFin false [7%N] 0))))
    as (st1 & st2 & st3 & H1 & H2 & H3 & H4 & H5 & H6 & _).
  - split; reflexivity.
  - vm_compute. reflexivity.
  - reflexivity.
  - reflexivity.
  - reflexivity.
  - vm_compute. reflexivity.
  - apply follow_event_props_shape.
  - vm_compute. reflexivity.
  - reflexivity.
  - reflexivity.
  - reflexivity.
  - exists st1, st2, st3. repeat split; assumption.
Defined.

